(** * Database lifecycle manager of the service template

    A shallow embedding of [pkg/database/sqlite.go]: the constructor [New],
    [Close], and the migration engine [migrate] / [migrateFile].

    The Go code is a sequence of calls into libraries (database/sql, sqlx,
    the SQLite driver, embed, fmt, os, context).  Those libraries are not
    part of the repository; they are modelled below as operations on an
    explicit [World].  Every library call is appended to a chronological
    [trace], and every call that can fail in Go consults a fault oracle
    [fault] at the index of the call, so that a theorem quantified over
    [fault] covers every pattern of library failures.

    What is taken from the libraries:
    - a call that the oracle fails has not reached the database: it
      returns the error of the oracle and changes nothing;
    - the statements written in the source (the create-if-absent statement,
      the pragmas, the counting query, the bookkeeping insert) act on the
      bookkeeping table and the settings as SQLite defines them;
    - the text of a migration script is sent to SQLite as it is
      ([tx.Exec(string(buf))]).  What SQLite does with it is the parameter
      [engine]: any function from the state of the connection (the
      committed content of the file and the working copy of the open
      transaction, if one is open) to the state it leaves and the error it
      returns.  A script may thus do anything SQL can do on that
      connection: fail part-way, end the transaction with its own COMMIT
      or ROLLBACK, write to the bookkeeping table;
    - [Begin] opens a transaction on a copy of the committed content;
      statements run while it is open act on the copy, [Commit] installs
      the copy, [Rollback] and a [Commit] that fails drop it.  Once a
      script has ended the transaction itself, the statements that follow
      are committed one by one, and [Commit] fails because no transaction
      is active;
    - the cancel function of a context and [Close] of a pool may be called
      again, and then do nothing. *)

From Stdlib Require Import String Ascii List ZArith Lia Bool Arith.
From Stdlib Require Import Sorting.Sorted Sorting.Permutation Sorting.Mergesort Orders.
Import ListNotations.
Local Open Scope string_scope.

(** ** Strings: Go's byte-wise order and [sort.Strings] *)

Module StringOrder <: Orders.TotalLeBool.
Definition t := string.
Definition leb := String.leb.
Definition leb_total := String.leb_total.
End StringOrder.

Module StringSort := Sort StringOrder.

(** [sort.Strings(names)]: ascending order of Go's [<] on strings, which
    compares byte by byte. *)
Definition sort_Strings (names : list string) : list string :=
  StringSort.sort names.

(** Go's [s1 < s2] on strings. *)
Definition string_lt (s1 s2 : string) : Prop := String.ltb s1 s2 = true.

(** Go's [s1 <= s2] on strings. *)
Definition string_le (s1 s2 : string) : Prop := String.leb s1 s2 = true.

(** [s] occurs in [t] as a contiguous substring. *)
Definition substring_of (s t : string) : Prop :=
  exists pre post, t = pre ++ s ++ post.

Definition LF : string := String (ascii_of_nat 10) EmptyString.

(** ** Errors *)

(** A Go error value: its [Error()] text, and the error it wraps ([%w]). *)
Inductive error : Type :=
| BaseError (msg : string)
| WrapError (msg : string) (wrapped : error).

Definition Error (e : error) : string :=
  match e with BaseError m => m | WrapError m _ => m end.

Definition Unwrap (e : error) : option error :=
  match e with BaseError _ => None | WrapError _ w => Some w end.

Definition errors_New (m : string) : error := BaseError m.

(** [fmt.Errorf(prefix + "%w", err)]. *)
Definition Errorf_w (prefix : string) (err : error) : error :=
  WrapError (prefix ++ Error err) err.

(** A Go [(value, error)] pair of a library call: exactly one is set. *)
Inductive result (A : Type) : Type :=
| Ok (a : A)
| Err (e : error).
Arguments Ok {A} a.
Arguments Err {A} e.

(** What a call does when it may panic. *)
Inductive outcome (A : Type) : Type :=
| Returned (a : A)
| Panicked.
Arguments Returned {A} a.
Arguments Panicked {A}.

(** ** The world the code runs in *)

(** A library call, as it appears in the trace. *)
Inductive Call : Type :=
| CConnect (driver dsn : string)
| CWithCancel
| CSetMaxOpenConns (p : nat) (n : Z)
| CSetMaxIdleConns (p : nat) (n : Z)
| CSetConnMaxIdleTime (p : nat) (d : Z)
| CSetConnMaxLifetime (p : nat) (d : Z)
| CExec (sql : string)
| CGetenv (key : string)
| CGlob (pattern : string)
| CBegin
| CQueryRow (sql : string) (arg : string)
| CReadFile (name : string)
| CTxExec (sql : string) (args : list string)
| CPrintf (text : string)
| CCommit
| CRollback
| CCancel (c : nat)
| CClose (p : nat).

(** The effect of an SQL text that was executed to its end on the
    application schema. *)
Inductive effect : Type :=
| Full (sql : string).

(** The database file.  [migrations] is the bookkeeping table as the
    create statement of the source defines it ([None]: the table does not
    exist; the list holds its rows, the column [name] being the primary
    key).  [schema] is the history of SQL texts applied to the application
    schema, [pragmas] the engine settings applied. *)
Record DB : Type := mkDB {
  migrations : option (list string);
  schema : list effect;
  pragmas : list string
}.

(** A [*sql.DB] connection pool. *)
Record Pool : Type := mkPool {
  closed : bool;
  maxOpen : Z;
  maxIdle : Z;
  maxIdleTime : Z;
  maxLifetime : Z
}.

Record World : Type := mkWorld {
  environ : list (string * string);  (* process environment *)
  disk : DB;                         (* committed content of the file *)
  txn : option DB;                   (* working copy of the open transaction *)
  pools : list Pool;                 (* allocated pools, by address *)
  ctxs : list bool;                  (* allocated contexts: cancelled? *)
  stdout : list string;              (* what fmt.Printf wrote *)
  trace : list Call                  (* library calls so far *)
}.

Definition with_environ (v : list (string * string)) (w : World) : World :=
  mkWorld v (disk w) (txn w) (pools w) (ctxs w) (stdout w) (trace w).
Definition with_disk (d : DB) (w : World) : World :=
  mkWorld (environ w) d (txn w) (pools w) (ctxs w) (stdout w) (trace w).
Definition with_txn (t : option DB) (w : World) : World :=
  mkWorld (environ w) (disk w) t (pools w) (ctxs w) (stdout w) (trace w).
Definition with_pools (ps : list Pool) (w : World) : World :=
  mkWorld (environ w) (disk w) (txn w) ps (ctxs w) (stdout w) (trace w).
Definition with_ctxs (cs : list bool) (w : World) : World :=
  mkWorld (environ w) (disk w) (txn w) (pools w) cs (stdout w) (trace w).
Definition with_stdout (o : list string) (w : World) : World :=
  mkWorld (environ w) (disk w) (txn w) (pools w) (ctxs w) o (trace w).
Definition with_trace (t : list Call) (w : World) : World :=
  mkWorld (environ w) (disk w) (txn w) (pools w) (ctxs w) (stdout w) t.

(** A fresh database file and a process that has done nothing yet. *)
Definition empty_DB : DB := mkDB None [] [].
Definition initial_World (env : list (string * string)) : World :=
  mkWorld env empty_DB None [] [] [] [].

(** Update of the [i]-th element of a list; nothing out of range. *)
Fixpoint update_nth {A : Type} (i : nat) (f : A -> A) (l : list A) : list A :=
  match l, i with
  | [], _ => []
  | x :: r, O => f x :: r
  | x :: r, S j => x :: update_nth j f r
  end.

Fixpoint lookup {A : Type} (k : string) (l : list (string * A)) : option A :=
  match l with
  | [] => None
  | (k', v) :: r => if String.eqb k k' then Some v else lookup k r
  end.

(** The value of an environment variable; empty when it is not set. *)
Definition getenv (key : string) (env : list (string * string)) : string :=
  match lookup key env with
  | Some v => v
  | None => ""
  end.

(** ** State-passing computations *)

Definition M (A : Type) : Type := World -> A * World.

Definition ret {A : Type} (a : A) : M A := fun w => (a, w).

Definition bind {A B : Type} (m : M A) (k : A -> M B) : M B :=
  fun w => let (a, w') := m w in k a w'.

Notation "x <- m ;; k" := (bind m (fun x => k))
  (at level 61, m at next level, right associativity).
Notation "m ;;; k" := (bind m (fun _ => k))
  (at level 61, right associativity).

(** [defer d] around a function body: [d] runs when the body returns. *)
Definition defer {A : Type} (d : M unit) (body : M A) : M A :=
  r <- body ;; d ;;; ret r.

(** The SQL texts of the source. *)
Definition create_migrations_sql : string :=
  "CREATE TABLE IF NOT EXISTS migrations (name TEXT PRIMARY KEY);".
Definition count_sql : string :=
  "SELECT COUNT(*) FROM migrations WHERE name = ?".
Definition insert_sql : string :=
  "INSERT INTO migrations (name) VALUES (?)".

Definition ErrNoTable : error :=
  errors_New "no such table: migrations".
Definition ErrUnique : error :=
  errors_New "UNIQUE constraint failed: migrations.name".
Definition ErrNoTransaction : error :=
  errors_New "cannot commit - no transaction is active".

(** [&fs.PathError{Op: op, Path: path, Err: err}]. *)
Definition PathError (op path : string) (err : error) : error :=
  WrapError (op ++ " " ++ path ++ ": " ++ Error err) err.

(** [fs.ErrNotExist]. *)
Definition fs_ErrNotExist : error := errors_New "file does not exist".

(** What [fs.ReadFile] of the embedded file system returns for a name
    that is not a file: no such file, or a directory. *)
Definition ErrNotExist (name : string) : error :=
  PathError "open" name fs_ErrNotExist.
Definition ErrIsDirectory (name : string) : error :=
  PathError "read" name (errors_New "is a directory").

(** What an SQL text run on the pool (autocommit) does to the file. *)
Definition exec_autocommit (sql : string) (d : DB) : DB :=
  if String.eqb sql create_migrations_sql then
    match migrations d with
    | None => mkDB (Some []) (schema d) (pragmas d)
    | Some _ => d
    end
  else if String.prefix "PRAGMA" sql then
    mkDB (migrations d) (schema d) (pragmas d ++ [sql])%list
  else mkDB (migrations d) (schema d ++ [Full sql])%list (pragmas d).

(** The state of the connection a transaction runs on: the committed
    content of the file, and the working copy of the transaction that is
    open on the connection, if one is. *)
Definition Conn : Type := (DB * option DB)%type.

(** The SQL engine on the text of a script: the arguments bound to the
    text, the state of the connection before, the state after and the
    error returned. *)
Definition Engine : Type := string -> list string -> Conn -> Conn * option error.

(** The connection just after [Begin] on the committed content [d]. *)
Definition in_tx (d : DB) : Conn := (d, Some d).

(** The content a statement on the connection sees: the working copy of
    the open transaction, the committed content without one. *)
Definition seen (c : Conn) : DB :=
  match snd c with
  | Some t => t
  | None => fst c
  end.

(** One statement that changes the content [seen] to [f seen]: in an open
    transaction the working copy changes; without one the change is
    committed at once.  A statement that fails changes nothing. *)
Definition on_seen (f : DB -> result DB) (c : Conn) : Conn * option error :=
  match f (seen c) with
  | Err e => (c, Some e)
  | Ok d' =>
    (match snd c with
     | Some _ => (fst c, Some d')
     | None => (d', None)
     end, None)
  end.

(** [INSERT INTO migrations (name) VALUES (?)] with [name] bound: fails
    without the table and on a duplicate key. *)
Definition insert_row (name : string) (d : DB) : result DB :=
  match migrations d with
  | None => Err ErrNoTable
  | Some rows =>
    if existsb (String.eqb name) rows then Err ErrUnique
    else Ok (mkDB (Some (rows ++ [name])%list) (schema d) (pragmas d))
  end.

Definition insert_record (name : string) : Conn -> Conn * option error :=
  on_seen (insert_row name).

Definition count_rows (name : string) (rows : list string) : Z :=
  Z.of_nat (List.length (filter (String.eqb name) rows)).

Section Program.

(** The outcome of the [i]-th library call when it fails. *)
Variable fault : nat -> option error.

(** What SQLite does with the text of a script. *)
Variable engine : Engine.

(** The embedded file system [migrationFS]: the files matched by the
    [go:embed migration/*.sql] directive, name and content, in the order
    in which the file system enumerates them. *)
Variable migrationFS : list (string * string).

(** [strconv.Quote], the [%q] verb of fmt (Go standard library). *)
Variable Quote : string -> string.

(** *** Library calls *)

Definition emit (c : Call) : M unit :=
  fun w => (tt, with_trace (trace w ++ [c])%list w).

Definition call (c : Call) : M (option error) :=
  fun w => (fault (List.length (trace w)), with_trace (trace w ++ [c])%list w).

Definition modify (f : World -> World) : M unit :=
  fun w => (tt, f w).

Definition default_Pool : Pool := mkPool false 0 2 0 0.

Definition sqlx_Connect (driver dsn : string) : M (result nat) :=
  r <- call (CConnect driver dsn) ;;
  match r with
  | Some e => ret (Err e)
  | None =>
    fun w => (Ok (List.length (pools w)),
              with_pools (pools w ++ [default_Pool])%list w)
  end.

(** Returns the context and the function that cancels it. *)
Definition context_WithCancel : M (nat * nat) :=
  emit CWithCancel ;;;
  fun w => ((List.length (ctxs w), List.length (ctxs w)),
            with_ctxs (ctxs w ++ [false])%list w).

Definition update_pool (p : nat) (f : Pool -> Pool) : M unit :=
  modify (fun w => with_pools (update_nth p f (pools w)) w).

Definition SetMaxOpenConns (p : nat) (n : Z) : M unit :=
  emit (CSetMaxOpenConns p n) ;;;
  update_pool p (fun q => mkPool (closed q) n (maxIdle q) (maxIdleTime q) (maxLifetime q)).

Definition SetMaxIdleConns (p : nat) (n : Z) : M unit :=
  emit (CSetMaxIdleConns p n) ;;;
  update_pool p (fun q => mkPool (closed q) (maxOpen q) n (maxIdleTime q) (maxLifetime q)).

Definition SetConnMaxIdleTime (p : nat) (d : Z) : M unit :=
  emit (CSetConnMaxIdleTime p d) ;;;
  update_pool p (fun q => mkPool (closed q) (maxOpen q) (maxIdle q) d (maxLifetime q)).

Definition SetConnMaxLifetime (p : nat) (d : Z) : M unit :=
  emit (CSetConnMaxLifetime p d) ;;;
  update_pool p (fun q => mkPool (closed q) (maxOpen q) (maxIdle q) (maxIdleTime q) d).

(** [db.db.Exec(sql)]: one statement on the pool, committed at once. *)
Definition db_Exec (sql : string) : M (option error) :=
  r <- call (CExec sql) ;;
  match r with
  | Some e => ret (Some e)
  | None => modify (fun w => with_disk (exec_autocommit sql (disk w)) w) ;;; ret None
  end.

Definition os_Getenv (key : string) : M string :=
  emit (CGetenv key) ;;;
  fun w => (getenv key (environ w), w).

Definition fs_Glob (pattern : string) : M (result (list string)) :=
  r <- call (CGlob pattern) ;;
  match r with
  | Some e => ret (Err e)
  | None => ret (Ok (map fst migrationFS))
  end.

(** The directories of the embedded file system: the root and every
    directory on the path of an embedded file. *)
Definition is_directory (name : string) : bool :=
  String.eqb name "."
  || existsb (fun f => String.prefix (name ++ "/") (fst f)) migrationFS.

(** [fs.ReadFile(migrationFS, name)]. *)
Definition fs_ReadFile (name : string) : M (result string) :=
  r <- call (CReadFile name) ;;
  match r with
  | Some e => ret (Err e)
  | None =>
    match lookup name migrationFS with
    | Some buf => ret (Ok buf)
    | None =>
      if is_directory name then ret (Err (ErrIsDirectory name))
      else ret (Err (ErrNotExist name))
    end
  end.

(** [db.db.Begin()]: the transaction starts from the committed state. *)
Definition db_Begin : M (option error) :=
  r <- call CBegin ;;
  match r with
  | Some e => ret (Some e)
  | None => modify (fun w => with_txn (Some (disk w)) w) ;;; ret None
  end.

(** [tx.QueryRow(sql, arg).Scan(&n)] for the counting query. *)
Definition tx_QueryRow_Scan (sql arg : string) : M (result Z) :=
  r <- call (CQueryRow sql arg) ;;
  match r with
  | Some e => ret (Err e)
  | None =>
    fun w =>
      match migrations (seen (disk w, txn w)) with
      | None => (Err ErrNoTable, w)
      | Some rows => (Ok (count_rows arg rows), w)
      end
  end.

(** What a text sent through [tx.Exec] does on the connection: the
    bookkeeping insert of the source adds a row; any other text, the
    content of a script, is up to the engine. *)
Definition statement (sql : string) (args : list string) (c : Conn)
  : Conn * option error :=
  match args with
  | [name] =>
    if String.eqb sql insert_sql then insert_record name c
    else engine sql args c
  | _ => engine sql args c
  end.

(** [tx.Exec(sql, args...)]. *)
Definition tx_Exec (sql : string) (args : list string) : M (option error) :=
  r <- call (CTxExec sql args) ;;
  match r with
  | Some e => ret (Some e)
  | None =>
    fun w =>
      let (c, e) := statement sql args (disk w, txn w) in
      (e, with_txn (snd c) (with_disk (fst c) w))
  end.

Definition fmt_Printf (text : string) : M unit :=
  emit (CPrintf text) ;;;
  modify (fun w => with_stdout (stdout w ++ [text])%list w).

(** [tx.Commit()]: the working copy of the open transaction becomes the
    committed content; a commit that fails drops it.  When the script
    has ended the transaction itself there is nothing to commit: the
    call fails and the file stays as the script left it. *)
Definition tx_Commit : M (option error) :=
  r <- call CCommit ;;
  fun w =>
    match txn w with
    | Some t =>
      match r with
      | Some e => (Some e, with_txn None w)
      | None => (None, with_txn None (with_disk t w))
      end
    | None =>
      match r with
      | Some e => (Some e, w)
      | None => (Some ErrNoTransaction, w)
      end
    end.

(** [tx.Rollback()], its result ignored: the working copy is dropped;
    nothing happens when the transaction is already over. *)
Definition tx_Rollback : M unit :=
  emit CRollback ;;;
  modify (with_txn None).

(** The cancel function of a context; calling it again does nothing. *)
Definition cancel_ctx (c : nat) : M unit :=
  emit (CCancel c) ;;;
  modify (fun w => with_ctxs (update_nth c (fun _ => true) (ctxs w)) w).

(** [Close] of [sql.DB]: a closed pool returns nil at once; otherwise
    the pool is marked closed and the result of releasing its
    connections is returned. *)
Definition sql_Close (p : nat) : M (option error) :=
  fun w =>
    match nth_error (pools w) p with
    | Some q =>
      if closed q then (None, with_trace (trace w ++ [CClose p])%list w)
      else
        (r <- call (CClose p) ;;
         update_pool p (fun q => mkPool true (maxOpen q) (maxIdle q)
                                        (maxIdleTime q) (maxLifetime q)) ;;;
         ret r) w
    | None => call (CClose p) w
    end.

(** *** The program *)

(** The [Sqlite] struct; a nil field is [None]. *)
Record Sqlite : Type := mkSqlite {
  db : option nat;       (* *sqlx.DB *)
  ctx : option nat;      (* context.Context *)
  cancel : option nat    (* func() cancelling that context *)
}.

Definition success_message (name : string) : string :=
  "migration success: " ++ name ++ LF.

Definition migrateFile (name : string) : M (option error) :=
  err <- db_Begin ;;
  match err with
  | Some e => ret (Some e)
  | None =>
    defer tx_Rollback
      (q <- tx_QueryRow_Scan count_sql name ;;
       match q with
       | Err e => ret (Some e)
       | Ok n =>
         if negb (n =? 0)%Z then ret None
         else
           f <- fs_ReadFile name ;;
           match f with
           | Err e => ret (Some e)
           | Ok buf =>
             e1 <- tx_Exec buf [] ;;
             match e1 with
             | Some e => ret (Some e)
             | None =>
               e2 <- tx_Exec insert_sql [name] ;;
               match e2 with
               | Some e => ret (Some e)
               | None =>
                 fmt_Printf (success_message name) ;;;
                 tx_Commit
               end
             end
           end
       end)
  end.

(** [fmt.Errorf("migration error: name=%q err=%w", name, err)]. *)
Definition migration_error (name : string) (err : error) : error :=
  WrapError ("migration error: name=" ++ Quote name ++ " err=" ++ Error err)
            err.

(** The [for _, name := range names] loop of [migrate]. *)
Fixpoint migrate_loop (names : list string) : M (option error) :=
  match names with
  | [] => ret None
  | name :: rest =>
    err <- migrateFile name ;;
    match err with
    | Some e => ret (Some (migration_error name e))
    | None => migrate_loop rest
    end
  end.

Definition migrate : M (option error) :=
  err <- db_Exec create_migrations_sql ;;
  match err with
  | Some e => ret (Some (Errorf_w "cannot create migrations table: " e))
  | None =>
    g <- fs_Glob "migration/*.sql" ;;
    match g with
    | Err e => ret (Some e)
    | Ok names => migrate_loop (sort_Strings names)
    end
  end.

Definition minute : Z := 60 * 1000000000.
Definition hour : Z := 60 * minute.

Definition New (dsn : string) : M (option Sqlite * option error) :=
  c <- sqlx_Connect "sqlite3" dsn ;;
  match c with
  | Err e => ret (None, Some e)
  | Ok sqlxDB =>
    cc <- context_WithCancel ;;
    let h := mkSqlite (Some sqlxDB) (Some (fst cc)) (Some (snd cc)) in
    SetMaxOpenConns sqlxDB 25 ;;;
    SetMaxIdleConns sqlxDB 25 ;;;
    SetConnMaxIdleTime sqlxDB (5 * minute) ;;;
    SetConnMaxLifetime sqlxDB (2 * hour) ;;;
    e1 <- db_Exec "PRAGMA journal_mode = wal;" ;;
    match e1 with
    | Some e => ret (None, Some (Errorf_w "enable wal: " e))
    | None =>
    e2 <- db_Exec "PRAGMA synchronous = NORMAL;" ;;
    match e2 with
    | Some e => ret (None, Some (Errorf_w "foreign keys pragma: " e))
    | None =>
    e3 <- db_Exec "PRAGMA foreign_keys = ON;" ;;
    match e3 with
    | Some e => ret (None, Some (Errorf_w "foreign keys pragma: " e))
    | None =>
    e4 <- db_Exec "PRAGMA busy_timeout = 5000;" ;;
    match e4 with
    | Some e => ret (None, Some (Errorf_w "foreign keys pragma: " e))
    | None =>
    v <- os_Getenv "LITESTREAM_ACCESS_KEY" ;;
    e5 <- (if negb (String.eqb v "")
           then db_Exec "PRAGMA wal_autocheckpoint = 0;"
           else ret None) ;;
    match e5 with
    | Some e => ret (None, Some (Errorf_w "foreign keys pragma: " e))
    | None =>
    e6 <- migrate ;;
    match e6 with
    | Some e => ret (None, Some (Errorf_w "migrate: " e))
    | None => ret (Some h, None)
    end end end end end end
  end.

Definition Close (h : option Sqlite) : World -> outcome (option error) * World :=
  fun w =>
    match h with
    | Some s =>
      match cancel s with
      | None => (Panicked, w)
      | Some c =>
        let (_, w1) := cancel_ctx c w in
        match db s with
        | None => (Panicked, w1)
        | Some p => let (r, w2) := sql_Close p w1 in (Returned r, w2)
        end
      end
    | None => (Returned None, w)
    end.

End Program.

(** ** Observations on runs *)

(** The library calls made between two worlds of one run. *)
Definition events (w w' : World) : list Call :=
  skipn (List.length (trace w)) (trace w').

(** The world after a per-script transaction is over: [ev] are the calls
    made, [d] the committed state and [out] the output it leaves. *)
Definition after (w : World) (ev : list Call) (d : DB) (out : list string) : World :=
  mkWorld (environ w) d None (pools w) (ctxs w) out (trace w ++ ev)%list.

(** The content [t] once the text [body] has been executed to its end on
    the application schema. *)
Definition extended (body : string) (t : DB) : DB :=
  mkDB (migrations t) (schema t ++ [Full body])%list (pragmas t).

(** The committed state once script [name] with content [body] is applied
    on top of [d], whose bookkeeping table holds [rows]. *)
Definition applied (name body : string) (rows : list string) (d : DB) : DB :=
  mkDB (Some (rows ++ [name])%list) (schema d ++ [Full body])%list (pragmas d).

(** The calls of one [migrateFile name], by how far it gets. *)
Definition ev_check (name : string) : list Call :=
  [CBegin; CQueryRow count_sql name; CRollback].
Definition ev_read (name : string) : list Call :=
  [CBegin; CQueryRow count_sql name; CReadFile name; CRollback].
Definition ev_body (name body : string) : list Call :=
  [CBegin; CQueryRow count_sql name; CReadFile name; CTxExec body []; CRollback].
Definition ev_insert (name body : string) : list Call :=
  [CBegin; CQueryRow count_sql name; CReadFile name; CTxExec body [];
   CTxExec insert_sql [name]; CRollback].
Definition ev_commit (name body : string) : list Call :=
  [CBegin; CQueryRow count_sql name; CReadFile name; CTxExec body [];
   CTxExec insert_sql [name]; CPrintf (success_message name); CCommit; CRollback].

(** Every way a call [migrateFile name] can go from [w], whatever the
    engine does with the script: the error it returns and the world it
    leaves.  [c] is the connection as the script leaves it, [c'] the
    connection once the record is inserted; what is committed at the end
    is what the connection holds as committed when the deferred rollback
    runs. *)
Inductive file_run (engine : Engine) (FS : list (string * string))
  (name : string) (w : World) : option error -> World -> Prop :=
| run_begin_failed e :
    file_run engine FS name w (Some e) (with_trace (trace w ++ [CBegin])%list w)
| run_check_failed e :
    file_run engine FS name w (Some e) (after w (ev_check name) (disk w) (stdout w))
| run_skipped rows :
    migrations (disk w) = Some rows -> In name rows ->
    file_run engine FS name w None (after w (ev_check name) (disk w) (stdout w))
| run_read_failed e rows :
    migrations (disk w) = Some rows -> ~ In name rows ->
    file_run engine FS name w (Some e) (after w (ev_read name) (disk w) (stdout w))
| run_body_failed e rows body c :
    migrations (disk w) = Some rows -> ~ In name rows ->
    lookup name FS = Some body ->
    c = in_tx (disk w) \/ engine body [] (in_tx (disk w)) = (c, Some e) ->
    file_run engine FS name w (Some e)
      (after w (ev_body name body) (fst c) (stdout w))
| run_insert_failed e rows body c :
    migrations (disk w) = Some rows -> ~ In name rows ->
    lookup name FS = Some body ->
    engine body [] (in_tx (disk w)) = (c, None) ->
    file_run engine FS name w (Some e)
      (after w (ev_insert name body) (fst c) (stdout w))
| run_commit_failed e rows body c c' :
    migrations (disk w) = Some rows -> ~ In name rows ->
    lookup name FS = Some body ->
    engine body [] (in_tx (disk w)) = (c, None) ->
    insert_record name c = (c', None) ->
    file_run engine FS name w (Some e)
      (after w (ev_commit name body) (fst c')
             (stdout w ++ [success_message name])%list)
| run_applied rows body c d t :
    migrations (disk w) = Some rows -> ~ In name rows ->
    lookup name FS = Some body ->
    engine body [] (in_tx (disk w)) = (c, None) ->
    insert_record name c = ((d, Some t), None) ->
    file_run engine FS name w None
      (after w (ev_commit name body) t
             (stdout w ++ [success_message name])%list).

(** A script that keeps to the application schema under [engine]: run in
    a transaction, it neither ends the transaction nor commits anything,
    and it leaves the bookkeeping table alone.  When it fails the
    transaction is still open; when it runs to its end, its effect on the
    working copy is the effect of the text. *)
Definition keeps_to_schema (engine : Engine) (body : string) : Prop :=
  forall d t,
    (exists t' e, engine body [] (d, Some t) = ((d, Some t'), Some e)) \/
    engine body [] (d, Some t) = ((d, Some (extended body t)), None).

(** A script that keeps to the application schema and which the engine
    itself never fails. *)
Definition runs_to_end (engine : Engine) (body : string) : Prop :=
  forall d t, engine body [] (d, Some t) = ((d, Some (extended body t)), None).

(** Every embedded script keeps to the application schema. *)
Definition scripts_behave (engine : Engine) (FS : list (string * string)) : Prop :=
  forall name body, lookup name FS = Some body -> keeps_to_schema engine body.

(** Every embedded script keeps to the application schema and runs to its
    end. *)
Definition scripts_run (engine : Engine) (FS : list (string * string)) : Prop :=
  forall name body, lookup name FS = Some body -> runs_to_end engine body.

(** Every way a call [migrateFile name] can go from [w] when the scripts
    keep to the application schema: nothing is committed, or the script
    and its record. *)
Inductive clean_run (FS : list (string * string)) (name : string) (w : World)
  : option error -> World -> Prop :=
| clean_begin_failed e :
    clean_run FS name w (Some e) (with_trace (trace w ++ [CBegin])%list w)
| clean_check_failed e :
    clean_run FS name w (Some e) (after w (ev_check name) (disk w) (stdout w))
| clean_skipped rows :
    migrations (disk w) = Some rows -> In name rows ->
    clean_run FS name w None (after w (ev_check name) (disk w) (stdout w))
| clean_read_failed e rows :
    migrations (disk w) = Some rows -> ~ In name rows ->
    clean_run FS name w (Some e) (after w (ev_read name) (disk w) (stdout w))
| clean_body_failed e rows body :
    migrations (disk w) = Some rows -> ~ In name rows ->
    lookup name FS = Some body ->
    clean_run FS name w (Some e) (after w (ev_body name body) (disk w) (stdout w))
| clean_insert_failed e rows body :
    migrations (disk w) = Some rows -> ~ In name rows ->
    lookup name FS = Some body ->
    clean_run FS name w (Some e) (after w (ev_insert name body) (disk w) (stdout w))
| clean_commit_failed e rows body :
    migrations (disk w) = Some rows -> ~ In name rows ->
    lookup name FS = Some body ->
    clean_run FS name w (Some e)
      (after w (ev_commit name body) (disk w)
             (stdout w ++ [success_message name])%list)
| clean_applied rows body :
    migrations (disk w) = Some rows -> ~ In name rows ->
    lookup name FS = Some body ->
    clean_run FS name w None
      (after w (ev_commit name body) (applied name body rows (disk w))
             (stdout w ++ [success_message name])%list).

(** The script a call works on, for the calls that name one. *)
Definition checked_script (c : Call) : option string :=
  match c with
  | CQueryRow _ name => Some name
  | _ => None
  end.

Definition read_script (c : Call) : option string :=
  match c with
  | CReadFile name => Some name
  | _ => None
  end.

Fixpoint filter_map {A B : Type} (f : A -> option B) (l : list A) : list B :=
  match l with
  | [] => []
  | x :: r =>
    match f x with
    | Some y => y :: filter_map f r
    | None => filter_map f r
    end
  end.

(** The scripts whose already-applied check was made, in order. *)
Definition checked (ev : list Call) : list string := filter_map checked_script ev.

(** The scripts whose content was read to be executed, in order. *)
Definition started (ev : list Call) : list string := filter_map read_script ev.

(** The commit of a transaction. *)
Definition is_commit (c : Call) : bool :=
  match c with
  | CCommit => true
  | _ => false
  end.

(** Calls that release what [New] acquired. *)
Definition is_release (c : Call) : bool :=
  match c with
  | CCancel _ | CClose _ => true
  | _ => false
  end.

(** [name] has a record in the bookkeeping table of [d]. *)
Definition recorded (name : string) (d : DB) : Prop :=
  exists rows, migrations d = Some rows /\ In name rows.

(** Every record of [d] is backed by the full effect of its script. *)
Definition consistent (FS : list (string * string)) (d : DB) : Prop :=
  forall name, recorded name d ->
    exists body, lookup name FS = Some body /\ In (Full body) (schema d).

(** Everything [migrate] can call. *)
Definition is_engine_call (c : Call) : bool :=
  match c with
  | CExec _ | CGlob _ | CBegin | CQueryRow _ _ | CReadFile _ | CTxExec _ _
  | CPrintf _ | CCommit | CRollback => true
  | _ => false
  end.

(** The calls of the per-script transactions. *)
Definition is_script_call (c : Call) : bool :=
  match c with
  | CBegin | CQueryRow _ _ | CReadFile _ | CTxExec _ _
  | CPrintf _ | CCommit | CRollback => true
  | _ => false
  end.

(** The calls of one [migrateFile name], whatever its outcome. *)
Definition file_events (FS : list (string * string)) (name : string)
  (ev : list Call) : Prop :=
  ev = [CBegin] \/ ev = ev_check name \/ ev = ev_read name \/
  exists body, lookup name FS = Some body /\
    (ev = ev_body name body \/ ev = ev_insert name body \/ ev = ev_commit name body).

(** The pool as [New] configures it, and the calls that set it up. *)
Definition configured_Pool : Pool := mkPool false 25 25 (5 * minute) (2 * hour).

(** The worlds the program can reach from a fresh database file: any
    sequence of calls, under any failures of the libraries, with SQL
    engines that satisfy [ok]. *)
Inductive reachable (ok : Engine -> Prop) (FS : list (string * string))
  (Quote : string -> string) : World -> Prop :=
| reach_initial env :
    reachable ok FS Quote (initial_World env)
| reach_New fault engine dsn w :
    ok engine -> reachable ok FS Quote w ->
    reachable ok FS Quote (snd (New fault engine FS Quote dsn w))
| reach_migrate fault engine w :
    ok engine -> reachable ok FS Quote w ->
    reachable ok FS Quote (snd (migrate fault engine FS Quote w))
| reach_migrateFile fault engine name w :
    ok engine -> reachable ok FS Quote w ->
    reachable ok FS Quote (snd (migrateFile fault engine FS name w))
| reach_Close fault h w :
    reachable ok FS Quote w ->
    reachable ok FS Quote (snd (Close fault h w)).

(** One [migrateFile] commits nothing, or the script together with its
    record. *)
Definition all_or_nothing (FS : list (string * string)) (name : string)
  (w w' : World) : Prop :=
  disk w' = disk w \/
  exists rows body,
    migrations (disk w) = Some rows /\ ~ In name rows /\
    lookup name FS = Some body /\
    disk w' = applied name body rows (disk w).

(** What the records of the bookkeeping table mean in the worlds reached
    with engines that satisfy [ok]: every record is backed by the
    committed effect of its script, and a further [migrateFile] commits
    nothing or a script together with its record. *)
Definition records_backed (ok : Engine -> Prop) (FS : list (string * string))
  (Quote : string -> string) : Prop :=
  forall w, reachable ok FS Quote w ->
    consistent FS (disk w) /\
    forall fault engine name, ok engine ->
      all_or_nothing FS name w (snd (migrateFile fault engine FS name w)).

Definition is_begin (c : Call) : bool :=
  match c with
  | CBegin => true
  | _ => false
  end.

Definition is_print (c : Call) : bool :=
  match c with
  | CPrintf _ => true
  | _ => false
  end.

(** A step of [migrateFile name] started in [w] returns the error [e],
    every step before it having gone through: beginning the transaction,
    the already-applied check, reading the script, executing it, inserting
    the record, or the commit.  The call that fails leaves the last
    world. *)
Inductive step_fails (fault : nat -> option error) (engine : Engine)
  (FS : list (string * string)) (name : string) (w : World) (e : error)
  : World -> Prop :=
| begin_fails w1 :
    db_Begin fault w = (Some e, w1) ->
    step_fails fault engine FS name w e w1
| check_fails w1 w2 :
    db_Begin fault w = (None, w1) ->
    tx_QueryRow_Scan fault count_sql name w1 = (Err e, w2) ->
    step_fails fault engine FS name w e w2
| read_fails w1 w2 w3 :
    db_Begin fault w = (None, w1) ->
    tx_QueryRow_Scan fault count_sql name w1 = (Ok 0%Z, w2) ->
    fs_ReadFile fault FS name w2 = (Err e, w3) ->
    step_fails fault engine FS name w e w3
| body_fails w1 w2 buf w3 w4 :
    db_Begin fault w = (None, w1) ->
    tx_QueryRow_Scan fault count_sql name w1 = (Ok 0%Z, w2) ->
    fs_ReadFile fault FS name w2 = (Ok buf, w3) ->
    tx_Exec fault engine buf [] w3 = (Some e, w4) ->
    step_fails fault engine FS name w e w4
| insert_fails w1 w2 buf w3 w4 w5 :
    db_Begin fault w = (None, w1) ->
    tx_QueryRow_Scan fault count_sql name w1 = (Ok 0%Z, w2) ->
    fs_ReadFile fault FS name w2 = (Ok buf, w3) ->
    tx_Exec fault engine buf [] w3 = (None, w4) ->
    tx_Exec fault engine insert_sql [name] w4 = (Some e, w5) ->
    step_fails fault engine FS name w e w5
| commit_fails w1 w2 buf w3 w4 w5 w6 :
    db_Begin fault w = (None, w1) ->
    tx_QueryRow_Scan fault count_sql name w1 = (Ok 0%Z, w2) ->
    fs_ReadFile fault FS name w2 = (Ok buf, w3) ->
    tx_Exec fault engine buf [] w3 = (None, w4) ->
    tx_Exec fault engine insert_sql [name] w4 = (None, w5) ->
    tx_Commit fault (snd (fmt_Printf (success_message name) w5)) = (Some e, w6) ->
    step_fails fault engine FS name w e w6.

(** How a run of the loop over [names] from [w] ended with error [e] in
    [w']: the scripts [done] went through, [name] failed with [inner], the
    scripts [rest] were never started.  [provided] is the condition under
    which the failing script is said to leave nothing behind: its
    transaction commits nothing, and the records of the scripts before
    it remain. *)
Definition aborted_at (provided : Prop) (fault : nat -> option error)
  (engine : Engine) (FS : list (string * string))
  (Quote : string -> string) (names : list string) (w : World)
  (e : error) (w' : World) : Prop :=
  exists done name rest inner w1,
    names = (done ++ name :: rest)%list /\
    migrate_loop fault engine FS Quote done w = (None, w1) /\
    migrateFile fault engine FS name w1 = (Some inner, w') /\
    e = migration_error Quote name inner /\
    Unwrap e = Some inner /\
    substring_of (Quote name) (Error e) /\
    (substring_of name (Quote name) -> substring_of name (Error e)) /\
    List.length (filter is_begin (events w w')) = S (List.length done) /\
    (forall m, In m (checked (events w w')) -> In m (done ++ [name])%list) /\
    (forall m, In m (started (events w w')) -> In m (done ++ [name])%list) /\
    (provided ->
     disk w' = disk w1 /\
     (forall m, In m done -> recorded m (disk w')) /\
     (forall m, recorded m (disk w) -> recorded m (disk w'))).

(** How a run of [migrate] from [w] that got as far as the loop ended with
    error [e] in [w']: the bootstrap and the enumeration went through and
    left [w0], and the loop over the sorted names was aborted from there. *)
Definition run_aborted (provided : Prop) (fault : nat -> option error)
  (engine : Engine) (FS : list (string * string))
  (Quote : string -> string) (w : World) (e : error) (w' : World) : Prop :=
  exists wa names w0,
    db_Exec fault create_migrations_sql w = (None, wa) /\
    fs_Glob fault FS "migration/*.sql" wa = (Ok names, w0) /\
    StronglySorted string_le (sort_Strings names) /\
    aborted_at provided fault engine FS Quote (sort_Strings names) w0 e w'.

(** What the failure of a script does to a run of [migrate] from [w].
    Whenever the run returns an error after it has begun a per-script
    transaction, it was aborted at a script as described by [run_aborted];
    and whenever a step of a script fails once the run has reached that
    script, the run returns the error of that step wrapped with the name
    of the script, and ends with the call that failed or with the
    deferred rollback after it. *)
Definition failure_contained (provided : Prop) (fault : nat -> option error)
  (engine : Engine) (FS : list (string * string))
  (Quote : string -> string) (w : World) : Prop :=
  (forall e w',
     migrate fault engine FS Quote w = (Some e, w') ->
     existsb is_begin (events w w') = true ->
     run_aborted provided fault engine FS Quote w e w') /\
  (forall wa wb names done name rest w1 inner w2,
     db_Exec fault create_migrations_sql w = (None, wa) ->
     fs_Glob fault FS "migration/*.sql" wa = (Ok names, wb) ->
     sort_Strings names = (done ++ name :: rest)%list ->
     migrate_loop fault engine FS Quote done wb = (None, w1) ->
     step_fails fault engine FS name w1 inner w2 ->
     exists w',
       migrate fault engine FS Quote w
       = (Some (migration_error Quote name inner), w') /\
       existsb is_begin (events w w') = true /\
       (w' = w2 \/ w' = snd (tx_Rollback w2))).

(** ** Example data *)

(** The three scripts of the ordering scenario, enumerated out of order;
    an oracle without failures and one that fails the [k]-th call; a
    [Quote] for names that need no escaping. *)
Definition example_FS : list (string * string) :=
  [("migration/0002_add_col.sql", "ALTER TABLE t ADD COLUMN v TEXT");
   ("migration/0010_later.sql", "CREATE TABLE u(id INTEGER)");
   ("migration/0001_init.sql", "CREATE TABLE t(id INTEGER)")].

Definition no_fault : nat -> option error := fun _ => None.

Definition fail_at (k : nat) : nat -> option error :=
  fun i => if Nat.eqb i k then Some (errors_New "disk I/O error") else None.

Definition double_quote : string := String (ascii_of_nat 34) EmptyString.

Definition quote_plain (s : string) : string := double_quote ++ s ++ double_quote.

(** The bookkeeping table exists and is empty; nothing else has happened. *)
Definition bootstrapped_World : World :=
  with_disk (mkDB (Some []) [] []) (initial_World []).

(** *** An SQL engine for the examples

    A small part of what SQLite does with the text of a script, enough to
    run the examples: the text is a sequence of statements separated by
    semicolons, executed one after the other until one fails; what the
    statements before the failing one did stays.  [COMMIT] ends the open
    transaction and installs its working copy; an insert into or a delete
    from the bookkeeping table changes its rows; a statement that begins
    with [CREATE TABLE] or [ALTER TABLE] is an effect on the application
    schema; anything else is a syntax error. *)

Fixpoint strip_prefix (p s : string) : option string :=
  match p, s with
  | EmptyString, _ => Some s
  | String a p', String b s' => if Ascii.eqb a b then strip_prefix p' s' else None
  | String _ _, EmptyString => None
  end.

Fixpoint rev_onto (s acc : string) : string :=
  match s with
  | EmptyString => acc
  | String a r => rev_onto r (String a acc)
  end.

Definition string_rev (s : string) : string := rev_onto s "".

(** [between p q s] is [Some x] when [s] is [p ++ x ++ q]. *)
Definition between (p q s : string) : option string :=
  match strip_prefix p s with
  | None => None
  | Some r => option_map string_rev (strip_prefix (string_rev q) (string_rev r))
  end.

Fixpoint trim_left (s : string) : string :=
  match s with
  | String a r =>
    if (Ascii.eqb a " " || Ascii.eqb a (ascii_of_nat 10))%bool then trim_left r else s
  | EmptyString => s
  end.

Fixpoint first_word (s : string) : string :=
  match s with
  | String a r => if Ascii.eqb a " " then "" else String a (first_word r)
  | EmptyString => ""
  end.

(** The statements of a text: [cur] is the statement read so far. *)
Fixpoint statements_from (cur s : string) : list string :=
  match s with
  | EmptyString => [cur]
  | String a r =>
    if Ascii.eqb a ";" then cur :: statements_from "" r
    else statements_from (cur ++ String a "") r
  end.

Definition statements (text : string) : list string :=
  filter (fun s => negb (String.eqb s ""))
         (map trim_left (statements_from "" text)).

Inductive Stmt : Type :=
| SCommit
| SInsert (name : string)
| SDelete (name : string)
| SDefine (text : string)
| SInvalid (text : string).

Definition parse (s : string) : Stmt :=
  if String.eqb s "COMMIT" then SCommit
  else
    match between "INSERT INTO migrations (name) VALUES ('" "')" s with
    | Some n => SInsert n
    | None =>
      match between "DELETE FROM migrations WHERE name = '" "'" s with
      | Some n => SDelete n
      | None =>
        if (String.prefix "CREATE TABLE " s || String.prefix "ALTER TABLE " s)%bool
        then SDefine s
        else SInvalid s
      end
    end.

Definition ErrSyntax (s : string) : error :=
  errors_New ("near " ++ double_quote ++ first_word s ++ double_quote
              ++ ": syntax error").

Definition delete_row (name : string) (d : DB) : result DB :=
  match migrations d with
  | None => Err ErrNoTable
  | Some rows =>
    Ok (mkDB (Some (filter (fun r => negb (String.eqb name r)) rows))
             (schema d) (pragmas d))
  end.

Definition run_stmt (st : Stmt) (c : Conn) : Conn * option error :=
  match st with
  | SCommit =>
    match snd c with
    | Some t => ((t, None), None)
    | None => (c, Some ErrNoTransaction)
    end
  | SInsert n => insert_record n c
  | SDelete n => on_seen (delete_row n) c
  | SDefine s => on_seen (fun d => Ok (extended s d)) c
  | SInvalid s => (c, Some (ErrSyntax s))
  end.

Fixpoint run_stmts (sts : list Stmt) (c : Conn) : Conn * option error :=
  match sts with
  | [] => (c, None)
  | st :: rest =>
    match run_stmt st c with
    | (c', None) => run_stmts rest c'
    | (c', Some e) => (c', Some e)
    end
  end.

Definition example_engine : Engine :=
  fun sql _ c => run_stmts (map parse (statements sql)) c.

(** Scripts that do not keep to the application schema: a script that
    writes the record of the script after it; a script that commits and
    then fails; a script that deletes the record of the script before it;
    a script that commits half-way. *)
Definition forged_FS : list (string * string) :=
  [("migration/0001_seed.sql",
    "INSERT INTO migrations (name) VALUES ('migration/0002_table.sql')");
   ("migration/0002_table.sql", "CREATE TABLE t(id INTEGER)")].

Definition committing_FS : list (string * string) :=
  [("migration/0001_init.sql", "CREATE TABLE t(id INTEGER)");
   ("migration/0002_bad.sql", "CREATE TABLE a(id INTEGER); COMMIT; THIS IS NOT SQL;")].

Definition erasing_FS : list (string * string) :=
  [("migration/0001_init.sql", "CREATE TABLE IF NOT EXISTS t(id INTEGER)");
   ("migration/0002_reset.sql",
    "DELETE FROM migrations WHERE name = 'migration/0001_init.sql'")].

Definition split_FS : list (string * string) :=
  [("migration/0001_split.sql", "CREATE TABLE a(id INTEGER); COMMIT; CREATE TABLE b(id INTEGER);")].

(** ** Properties of runs *)

(** The success message of [migrateFile name] and its commit, between
    [w] and [w'], when the call returned [r]: a commit or a message means
    the run ends with the message, then the commit, then the deferred
    rollback, with no other message or commit before; a commit after
    which the call returns an error leaves, under the condition
    [provided], the committed state as it was; a script that was not
    recorded and for which the call returns nil went through a commit. *)
Definition announced_before_commit (provided : Prop) (name : string)
  (w w' : World) (r : option error) : Prop :=
  let ev := events w w' in
  (existsb is_commit ev = true \/ existsb is_print ev = true ->
   exists pre,
     ev = (pre ++ [CPrintf (success_message name); CCommit; CRollback])%list /\
     forallb (fun c => negb (is_commit c || is_print c)) pre = true /\
     stdout w' = (stdout w ++ [success_message name])%list) /\
  (provided -> existsb is_commit ev = true -> r <> None -> disk w' = disk w) /\
  (r = None -> ~ recorded name (disk w) -> existsb is_commit ev = true).

(** The rows of the bookkeeping table; none when there is no table. *)
Definition rows_of (d : DB) : list string :=
  match migrations d with
  | Some rows => rows
  | None => []
  end.

(** The scripts of [names] that have no record among [rows]. *)
Definition outstanding (names rows : list string) : list string :=
  filter (fun n => negb (existsb (String.eqb n) rows)) names.

(** The full effects of the scripts [names], in that order. *)
Definition effects_of (FS : list (string * string)) (names : list string)
  : list effect :=
  filter_map (fun n => option_map Full (lookup n FS)) names.

(** The order in which [migrate] goes through the scripts of [FS] from
    [w]: the sorted names are a strictly ascending rearrangement of the
    enumerated ones; the already-applied checks follow a prefix of the
    sorted names, all of them when the run succeeds; the scripts whose
    content is executed come in strictly ascending order; the run is the
    same for every order of enumeration; a run that returns nil, the
    scripts keeping to the application schema, has executed exactly the
    scripts without a record, in ascending order of name, their effects
    being committed in that order; and the run does return nil when no
    library call fails and the scripts run to their end. *)
Definition in_name_order (fault : nat -> option error) (engine : Engine)
  (FS : list (string * string)) (Quote : string -> string) (w : World) : Prop :=
  let names := map fst FS in
  let run := migrate fault engine FS Quote w in
  let ev := events w (snd run) in
  let todo := outstanding (sort_Strings names) (rows_of (disk w)) in
  Permutation names (sort_Strings names) /\
  StronglySorted string_lt (sort_Strings names) /\
  (exists k, checked ev = firstn k (sort_Strings names)) /\
  (fst run = None -> checked ev = sort_Strings names) /\
  StronglySorted string_lt (started ev) /\
  (forall FS', Permutation FS FS' -> migrate fault engine FS' Quote w = run) /\
  (scripts_behave engine FS -> fst run = None ->
   started ev = todo /\
   schema (disk (snd run)) = (schema (disk w) ++ effects_of FS todo)%list) /\
  ((forall t, fault t = None) -> scripts_run engine FS -> fst run = None).

(** Calls by which [migrateFile] applies a script: reading it, executing
    SQL in the transaction, announcing it, committing. *)
Definition is_apply_call (c : Call) : bool :=
  match c with
  | CReadFile _ | CTxExec _ _ | CPrintf _ | CCommit => true
  | _ => false
  end.

(** The bookkeeping table exists in [d]. *)
Definition has_table (d : DB) : Prop := migrations d <> None.

(** Every script of [names] has its record in [d]. *)
Definition all_recorded (names : list string) (d : DB) : Prop :=
  exists rows, migrations d = Some rows /\ forall m, In m names -> In m rows.

(** A run of [migrate] on the committed state [d] changes nothing: under
    any failures and with any engine it leaves [d] and the output as they
    are and makes no call that applies a script; without failures it
    succeeds. *)
Definition rerun_is_noop (FS : list (string * string)) (Quote : string -> string)
  (d : DB) : Prop :=
  forall fault engine w,
    disk w = d ->
    let run := migrate fault engine FS Quote w in
    disk (snd run) = d /\
    stdout (snd run) = stdout w /\
    existsb is_apply_call (events w (snd run)) = false /\
    ((forall t, fault t = None) -> fst run = None).


(** What [New] leaves behind between [w] and [w'] when it gives up after
    the pool was opened: no handle is returned, the pool it opened is
    still open and its context is not cancelled, and neither was ever
    released. *)
Definition leaked (w : World) (h : option Sqlite) (w' : World) : Prop :=
  h = None /\
  pools w' = (pools w ++ [configured_Pool])%list /\
  nth_error (pools w') (List.length (pools w)) = Some configured_Pool /\
  closed configured_Pool = false /\
  ctxs w' = (ctxs w ++ [false])%list /\
  nth_error (ctxs w') (List.length (ctxs w)) = Some false /\
  existsb is_release (events w w') = false.

(** A handle that is nil, or whose pool and context exist in [w]. *)
Definition valid_handle (h : option Sqlite) (w : World) : Prop :=
  match h with
  | None => True
  | Some s =>
    exists p c, db s = Some p /\ cancel s = Some c /\
                p < List.length (pools w) /\ c < List.length (ctxs w)
  end.

(** [Close] called on [h] in [w], and then once more: on nil it returns
    nil and does nothing; otherwise the first call cancels the context,
    then closes the pool and returns what closing the pool returned, and
    the second call returns nil and changes neither pool, context nor
    database.  Neither call panics. *)
Definition closes_twice (fault1 fault2 : nat -> option error)
  (h : option Sqlite) (w : World) : Prop :=
  match h with
  | None => Close fault1 None w = (Returned None, w)
  | Some s =>
    exists p c r w1 w2,
      db s = Some p /\ cancel s = Some c /\
      Close fault1 h w = (Returned r, w1) /\
      events w w1 = [CCancel c; CClose p] /\
      (r, w1) = sql_Close fault1 p (snd (cancel_ctx c w)) /\
      nth_error (ctxs w1) c = Some true /\
      (exists q, nth_error (pools w1) p = Some q /\ closed q = true) /\
      Close fault2 h w1 = (Returned None, w2) /\
      pools w2 = pools w1 /\ ctxs w2 = ctxs w1 /\ disk w2 = disk w1
  end.

(** A computation that neither reads nor writes the process environment. *)
Definition env_blind {A : Type} (m : M A) : Prop :=
  forall v w, m (with_environ v w) = (fst (m w), with_environ v (snd (m w))).

(** The claim that construction does not depend on the ambient process
    environment: the same result and the same engine settings under any
    two environments. *)
Definition environment_independent : Prop :=
  forall fault engine FS Quote dsn w env1 env2,
    let run1 := New fault engine FS Quote dsn (with_environ env1 w) in
    let run2 := New fault engine FS Quote dsn (with_environ env2 w) in
    fst run1 = fst run2 /\
    pragmas (disk (snd run1)) = pragmas (disk (snd run2)).

(** Two environments in which the replication variable is both empty or
    both non-empty. *)
Definition same_replication_setting (env1 env2 : list (string * string)) : Prop :=
  String.eqb (getenv "LITESTREAM_ACCESS_KEY" env1) ""
  = String.eqb (getenv "LITESTREAM_ACCESS_KEY" env2) "".

(** Two runs of [New] that differ in nothing but the environment they
    carry. *)
Definition same_run_up_to_environ
  (run1 run2 : (option Sqlite * option error) * World) : Prop :=
  fst run1 = fst run2 /\
  with_environ [] (snd run1) = with_environ [] (snd run2).

(** The last library call made in [w]. *)
Definition last_call (w : World) : option Call :=
  last (map Some (trace w)) None.

(** The process environment of a deployment with replication. *)
Definition replicated_env : list (string * string) :=
  [("LITESTREAM_ACCESS_KEY", "key")].

(** ** Further observations on the database *)

(** A run of [migrate] from [w] that brings the database up to date: it
    returns nil, and it has executed, recorded and announced exactly the
    scripts that had no record, in ascending order of name, after those
    already there. *)
Definition brought_up_to_date (fault : nat -> option error) (engine : Engine)
  (FS : list (string * string)) (Quote : string -> string) (w : World) : Prop :=
  let run := migrate fault engine FS Quote w in
  let todo := outstanding (sort_Strings (map fst FS)) (rows_of (disk w)) in
  fst run = None /\
  disk (snd run)
  = mkDB (Some (rows_of (disk w) ++ todo)%list)
         (schema (disk w) ++ effects_of FS todo)%list
         (pragmas (disk w)) /\
  started (events w (snd run)) = todo /\
  stdout (snd run) = (stdout w ++ map success_message todo)%list.

(** [l'] is [l] with something appended. *)
Definition extended_by {A : Type} (l l' : list A) : Prop :=
  exists t, l' = (l ++ t)%list.

(** The committed state [d'] is [d] with rows, effects and settings
    appended: nothing of [d] is removed or changed. *)
Definition grown_from (d d' : DB) : Prop :=
  extended_by (rows_of d) (rows_of d') /\
  extended_by (schema d) (schema d') /\
  extended_by (pragmas d) (pragmas d') /\
  (migrations d <> None -> migrations d' <> None).

(** What a run that started in [w] and ended in [w'] with result [r] has
    announced: the scripts recorded by the run, in order, followed by at
    most one script that is not recorded, and then only if the run
    returned an error. *)
Definition announced_as_recorded (w w' : World) (r : option error) : Prop :=
  exists new extra,
    rows_of (disk w') = (rows_of (disk w) ++ new)%list /\
    stdout w' = (stdout w ++ map success_message (new ++ extra))%list /\
    (extra = [] \/ (exists n, extra = [n]) /\ r <> None).

(** The engine settings [New] applies, in order, under the environment
    [env]. *)
Definition New_pragmas (env : list (string * string)) : list string :=
  ["PRAGMA journal_mode = wal;"; "PRAGMA synchronous = NORMAL;";
   "PRAGMA foreign_keys = ON;"; "PRAGMA busy_timeout = 5000;"]
  ++ (if String.eqb (getenv "LITESTREAM_ACCESS_KEY" env) "" then []
      else ["PRAGMA wal_autocheckpoint = 0;"]).

(** The SQL texts run on the pool, in order. *)
Definition pool_statement (c : Call) : option string :=
  match c with
  | CExec sql => Some sql
  | _ => None
  end.

Definition pool_statements (ev : list Call) : list string :=
  filter_map pool_statement ev.

(** What holds when [New] has returned the handle [h], between [w] and
    [w']: the handle refers to the pool and context allocated by this
    call; the pool is open with its four limits set and the context is not
    cancelled; the statements run on the pool were the settings, in
    order, and then the bootstrap of the bookkeeping table; and, under the
    condition [provided], the settings of the file are those it had
    followed by the ones applied, and every embedded script is
    recorded. *)
Definition ready (provided : Prop) (FS : list (string * string)) (w : World)
  (h : Sqlite) (w' : World) : Prop :=
  h = mkSqlite (Some (List.length (pools w))) (Some (List.length (ctxs w)))
               (Some (List.length (ctxs w))) /\
  nth_error (pools w') (List.length (pools w)) = Some configured_Pool /\
  maxOpen configured_Pool = 25%Z /\ maxIdle configured_Pool = 25%Z /\
  maxIdleTime configured_Pool = 300000000000%Z /\
  maxLifetime configured_Pool = 7200000000000%Z /\
  nth_error (ctxs w') (List.length (ctxs w)) = Some false /\
  pool_statements (events w w')
  = (New_pragmas (environ w) ++ [create_migrations_sql])%list /\
  (provided ->
   pragmas (disk w') = (pragmas (disk w) ++ New_pragmas (environ w))%list /\
   all_recorded (sort_Strings (map fst FS)) (disk w')).

(** The errors [migrate] returns: the wrapped error of the bootstrap, the
    error of the enumeration as it is, or the error of a script of the
    embedded files, wrapped with the name of the script. *)
Definition migrate_error (fault : nat -> option error)
  (FS : list (string * string)) (Quote : string -> string) (e : error) : Prop :=
  (exists cause, e = Errorf_w "cannot create migrations table: " cause) \/
  (exists t, fault t = Some e) \/
  (exists name inner, In name (map fst FS) /\ e = migration_error Quote name inner).

(** The errors [New] returns from [w]: the error of the connection as it
    is, after which nothing else is done; or a wrapped error under one of
    three labels, the third one for the errors of [migrate]. *)
Definition New_error (fault : nat -> option error)
  (FS : list (string * string)) (Quote : string -> string) (dsn : string)
  (w : World) (e : error) (w' : World) : Prop :=
  match fault (List.length (trace w)) with
  | Some e0 =>
    e = e0 /\ w' = with_trace (trace w ++ [CConnect "sqlite3" dsn])%list w
  | None =>
    exists label cause,
      e = Errorf_w label cause /\ Unwrap e = Some cause /\
      Error e = label ++ Error cause /\
      (label = "enable wal: " \/ label = "foreign keys pragma: " \/
       (label = "migrate: " /\ migrate_error fault FS Quote cause))
  end.

(** ** The leveled logger (package leveledlog) *)

(** [Level] is an int8; the constants are numbered from [LevelAll]. *)
Definition Level : Type := Z.
Definition LevelAll : Level := 0%Z.
Definition LevelInfo : Level := 1%Z.
Definition LevelWarning : Level := 2%Z.
Definition LevelError : Level := 3%Z.
Definition LevelFatal : Level := 4%Z.
Definition LevelOff : Level := 5%Z.

(** [func (l Level) String() string]. *)
Definition Level_String (l : Level) : string :=
  if (l =? LevelInfo)%Z then "INFO"
  else if (l =? LevelWarning)%Z then "WARNING"
  else if (l =? LevelError)%Z then "ERROR"
  else if (l =? LevelFatal)%Z then "FATAL"
  else "".

(** An [io.Writer], by what its [Write] does to the world; the logger
    ignores what [Write] returns. *)
Definition Writer : Type := string -> World -> World.

(** [os.Stdout], the output [fmt.Printf] writes to as well. *)
Definition os_Stdout : Writer :=
  fun s w => with_stdout (stdout w ++ [s])%list w.

Record Logger : Type := mkLogger {
  out : Writer;
  minLevel : Level;
  useJSON : bool;
  colorize : bool
}.

Definition NewLogger (o : Writer) (m : Level) (c : bool) : Logger :=
  mkLogger o m false c.

Definition NewJSONLogger (o : Writer) (m : Level) : Logger :=
  mkLogger o m true false.

Section Logging.

(** [strconv.Quote], the [%q] verb. *)
Variable Quote : string -> string.

(** [time.Now().Format(time.RFC3339)] and
  [time.Now().UTC().Format(time.RFC3339)] at the moment of the call. *)
Variable time_Now : World -> string.
Variable time_Now_UTC : World -> string.

(** [string(debug.Stack())] at the moment of the call. *)
Variable debug_Stack : World -> string.

(** [json.Marshal] of the struct with the fields level, time, message
  and trace. *)
Variable json_Marshal : string -> string -> string -> string -> result string.

(** [fmt.Sprintf(format, v...)]. *)
Variable any : Type.
Variable fmt_Sprintf : string -> list any -> string.

Definition textLine (level : Level) (message : string) (c : bool)
: World -> string :=
fun w =>
  let line := "level=" ++ Quote (Level_String level)
              ++ " time=" ++ Quote (time_Now w)
              ++ " message=" ++ Quote message in
  if (level >=? LevelError)%Z then line ++ (LF ++ debug_Stack w)
  else line.

Definition jsonLine (level : Level) (message : string) : World -> string :=
fun w =>
  let tr := if (level >=? LevelError)%Z then debug_Stack w else "" in
  match json_Marshal (Level_String level) (time_Now_UTC w) message tr with
  | Ok line => line
  | Err err =>
    Level_String LevelError ++ ": unable to marshal log message: " ++ Error err
  end.

(** [func (l *Logger) print(level, message)]; [fmt.Fprintln] writes the
  line and a newline in one [Write]. *)
Definition Logger_print (l : Logger) (level : Level) (message : string)
: World -> World :=
fun w =>
  if (level <? minLevel l)%Z then w
  else
    let line := if useJSON l then jsonLine level message w
                else textLine level message (colorize l) w in
    out l (line ++ LF) w.

Definition Logger_Info (l : Logger) (format : string) (v : list any)
: World -> World :=
Logger_print l LevelInfo (fmt_Sprintf format v).

Definition Logger_Warning (l : Logger) (format : string) (v : list any)
: World -> World :=
Logger_print l LevelWarning (fmt_Sprintf format v).

Definition Logger_Error (l : Logger) (err : error) : World -> World :=
Logger_print l LevelError (Error err).

(** [Fatal] ends the process: the exit status of [os.Exit] and the world
  it leaves. *)
Definition Logger_Fatal (l : Logger) (err : error) : World -> Z * World :=
fun w => (1%Z, Logger_print l LevelFatal (Error err) w).

End Logging.

(** ** The command (cmd/api) *)

(** The flags of the command, as [flag.Parse] leaves them. *)
Record config : Type := mkConfig {
  addr : string;
  env : string;
  dbDSN : string
}.

Definition default_config : config :=
  mkConfig "localhost:4444" "development" "data/example.db".

(** How the process ends. *)
Inductive termination : Type :=
| Returns
| Exits (code : Z)
| Panics.

Section Command.

Variable fault : nat -> option error.
Variable engine : Engine.
Variable migrationFS : list (string * string).
Variable Quote : string -> string.
Variable time_Now : World -> string.
Variable time_Now_UTC : World -> string.
Variable debug_Stack : World -> string.
Variable json_Marshal : string -> string -> string -> string -> result string.
Variable fmt_Sprintf : string -> list string -> string.

(** [server.Run(addr, app.routes())]: the server of the repository, which
  is not among the sources; it blocks until the server stops. *)
Variable server_Run : string -> World -> option error * World.

Definition main (cfg : config) : World -> termination * World :=
fun w =>
  let logger := NewLogger os_Stdout LevelAll true in
  let fatal := Logger_Fatal Quote time_Now time_Now_UTC debug_Stack json_Marshal in
  let info := Logger_Info Quote time_Now time_Now_UTC debug_Stack json_Marshal
                          string fmt_Sprintf in
  match New fault engine migrationFS Quote (dbDSN cfg) w with
  | (_, Some err, w1) =>
    let (code, w2) := fatal logger err w1 in (Exits code, w2)
  | (h, None, w1) =>
    (* defer db.Close() *)
    let w2 := info logger "starting server on %s" [addr cfg] w1 in
    match server_Run (addr cfg) w2 with
    | (Some err, w3) =>
      let (code, w4) := fatal logger err w3 in (Exits code, w4)
    | (None, w3) =>
      let w4 := info logger "server stopped" [] w3 in
      match Close fault h w4 with
      | (Returned _, w5) => (Returns, w5)
      | (Panicked, w5) => (Panics, w5)
      end
    end
  end.

End Command.

(** A server that leaves the database, the pools and the contexts
    alone and makes no library call of the database layer. *)
Definition server_keeps_out (server_Run : string -> World -> option error * World)
  : Prop :=
  forall a w,
    let w' := snd (server_Run a w) in
    trace w' = trace w /\ pools w' = pools w /\ ctxs w' = ctxs w /\
    disk w' = disk w.

(** How [main] ends between [w] and [w'], by what it did with the pool:
    it never panics; when it exits the status is 1 and there was no call
    that cancels a context or closes a pool; when it returns, the last
    two calls cancelled the context and closed the pool that [New]
    created, which are the only such calls, and, under the condition
    [provided], every script is recorded. *)
Definition main_discipline (provided : Prop) (FS : list (string * string))
  (w : World) (t : termination) (w' : World) : Prop :=
  match t with
  | Panics => False
  | Exits code =>
    code = 1%Z /\ existsb is_release (events w w') = false
  | Returns =>
    (exists ev,
       events w w' = (ev ++ [CCancel (List.length (ctxs w));
                             CClose (List.length (pools w))])%list /\
       existsb is_release ev = false) /\
    (exists q, nth_error (pools w') (List.length (pools w)) = Some q /\
               closed q = true) /\
    nth_error (ctxs w') (List.length (ctxs w)) = Some true /\
    (provided -> all_recorded (sort_Strings (map fst FS)) (disk w'))
  end.

(** The line [main] writes before it exits on the error [e] in the
    world [w0]: a text line of level FATAL with the stack. *)
Definition fatal_line (Quote : string -> string) (time_Now debug_Stack : World -> string)
  (e : error) (w0 : World) : string :=
  "level=" ++ Quote "FATAL" ++ " time=" ++ Quote (time_Now w0)
  ++ " message=" ++ Quote (Error e) ++ LF ++ debug_Stack w0 ++ LF.

(** What [migrate] leaves alone between [w] and [w']: the process
    environment, the pools and the contexts; and every call it makes is a
    call of the migration engine. *)
Definition engine_only (w w' : World) : Prop :=
  environ w' = environ w /\ pools w' = pools w /\ ctxs w' = ctxs w /\
  forallb is_engine_call (events w w') = true /\
  existsb is_release (events w w') = false.

(** What [Close] of the handle with pool [p] and context [c] leaves alone
    between [w] and [w']: every other pool, every other context, the
    database and the output. *)
Definition others_untouched (p c : nat) (w w' : World) : Prop :=
  (forall p', p' <> p -> nth_error (pools w') p' = nth_error (pools w) p') /\
  (forall c', c' <> c -> nth_error (ctxs w') c' = nth_error (ctxs w) c') /\
  List.length (pools w') = List.length (pools w) /\
  List.length (ctxs w') = List.length (ctxs w) /\
  disk w' = disk w /\ stdout w' = stdout w /\ environ w' = environ w.

(** [migrateFile name] called on its own, when no library call fails:
    without the bookkeeping table it fails at the check; for a recorded
    script it returns nil after the check, without reading the script,
    also when the script is not embedded; for a name that is neither
    recorded nor that of an embedded file it fails at the read, with the
    path error of a directory or of a file that does not exist.  Nothing
    is committed or written in any of these cases. *)
Definition migrateFile_edges (fault : nat -> option error) (engine : Engine)
  (FS : list (string * string)) (name : string) (w : World) : Prop :=
  let run := migrateFile fault engine FS name w in
  (migrations (disk w) = None ->
   fst run = Some ErrNoTable /\ events w (snd run) = ev_check name) /\
  (recorded name (disk w) ->
   fst run = None /\ events w (snd run) = ev_check name) /\
  (has_table (disk w) -> ~ recorded name (disk w) -> lookup name FS = None ->
   fst run = Some (if is_directory FS name then ErrIsDirectory name
                   else ErrNotExist name) /\
   Unwrap (ErrNotExist name) = Some fs_ErrNotExist /\
   events w (snd run) = ev_read name) /\
  (migrations (disk w) = None \/ recorded name (disk w) \/ lookup name FS = None ->
   disk (snd run) = disk w /\ stdout (snd run) = stdout w).


(** What [migrateFile name] does between [w] and [w'], returning [r], to
    a script that has its record: the committed state and the output stay
    as they are, no call reads, executes, announces or commits anything,
    and the calls are the beginning of the transaction, the check and the
    rollback; it returns nil unless beginning the transaction or the
    check itself fails in the library. *)
Definition only_checked (fault : nat -> option error) (name : string)
  (w w' : World) (r : option error) : Prop :=
  disk w' = disk w /\ stdout w' = stdout w /\
  existsb is_apply_call (events w w') = false /\
  (events w w' = [CBegin] \/ events w w' = ev_check name) /\
  (fault (List.length (trace w)) = None ->
   fault (S (List.length (trace w))) = None ->
   r = None /\ events w w' = ev_check name).

(** * Proofs *)

(** ** Lists, strings and the order *)

Lemma count_rows_zero name rows :
  (count_rows name rows =? 0)%Z = true -> existsb (String.eqb name) rows = false.
Proof.
  unfold count_rows. induction rows as [|r rows IH]; simpl; [reflexivity|].
  destruct (String.eqb name r); simpl; [|exact IH].
  intros H. first [discriminate H | apply Z.eqb_eq in H; lia].
Qed.

Lemma existsb_eqb_In name rows :
  existsb (String.eqb name) rows = true <-> In name rows.
Proof.
  rewrite existsb_exists. split.
  - intros [x [Hin Heq]]. apply String.eqb_eq in Heq. now subst.
  - intros Hin. exists name. split; [assumption | apply String.eqb_refl].
Qed.

Lemma count_rows_zero_iff name rows :
  (count_rows name rows =? 0)%Z = true <-> ~ In name rows.
Proof.
  split.
  - intros H Hin. apply count_rows_zero in H.
    apply existsb_eqb_In in Hin. congruence.
  - unfold count_rows. induction rows as [|r rows IH]; simpl; [reflexivity|].
    intros Hn. destruct (String.eqb_spec name r) as [->|Hne].
    + exfalso. apply Hn. now left.
    + apply IH. intros Hin. apply Hn. now right.
Qed.

(** ** Running computations *)

Lemma bind_run {A B : Type} (m : M A) (k : A -> M B) (w : World) :
  bind m k w = k (fst (m w)) (snd (m w)).
Proof. unfold bind. now destruct (m w). Qed.

Lemma bind_eq {A B : Type} (m : M A) (k : A -> M B) (w : World) (a : A) (w1 : World) :
  m w = (a, w1) -> bind m k w = k a w1.
Proof. intros H. unfold bind. now rewrite H. Qed.

Lemma tx_Rollback_run w :
  tx_Rollback w = (tt, with_txn None (with_trace (trace w ++ [CRollback])%list w)).
Proof. reflexivity. Qed.

Lemma fmt_Printf_run text w :
  fmt_Printf text w
  = (tt, with_stdout (stdout w ++ [text])%list
           (with_trace (trace w ++ [CPrintf text])%list w)).
Proof. reflexivity. Qed.

(** Worlds are kept as explicit records while a run is followed. *)
Ltac norm_world :=
  unfold with_trace, with_txn, with_disk, with_stdout, with_pools, with_ctxs,
    with_environ;
  cbn [environ disk txn pools ctxs stdout trace fst snd].

Ltac step := cbn [negb]; cbv beta iota; norm_world.

Ltac settle target :=
  match goal with
  | |- file_run _ _ _ _ _ ?X =>
    replace X with target
      by (rewrite ?tx_Rollback_run; unfold after, applied; norm_world;
          rewrite <- ?app_assoc; reflexivity)
  end.

Section Primitives.
Variable fault : nat -> option error.
Variable engine : Engine.
Variable FS : list (string * string).

Lemma db_Begin_cases w :
  (exists e, db_Begin fault w = (Some e, with_trace (trace w ++ [CBegin])%list w))
  \/ db_Begin fault w
     = (None, with_txn (Some (disk w)) (with_trace (trace w ++ [CBegin])%list w)).
Proof.
  unfold db_Begin, bind, call, modify, ret.
  destruct (fault (List.length (trace w))); [left; eauto | right; reflexivity].
Qed.

Lemma tx_QueryRow_Scan_cases sql arg w :
  (exists e, tx_QueryRow_Scan fault sql arg w
             = (Err e, with_trace (trace w ++ [CQueryRow sql arg])%list w))
  \/ (exists rows, migrations (seen (disk w, txn w)) = Some rows /\
        tx_QueryRow_Scan fault sql arg w
        = (Ok (count_rows arg rows),
           with_trace (trace w ++ [CQueryRow sql arg])%list w)).
Proof.
  unfold tx_QueryRow_Scan, bind, call, ret.
  destruct (fault (List.length (trace w))); [left; eauto|].
  norm_world.
  destruct (migrations (seen (disk w, txn w))) as [rows|] eqn:Hm; [|left; eauto].
  right. exists rows. auto.
Qed.

Lemma fs_ReadFile_cases name w :
  (exists e, fs_ReadFile fault FS name w
             = (Err e, with_trace (trace w ++ [CReadFile name])%list w))
  \/ (exists body, lookup name FS = Some body /\
        fs_ReadFile fault FS name w
        = (Ok body, with_trace (trace w ++ [CReadFile name])%list w)).
Proof.
  unfold fs_ReadFile, bind, call, ret.
  destruct (fault (List.length (trace w))); [left; eauto|].
  destruct (lookup name FS) as [body|]; [right; eauto|].
  destruct (is_directory FS name); left; eauto.
Qed.

(** A text sent through [tx.Exec] fails in the library, and then nothing
    has happened, or it is run on the connection. *)
Lemma tx_Exec_cases sql args w :
  (exists e, tx_Exec fault engine sql args w
             = (Some e, with_trace (trace w ++ [CTxExec sql args])%list w))
  \/ (exists c r, statement engine sql args (disk w, txn w) = (c, r) /\
        tx_Exec fault engine sql args w
        = (r, with_txn (snd c) (with_disk (fst c)
                 (with_trace (trace w ++ [CTxExec sql args])%list w)))).
Proof.
  unfold tx_Exec, bind, call, ret.
  destruct (fault (List.length (trace w))); [left; eauto|].
  right. norm_world.
  destruct (statement engine sql args (disk w, txn w)) as [c r].
  exists c, r. split; reflexivity.
Qed.

(** A commit fails and leaves the committed content as it is, the
    transaction being over; or it installs the working copy. *)
Lemma tx_Commit_cases w :
  (exists e, tx_Commit fault w
             = (Some e, with_txn None (with_trace (trace w ++ [CCommit])%list w)))
  \/ (exists t, txn w = Some t /\
        tx_Commit fault w
        = (None, with_txn None (with_disk t (with_trace (trace w ++ [CCommit])%list w)))).
Proof.
  unfold tx_Commit, bind, call. norm_world.
  destruct (txn w) as [t|] eqn:Ht.
  - destruct (fault (List.length (trace w))); [left | right]; eauto.
  - left. destruct (fault (List.length (trace w))) as [e|];
      [exists e | exists ErrNoTransaction];
      f_equal; destruct w; simpl in *; subst; reflexivity.
Qed.

Lemma db_Exec_cases sql w :
  (exists e, db_Exec fault sql w = (Some e, with_trace (trace w ++ [CExec sql])%list w))
  \/ (fault (List.length (trace w)) = None /\
      db_Exec fault sql w
      = (None, with_disk (exec_autocommit sql (disk w))
                 (with_trace (trace w ++ [CExec sql])%list w))).
Proof.
  unfold db_Exec, bind, call, modify, ret.
  destruct (fault (List.length (trace w))); [left; eauto | right; auto].
Qed.

(** A bookkeeping insert that succeeds leaves a transaction open only if
    one was open, and a statement that fails leaves the connection as
    it is. *)
Lemma on_seen_failed f c c' e : on_seen f c = (c', Some e) -> c' = c.
Proof.
  unfold on_seen. destruct (f (seen c)); intros H; [discriminate H|].
  now injection H as <- _.
Qed.

(** The complete case analysis of one [migrateFile]. *)
Lemma migrateFile_run name w :
  file_run engine FS name w (fst (migrateFile fault engine FS name w))
                            (snd (migrateFile fault engine FS name w)).
Proof.
  unfold migrateFile.
  destruct (db_Begin_cases w) as [[e E]|E]; rewrite (bind_eq _ _ _ _ _ E).
  { apply run_begin_failed. }
  unfold defer, bind, ret.
  match goal with |- context [tx_QueryRow_Scan fault count_sql name ?w1] =>
    destruct (tx_QueryRow_Scan_cases count_sql name w1)
      as [[e Hq]|[rows [Hm Hq]]]
  end; rewrite Hq; step.
  { settle (after w (ev_check name) (disk w) (stdout w)). apply run_check_failed. }
  cbn [seen snd fst disk txn with_txn with_trace] in Hm.
  destruct (count_rows name rows =? 0)%Z eqn:Hc; step.
  2:{ settle (after w (ev_check name) (disk w) (stdout w)).
      apply run_skipped with rows; auto.
      destruct (in_dec string_dec name rows) as [Hin|Hn]; [assumption|].
      apply count_rows_zero_iff in Hn. congruence. }
  assert (Hnot : ~ In name rows) by (now apply count_rows_zero_iff).
  match goal with |- context [fs_ReadFile fault FS name ?w1] =>
    destruct (fs_ReadFile_cases name w1) as [[e Hr]|[body [Hl Hr]]]
  end; rewrite Hr; step.
  { settle (after w (ev_read name) (disk w) (stdout w)).
    apply run_read_failed with rows; auto. }
  match goal with |- context [tx_Exec fault engine body [] ?w1] =>
    destruct (tx_Exec_cases body [] w1) as [[e Hx]|[c [r [Hs Hx]]]]
  end; rewrite Hx; step.
  { settle (after w (ev_body name body) (fst (in_tx (disk w))) (stdout w)).
    apply run_body_failed with rows; auto. }
  cbn [statement disk txn with_txn with_trace] in Hs. fold (in_tx (disk w)) in Hs.
  destruct r as [e|]; step.
  { settle (after w (ev_body name body) (fst c) (stdout w)).
    apply run_body_failed with rows; auto. }
  match goal with |- context [tx_Exec fault engine insert_sql [name] ?w1] =>
    destruct (tx_Exec_cases insert_sql [name] w1) as [[e Hx2]|[c' [r [Hs2 Hx2]]]]
  end; rewrite Hx2; step.
  { settle (after w (ev_insert name body) (fst c) (stdout w)).
    apply run_insert_failed with rows; auto. }
  unfold statement in Hs2. rewrite String.eqb_refl in Hs2.
  cbn [disk txn with_txn with_disk with_trace] in Hs2.
  rewrite <- surjective_pairing in Hs2.
  destruct r as [e|]; step.
  { rewrite (on_seen_failed _ _ _ _ Hs2).
    settle (after w (ev_insert name body) (fst c) (stdout w)).
    apply run_insert_failed with rows; auto. }
  rewrite fmt_Printf_run; step.
  match goal with |- context [tx_Commit fault ?w1] =>
    destruct (tx_Commit_cases w1) as [[e Hk]|[t [Ht Hk]]]
  end; rewrite Hk; step.
  { settle (after w (ev_commit name body) (fst c')
                  (stdout w ++ [success_message name])%list).
    eapply run_commit_failed; eauto. }
  cbn [txn] in Ht.
  settle (after w (ev_commit name body) t
                (stdout w ++ [success_message name])%list).
  eapply run_applied; eauto.
  rewrite <- Ht, <- surjective_pairing. exact Hs2.
Qed.

(** With scripts that keep to the application schema every run is a
    clean run. *)
Lemma file_run_clean name w r w' :
  scripts_behave engine FS ->
  file_run engine FS name w r w' -> clean_run FS name w r w'.
Proof.
  intros Hb R.
  assert (Hins : forall rows body,
            migrations (disk w) = Some rows -> ~ In name rows ->
            insert_record name (disk w, Some (extended body (disk w)))
            = ((disk w, Some (applied name body rows (disk w))), None)).
  { intros rows body Hm Hn. unfold insert_record, on_seen, insert_row.
    cbn [seen snd fst extended migrations schema pragmas]. rewrite Hm.
    destruct (existsb (String.eqb name) rows) eqn:E;
      [apply existsb_eqb_In in E; contradiction | reflexivity]. }
  inversion R as
    [ e | e | rows Hm Hin | e rows Hm Hn
    | e rows body c Hm Hn Hl Hc
    | e rows body c Hm Hn Hl Hc
    | e rows body c c' Hm Hn Hl Hc Hi
    | rows body c d t Hm Hn Hl Hc Hi ]; subst.
  - apply clean_begin_failed.
  - apply clean_check_failed.
  - now apply clean_skipped with rows.
  - now apply clean_read_failed with rows.
  - assert (Hd : fst c = disk w).
    { destruct Hc as [->|Hc]; [reflexivity|].
      destruct (Hb name body Hl (disk w) (disk w)) as [[t' [e' H]]|H];
        unfold in_tx in Hc; rewrite H in Hc; [|discriminate Hc].
      now injection Hc as <- _. }
    rewrite Hd. now apply clean_body_failed with rows.
  - assert (Hd : fst c = disk w).
    { destruct (Hb name body Hl (disk w) (disk w)) as [[t' [e' H]]|H];
        unfold in_tx in Hc; rewrite H in Hc; [discriminate Hc|].
      now injection Hc as <-. }
    rewrite Hd. now apply clean_insert_failed with rows.
  - assert (Hd : fst c' = disk w).
    { destruct (Hb name body Hl (disk w) (disk w)) as [[t' [e' H]]|H];
        unfold in_tx in Hc; rewrite H in Hc; [discriminate Hc|].
      injection Hc as <-. rewrite (Hins rows body Hm Hn) in Hi.
      now injection Hi as <-. }
    rewrite Hd. now apply clean_commit_failed with rows.
  - assert (Hd : t = applied name body rows (disk w)).
    { destruct (Hb name body Hl (disk w) (disk w)) as [[t' [e' H]]|H];
        unfold in_tx in Hc; rewrite H in Hc; [discriminate Hc|].
      injection Hc as <-. rewrite (Hins rows body Hm Hn) in Hi.
      now injection Hi as _ <-. }
    rewrite Hd. now apply clean_applied.
Qed.

Lemma migrateFile_clean name w :
  scripts_behave engine FS ->
  clean_run FS name w (fst (migrateFile fault engine FS name w))
                      (snd (migrateFile fault engine FS name w)).
Proof. intros Hb. apply file_run_clean; [exact Hb | apply migrateFile_run]. Qed.

End Primitives.

(** ** What one [migrateFile] leaves behind *)

Section Engine.
Variable engine : Engine.
Variable FS : list (string * string).
Variable Quote : string -> string.

(** *** With any engine *)

(** A run that returns nil leaves the script recorded. *)
Lemma file_run_success name w w' :
  file_run engine FS name w None w' -> recorded name (disk w').
Proof.
  intros R.
  inversion R as
    [ | | rows Hm Hin | | | |
    | rows body c d t Hm Hn Hl Hc Hi ]; subst; cbn [after disk].
  - exists rows. auto.
  - unfold insert_record, on_seen, insert_row in Hi.
    destruct (migrations (seen c)) as [rows'|] eqn:Hs; [|discriminate Hi].
    destruct (existsb (String.eqb name) rows'); [discriminate Hi|].
    destruct (snd c); [|discriminate Hi]. injection Hi as _ <-.
    exists (rows' ++ [name])%list. split; [reflexivity|].
    apply in_or_app. right. now left.
Qed.

Lemma file_run_frame name w r w' :
  file_run engine FS name w r w' ->
  environ w' = environ w /\ pools w' = pools w /\ ctxs w' = ctxs w.
Proof. intros R. inversion R; subst; simpl; auto. Qed.

Lemma file_run_trace name w r w' :
  file_run engine FS name w r w' ->
  exists ev, trace w' = (trace w ++ ev)%list /\ file_events FS name ev.
Proof.
  unfold file_events.
  intros R. inversion R; subst; simpl; eexists; (split; [reflexivity|]); eauto 8.
Qed.

Lemma file_run_txn name w r w' :
  file_run engine FS name w r w' -> txn w = None -> txn w' = None.
Proof. intros R H. inversion R; subst; simpl; auto. Qed.

(** A script that is recorded is only checked. *)
Lemma file_run_recorded name w r w' rows :
  file_run engine FS name w r w' ->
  migrations (disk w) = Some rows -> In name rows ->
  disk w' = disk w /\ stdout w' = stdout w /\
  exists ev, trace w' = (trace w ++ ev)%list /\
             existsb is_apply_call ev = false.
Proof.
  intros R Hm Hin.
  inversion R; subst; cbn [after disk stdout trace with_trace];
    try (match goal with
         | Hm' : migrations (disk w) = Some ?rs, Hn : ~ In name ?rs |- _ =>
           rewrite Hm in Hm'; injection Hm' as <-; contradiction
         end);
    repeat split; eexists; split; reflexivity.
Qed.

(** *** With scripts that keep to the application schema *)

(** A run that returns an error leaves the committed state untouched. *)
Lemma clean_run_error name w e w' :
  clean_run FS name w (Some e) w' -> disk w' = disk w.
Proof. intros R. inversion R; subst; reflexivity. Qed.

(** Either nothing is committed, or the script and its record are
    committed together. *)
Lemma clean_run_atomic name w r w' :
  clean_run FS name w r w' ->
  disk w' = disk w \/
  exists rows body,
    migrations (disk w) = Some rows /\ ~ In name rows /\
    lookup name FS = Some body /\ r = None /\
    disk w' = applied name body rows (disk w).
Proof.
  intros R. inversion R; subst; simpl; auto.
  right. exists rows, body. auto.
Qed.

Lemma recorded_applied n name body rows d :
  migrations d = Some rows ->
  recorded n d -> recorded n (applied name body rows d).
Proof.
  intros Hm [rows' [Hm' Hin]]. rewrite Hm in Hm'. injection Hm' as <-.
  exists (rows ++ [name])%list. split; [reflexivity|].
  apply in_or_app. now left.
Qed.

Lemma clean_run_keeps_records n name w r w' :
  clean_run FS name w r w' -> recorded n (disk w) -> recorded n (disk w').
Proof.
  intros R H. destruct (clean_run_atomic _ _ _ _ R) as [->|[rows [body [Hm [_ [_ [_ ->]]]]]]].
  - assumption.
  - now apply recorded_applied.
Qed.

Lemma consistent_applied name body rows d :
  migrations d = Some rows -> lookup name FS = Some body ->
  consistent FS d -> consistent FS (applied name body rows d).
Proof.
  intros Hm Hl Hc n [rows' [Hm' Hin]]. simpl in Hm'. injection Hm' as <-.
  apply in_app_or in Hin. destruct Hin as [Hin|[<-|[]]].
  - destruct (Hc n) as [b [Hb Hs]]; [exists rows; auto|].
    exists b. split; [assumption|]. simpl. apply in_or_app. now left.
  - exists body. split; [assumption|]. simpl. apply in_or_app. right. now left.
Qed.

Lemma consistent_exec_autocommit sql d :
  consistent FS d -> consistent FS (exec_autocommit sql d).
Proof.
  intros Hc. unfold exec_autocommit.
  destruct (String.eqb sql create_migrations_sql).
  - destruct (migrations d) eqn:Hm; [assumption|].
    intros n [rows [Hr Hin]]. simpl in Hr. injection Hr as <-. destruct Hin.
  - destruct (String.prefix "PRAGMA" sql); intros n [rows [Hr Hin]]; simpl in *;
      (destruct (Hc n) as [b [Hb Hs]]; [exists rows; auto|]);
      exists b; (split; [assumption|]); auto.
    apply in_or_app. now left.
Qed.

(** *** Invariants of the committed state along a run *)

Section DiskInvariant.
Variable P : DB -> Prop.
Hypothesis P_exec : forall sql d, P d -> P (exec_autocommit sql d).
Hypothesis P_file : forall fault name w,
  P (disk w) -> P (disk (snd (migrateFile fault engine FS name w))).

Lemma migrate_loop_invariant fault names w :
  P (disk w) -> P (disk (snd (migrate_loop fault engine FS Quote names w))).
Proof.
  revert w. induction names as [|name rest IH]; intros w H; simpl; [assumption|].
  rewrite bind_run.
  pose proof (P_file fault name w H) as R.
  destruct (fst (migrateFile fault engine FS name w)) as [e|].
  - simpl. exact R.
  - apply IH. exact R.
Qed.

Lemma migrate_invariant fault w :
  P (disk w) -> P (disk (snd (migrate fault engine FS Quote w))).
Proof.
  intros H. unfold migrate. rewrite bind_run.
  destruct (db_Exec_cases fault create_migrations_sql w) as [[e E]|[_ E]];
    rewrite E; simpl; [assumption|].
  unfold fs_Glob, call, ret. rewrite !bind_run. simpl.
  destruct (fault _); simpl; [now apply P_exec|].
  apply migrate_loop_invariant. simpl. now apply P_exec.
Qed.
End DiskInvariant.

(** With scripts that keep to the application schema, what is kept by
    applying a script is kept by [migrateFile]. *)
Lemma clean_run_invariant (P : DB -> Prop) :
  scripts_behave engine FS ->
  (forall name body rows d,
     migrations d = Some rows -> ~ In name rows -> lookup name FS = Some body ->
     P d -> P (applied name body rows d)) ->
  forall fault name w,
    P (disk w) -> P (disk (snd (migrateFile fault engine FS name w))).
Proof.
  intros Hb P_applied fault name w H.
  destruct (clean_run_atomic _ _ _ _ (migrateFile_clean fault engine FS name w Hb))
    as [->|[rows [body [Hm [Hn [Hl [_ ->]]]]]]];
    [assumption | now apply P_applied].
Qed.

End Engine.

(** ** Construction *)

Lemma update_nth_last {A : Type} (f : A -> A) (l : list A) (x : A) :
  update_nth (List.length l) f (l ++ [x])%list = (l ++ [f x])%list.
Proof. induction l as [|y l IH]; simpl; [reflexivity | now rewrite IH]. Qed.

Lemma forallb_app_true {A : Type} (f : A -> bool) (l1 l2 : list A) :
  forallb f l1 = true -> forallb f l2 = true -> forallb f (l1 ++ l2)%list = true.
Proof. intros H1 H2. rewrite forallb_app, H1, H2. reflexivity. Qed.


Lemma sqlx_Connect_cases fault driver dsn w :
  (exists e, fault (List.length (trace w)) = Some e /\
     sqlx_Connect fault driver dsn w
     = (Err e, with_trace (trace w ++ [CConnect driver dsn])%list w))
  \/ (fault (List.length (trace w)) = None /\
      sqlx_Connect fault driver dsn w
      = (Ok (List.length (pools w)),
         with_pools (pools w ++ [default_Pool])%list
           (with_trace (trace w ++ [CConnect driver dsn])%list w))).
Proof.
  unfold sqlx_Connect, bind, call, ret.
  destruct (fault (List.length (trace w))); [left; eauto | right; auto].
Qed.

Lemma context_WithCancel_run w :
  context_WithCancel w
  = ((List.length (ctxs w), List.length (ctxs w)),
     with_ctxs (ctxs w ++ [false])%list (with_trace (trace w ++ [CWithCancel])%list w)).
Proof. reflexivity. Qed.

Lemma SetMaxOpenConns_run p n w :
  SetMaxOpenConns p n w
  = (tt, with_pools
           (update_nth p (fun q => mkPool (closed q) n (maxIdle q) (maxIdleTime q)
                                          (maxLifetime q)) (pools w))
           (with_trace (trace w ++ [CSetMaxOpenConns p n])%list w)).
Proof. reflexivity. Qed.

Lemma SetMaxIdleConns_run p n w :
  SetMaxIdleConns p n w
  = (tt, with_pools
           (update_nth p (fun q => mkPool (closed q) (maxOpen q) n (maxIdleTime q)
                                          (maxLifetime q)) (pools w))
           (with_trace (trace w ++ [CSetMaxIdleConns p n])%list w)).
Proof. reflexivity. Qed.

Lemma SetConnMaxIdleTime_run p d w :
  SetConnMaxIdleTime p d w
  = (tt, with_pools
           (update_nth p (fun q => mkPool (closed q) (maxOpen q) (maxIdle q) d
                                          (maxLifetime q)) (pools w))
           (with_trace (trace w ++ [CSetConnMaxIdleTime p d])%list w)).
Proof. reflexivity. Qed.

Lemma SetConnMaxLifetime_run p d w :
  SetConnMaxLifetime p d w
  = (tt, with_pools
           (update_nth p (fun q => mkPool (closed q) (maxOpen q) (maxIdle q)
                                          (maxIdleTime q) d) (pools w))
           (with_trace (trace w ++ [CSetConnMaxLifetime p d])%list w)).
Proof. reflexivity. Qed.

Lemma os_Getenv_run key w :
  os_Getenv key w
  = (getenv key (environ w), with_trace (trace w ++ [CGetenv key])%list w).
Proof. reflexivity. Qed.

Section Construction.
Variable engine : Engine.
Variable FS : list (string * string).
Variable Quote : string -> string.

(** Everything [migrateFile] calls. *)
Lemma file_events_script name ev :
  file_events FS name ev -> forallb is_script_call ev = true.
Proof.
  unfold file_events.
  intros [-> | [-> | [-> | [body [_ [-> | [-> | ->]]]]]]]; reflexivity.
Qed.

Lemma script_call_engine ev :
  forallb is_script_call ev = true -> forallb is_engine_call ev = true.
Proof.
  rewrite !forallb_forall. intros H c Hin. specialize (H c Hin).
  destruct c; simpl in *; auto.
Qed.

Lemma migrate_loop_frame fault names w :
  let w' := snd (migrate_loop fault engine FS Quote names w) in
  environ w' = environ w /\ pools w' = pools w /\ ctxs w' = ctxs w /\
  exists ev, trace w' = (trace w ++ ev)%list /\ forallb is_script_call ev = true.
Proof.
  revert w. induction names as [|name rest IH]; intros w; simpl.
  - repeat split; auto. exists []. now rewrite app_nil_r.
  - rewrite bind_run.
    pose proof (migrateFile_run fault engine FS name w) as R.
    destruct (file_run_frame _ _ _ _ _ _ R) as [He [Hp Hc]].
    destruct (file_run_trace _ _ _ _ _ _ R) as [ev [Ht Hev]].
    apply file_events_script in Hev.
    destruct (fst (migrateFile fault engine FS name w)) as [e|]; simpl.
    + repeat split; eauto.
    + destruct (IH (snd (migrateFile fault engine FS name w)))
        as [He' [Hp' [Hc' [ev' [Ht' Hev']]]]].
      repeat split; try congruence.
      exists (ev ++ ev')%list. split.
      * rewrite Ht', Ht, app_assoc. reflexivity.
      * now apply forallb_app_true.
Qed.

(** The calls of a run of [migrate]: the bootstrap, then the
    enumeration, then calls of per-script transactions; nothing follows
    a bootstrap that failed. *)
Lemma migrate_shape fault w :
  let w' := snd (migrate fault engine FS Quote w) in
  environ w' = environ w /\ pools w' = pools w /\ ctxs w' = ctxs w /\
  exists ev, trace w' = (trace w ++ CExec create_migrations_sql :: ev)%list /\
    (ev = [] \/
     exists ev', ev = CGlob "migration/*.sql" :: ev' /\
                 forallb is_script_call ev' = true) /\
    (ev <> [] -> fst (db_Exec fault create_migrations_sql w) = None).
Proof.
  unfold migrate. rewrite bind_run.
  destruct (db_Exec_cases fault create_migrations_sql w) as [[e E]|[_ E]];
    rewrite E; simpl.
  { repeat split; auto. exists []. split; [reflexivity|]. split; [now left|].
    intros H. now elim H. }
  unfold fs_Glob, call, ret. rewrite !bind_run. simpl.
  destruct (fault _); simpl.
  { repeat split; auto. exists [CGlob "migration/*.sql"].
    split; [now rewrite <- app_assoc|]. split; [|reflexivity].
    right. exists []. split; reflexivity. }
  match goal with |- context [migrate_loop fault engine FS Quote ?ns ?w1] =>
    destruct (migrate_loop_frame fault ns w1) as [He [Hp [Hc [ev [Ht Hev]]]]]
  end.
  simpl in *. repeat split; auto.
  exists (CGlob "migration/*.sql" :: ev).
  split; [rewrite Ht, <- !app_assoc; reflexivity|]. split; [|reflexivity].
  right. exists ev. split; [reflexivity | exact Hev].
Qed.

Lemma migrate_frame fault w :
  let w' := snd (migrate fault engine FS Quote w) in
  environ w' = environ w /\ pools w' = pools w /\ ctxs w' = ctxs w /\
  exists ev, trace w' = (trace w ++ CExec create_migrations_sql :: ev)%list /\
             forallb is_engine_call ev = true.
Proof.
  destruct (migrate_shape fault w) as [He [Hp [Hc [ev [Ht [Hs _]]]]]].
  repeat split; auto. exists ev. split; [exact Ht|].
  destruct Hs as [->|[ev' [-> Hev]]]; [reflexivity|].
  simpl. now apply script_call_engine.
Qed.

Lemma engine_call_not_release ev :
  forallb is_engine_call ev = true ->
  forallb (fun c => negb (is_release c)) ev = true.
Proof.
  rewrite !forallb_forall. intros H c Hin. specialize (H c Hin).
  destruct c; simpl in *; auto; discriminate.
Qed.

Section NewFacts.
Variable P : DB -> Prop.
Hypothesis P_exec : forall sql d, P d -> P (exec_autocommit sql d).
Hypothesis P_file : forall fault name w,
  P (disk w) -> P (disk (snd (migrateFile fault engine FS name w))).

Ltac exec_step :=
  match goal with
  | |- context [bind (db_Exec ?f ?sql) _ ?w1] =>
    let e := fresh "e" in
    let E := fresh "E" in
    destruct (db_Exec_cases f sql w1) as [[e E]|[_ E]];
    rewrite (bind_eq _ _ _ _ _ E); norm_world
  end.

Ltac exit_New :=
  unfold ret; cbn [fst snd environ disk txn pools ctxs stdout trace];
  repeat split;
  [ eexists; split;
    [ rewrite <- ?app_assoc; cbn [app]; reflexivity | reflexivity ]
  | intros; repeat apply P_exec; assumption
  | right; eexists; reflexivity ].

Lemma New_facts fault dsn w :
  let r := fst (New fault engine FS Quote dsn w) in
  let w' := snd (New fault engine FS Quote dsn w) in
  environ w' = environ w /\
  (exists ev, trace w' = (trace w ++ ev)%list /\
              forallb (fun c => negb (is_release c)) ev = true) /\
  (P (disk w) -> P (disk w')) /\
  match fault (List.length (trace w)) with
  | Some e => r = (None, Some e) /\ pools w' = pools w /\ ctxs w' = ctxs w
  | None =>
    pools w' = (pools w ++ [configured_Pool])%list /\
    ctxs w' = (ctxs w ++ [false])%list /\
    (r = (Some (mkSqlite (Some (List.length (pools w)))
                         (Some (List.length (ctxs w)))
                         (Some (List.length (ctxs w)))), None)
     \/ exists e, r = (None, Some e))
  end.
Proof.
  unfold New.
  destruct (sqlx_Connect_cases fault "sqlite3" dsn w) as [[e0 [F0 E0]]|[F0 E0]];
    rewrite (bind_eq _ _ _ _ _ E0), F0; norm_world.
  { unfold ret; cbn [fst snd environ disk txn pools ctxs stdout trace].
    repeat split; auto. eexists; split; reflexivity. }
  rewrite (bind_eq _ _ _ _ _ (context_WithCancel_run _)); norm_world.
  rewrite (bind_eq _ _ _ _ _ (SetMaxOpenConns_run _ _ _)); norm_world.
  rewrite (bind_eq _ _ _ _ _ (SetMaxIdleConns_run _ _ _)); norm_world.
  rewrite (bind_eq _ _ _ _ _ (SetConnMaxIdleTime_run _ _ _)); norm_world.
  rewrite (bind_eq _ _ _ _ _ (SetConnMaxLifetime_run _ _ _)); norm_world.
  rewrite !update_nth_last. cbn [closed maxOpen maxIdle maxIdleTime maxLifetime default_Pool].
  fold configured_Pool.
  exec_step. { exit_New. }
  exec_step. { exit_New. }
  exec_step. { exit_New. }
  exec_step. { exit_New. }
  rewrite (bind_eq _ _ _ _ _ (os_Getenv_run _ _)); norm_world.
  match goal with
  | |- context [bind (if ?b then _ else _) _ ?w1] =>
    assert (E5 : (exists e, (if b then db_Exec fault "PRAGMA wal_autocheckpoint = 0;"
                             else ret None) w1
                            = (Some e, with_trace (trace w1 ++ [CExec "PRAGMA wal_autocheckpoint = 0;"])%list w1))
                 \/ (exists d ev, (if b then db_Exec fault "PRAGMA wal_autocheckpoint = 0;"
                                   else ret None) w1
                                  = (None, with_disk d (with_trace (trace w1 ++ ev)%list w1))
                                  /\ (P (disk w1) -> P d)
                                  /\ forallb (fun c => negb (is_release c)) ev = true))
  end.
  { destruct (negb _).
    - match goal with
      | |- context [db_Exec ?f ?sql ?w1] =>
        destruct (db_Exec_cases f sql w1) as [[e Ex]|[_ Ex]]; rewrite Ex
      end; [left; eauto | right].
      do 2 eexists. split; [reflexivity|]. split; [apply P_exec | reflexivity].
    - right. eexists _, []. split; [|split; [|reflexivity]].
      + unfold ret. norm_world. rewrite app_nil_r. reflexivity.
      + auto. }
  destruct E5 as [[e E5]|[d [ev5 [E5 [Pd Hev5]]]]];
    rewrite (bind_eq _ _ _ _ _ E5); norm_world.
  { exit_New. }
  match goal with
  | |- context [bind (migrate fault engine FS Quote) _ ?w1] =>
    pose proof (migrate_frame fault w1) as Hf;
    pose proof (migrate_invariant engine FS Quote P P_exec P_file fault w1) as Hi;
    destruct (migrate fault engine FS Quote w1) as [r6 w6] eqn:E6;
    rewrite (bind_eq _ _ _ _ _ E6)
  end.
  cbn [fst snd environ disk txn pools ctxs stdout trace] in Hf, Hi.
  destruct Hf as [He [Hp [Hc [ev [Ht Hev]]]]].
  assert (Htr : exists ev', trace w6 = (trace w ++ ev')%list /\
                  forallb (fun c => negb (is_release c)) ev' = true).
  { eexists. split.
    - rewrite Ht, <- !app_assoc. reflexivity.
    - cbn [app]. repeat (rewrite forallb_app || cbn [forallb is_release negb andb]).
      rewrite Hev5. apply engine_call_not_release in Hev. rewrite Hev. reflexivity. }
  assert (HP : P (disk w) -> P (disk w6)).
  { intros H0. apply Hi, Pd. repeat apply P_exec. exact H0. }
  destruct r6 as [e6|]; unfold ret; cbn [fst snd]; repeat split; eauto.
Qed.
End NewFacts.

End Construction.
(** ** Records and committed scripts *)

Lemma events_app w w' ev :
  trace w' = (trace w ++ ev)%list -> events w w' = ev.
Proof.
  intros H. unfold events. rewrite H.
  rewrite skipn_app, skipn_all, Nat.sub_diag. reflexivity.
Qed.

Lemma Close_disk fault h w : disk (snd (Close fault h w)) = disk w.
Proof.
  unfold Close. destruct h as [s|]; [|reflexivity].
  destruct (cancel s) as [c|]; [|reflexivity].
  unfold cancel_ctx, emit, modify, bind. cbn [fst snd].
  destruct (db s) as [p|]; [|reflexivity].
  unfold sql_Close. norm_world.
  destruct (nth_error _ p) as [q|].
  - destruct (closed q); [reflexivity|].
    unfold bind, call, update_pool, modify, ret. reflexivity.
  - reflexivity.
Qed.

Lemma scripts_run_behave engine FS :
  scripts_run engine FS -> scripts_behave engine FS.
Proof. intros H name body Hl d t. right. now apply (H name body Hl). Qed.

(** The scripts of the examples keep to the application schema and run to
    their end under the engine of the examples. *)
Lemma example_scripts_run : scripts_run example_engine example_FS.
Proof.
  intros name body H. unfold example_FS in H. cbn [lookup] in H.
  repeat match type of H with
         | (if ?b then _ else _) = _ => destruct b
         end;
    try discriminate H; injection H as <-; intros d t; reflexivity.
Qed.

Lemma example_scripts_behave : scripts_behave example_engine example_FS.
Proof. apply scripts_run_behave, example_scripts_run. Qed.

Section Invariants.
Variable FS : list (string * string).
Variable Quote : string -> string.

Lemma consistent_file fault engine name w :
  scripts_behave engine FS ->
  consistent FS (disk w) ->
  consistent FS (disk (snd (migrateFile fault engine FS name w))).
Proof.
  intros Hb. apply (clean_run_invariant engine FS (consistent FS) Hb).
  intros n body rows d Hm _ Hl Hc. now apply consistent_applied.
Qed.

Lemma reachable_consistent w :
  reachable (fun engine => scripts_behave engine FS) FS Quote w ->
  consistent FS (disk w).
Proof.
  induction 1 as [env|fault engine dsn w Hb _ IH|fault engine w Hb _ IH
                 |fault engine name w Hb _ IH|fault h w _ IH].
  - intros n [rows [Hr _]]. discriminate Hr.
  - apply (New_facts engine FS Quote (consistent FS)); auto.
    + apply consistent_exec_autocommit.
    + intros; now apply consistent_file.
  - apply (migrate_invariant engine FS Quote (consistent FS)); auto.
    + apply consistent_exec_autocommit.
    + intros; now apply consistent_file.
  - now apply consistent_file.
  - now rewrite Close_disk.
Qed.

Lemma migrateFile_all_or_nothing fault engine name w :
  scripts_behave engine FS ->
  all_or_nothing FS name w (snd (migrateFile fault engine FS name w)).
Proof.
  intros Hb.
  destruct (clean_run_atomic _ _ _ _ _ (migrateFile_clean fault engine FS name w Hb))
    as [H|[rows [body [Hm [Hn [Hl [_ H]]]]]]]; [now left | right; eauto 6].
Qed.

End Invariants.

(** C1, as stated, fails.  The first script of [forged_FS] inserts the
    record of the second one; [migrateFile] then finds the second script
    recorded and skips it: after a run without any failure the second
    script has its record, and its body was never executed. *)
Lemma record_without_effect :
  let w := snd (migrate no_fault example_engine forged_FS quote_plain
                        (initial_World [])) in
  recorded "migration/0002_table.sql" (disk w) /\
  started (events (initial_World []) w) = ["migration/0001_seed.sql"] /\
  schema (disk w) = [] /\
  ~ records_backed (fun _ => True) forged_FS quote_plain.
Proof.
  split; [|split; [|split]].
  - eexists. split; [vm_compute; reflexivity | simpl; auto].
  - vm_compute. reflexivity.
  - vm_compute. reflexivity.
  - intros H.
    destruct (H (snd (migrate no_fault example_engine forged_FS quote_plain
                              (initial_World [])))) as [Hc _].
    { apply reach_migrate; [exact I | apply reach_initial]. }
    destruct (Hc "migration/0002_table.sql") as [body [_ Hin]].
    { eexists. split; [vm_compute; reflexivity | simpl; auto]. }
    vm_compute in Hin. exact Hin.
Qed.

(** C1, amended.  Provided the scripts keep to the application schema
    (they do not end the transaction they run in and do not write to the
    bookkeeping table), in every world reachable from a fresh database
    file each record of the bookkeeping table is backed by the full
    committed effect of its script, and one [migrateFile] commits either
    nothing or the script's effect together with its record. *)
Theorem record_implies_committed FS Quote :
  records_backed (fun engine => scripts_behave engine FS) FS Quote.
Proof.
  intros w R. split.
  - now apply (reachable_consistent FS Quote).
  - intros fault engine name Hb. now apply migrateFile_all_or_nothing.
Qed.

Lemma record_implies_committed_witness :
  let w := snd (New no_fault example_engine example_FS quote_plain
                    "data/example.db" (initial_World [])) in
  consistent example_FS (disk w) /\
  forall fault engine name,
    scripts_behave engine example_FS ->
    all_or_nothing example_FS name w (snd (migrateFile fault engine example_FS name w)).
Proof.
  apply (record_implies_committed example_FS quote_plain).
  apply reach_New; [apply example_scripts_behave | apply reach_initial].
Defined.
(** ** Failure of a script *)

Lemma substring_of_intro pre s post : substring_of s (pre ++ s ++ post).
Proof. exists pre, post. reflexivity. Qed.

Lemma string_app_assoc (a b c : string) : (a ++ b) ++ c = a ++ (b ++ c).
Proof. induction a as [|x a IH]; simpl; [reflexivity | now rewrite IH]. Qed.

Lemma substring_of_trans a b c :
  substring_of a b -> substring_of b c -> substring_of a c.
Proof.
  intros [p1 [q1 ->]] [p2 [q2 ->]].
  exists (p2 ++ p1), (q1 ++ q2).
  now rewrite !string_app_assoc.
Qed.

Lemma filter_app_length {A : Type} (f : A -> bool) (l1 l2 : list A) :
  List.length (filter f (l1 ++ l2)%list)
  = List.length (filter f l1) + List.length (filter f l2).
Proof. now rewrite filter_app, length_app. Qed.

Lemma filter_map_app {A B : Type} (f : A -> option B) (l1 l2 : list A) :
  filter_map f (l1 ++ l2)%list = (filter_map f l1 ++ filter_map f l2)%list.
Proof.
  induction l1 as [|x l1 IH]; simpl; [reflexivity|].
  destruct (f x); simpl; now rewrite IH.
Qed.

Section Failure.
Variable fault : nat -> option error.
Variable engine : Engine.
Variable FS : list (string * string).
Variable Quote : string -> string.

(** One call begins exactly one transaction, and checks and reads at
    most its own script. *)
Lemma file_events_begin name ev :
  file_events FS name ev -> List.length (filter is_begin ev) = 1.
Proof.
  unfold file_events.
  intros [-> | [-> | [-> | [body [_ [-> | [-> | ->]]]]]]]; reflexivity.
Qed.

Lemma file_events_checked name ev m :
  file_events FS name ev -> In m (checked ev) -> m = name.
Proof.
  unfold file_events.
  intros [-> | [-> | [-> | [body [_ [-> | [-> | ->]]]]]]]; simpl;
    intuition congruence.
Qed.

Lemma file_events_started name ev m :
  file_events FS name ev -> In m (started ev) -> m = name.
Proof.
  unfold file_events.
  intros [-> | [-> | [-> | [body [_ [-> | [-> | ->]]]]]]]; simpl;
    intuition congruence.
Qed.

(** The calls of a loop that ends without error. *)
Lemma migrate_loop_success_trace names w w' :
  migrate_loop fault engine FS Quote names w = (None, w') ->
  exists ev, trace w' = (trace w ++ ev)%list /\
    List.length (filter is_begin ev) = List.length names /\
    (forall m, In m (checked ev) -> In m names) /\
    (forall m, In m (started ev) -> In m names).
Proof.
  revert w. induction names as [|name rest IH]; intros w H.
  - simpl in H. injection H as <-.
    exists []. rewrite app_nil_r. repeat split; auto.
  - simpl in H. unfold bind in H.
    pose proof (migrateFile_run fault engine FS name w) as R.
    destruct (migrateFile fault engine FS name w) as [[e|] w1]; [discriminate H|].
    cbn [fst snd] in R.
    destruct (IH w1 H) as [ev' [Ht' [Hb' [Hc' Hs']]]].
    destruct (file_run_trace _ _ _ _ _ _ R) as [ev [Ht Hev]].
    exists (ev ++ ev')%list. repeat split.
    + rewrite Ht', Ht, app_assoc. reflexivity.
    + rewrite filter_app_length, Hb', (file_events_begin _ _ Hev). reflexivity.
    + intros m Hin. unfold checked in Hin. rewrite filter_map_app in Hin.
      apply in_app_or in Hin. destruct Hin as [Hin|Hin].
      * left. symmetry. eapply file_events_checked; eauto.
      * right. now apply Hc'.
    + intros m Hin. unfold started in Hin. rewrite filter_map_app in Hin.
      apply in_app_or in Hin. destruct Hin as [Hin|Hin].
      * left. symmetry. eapply file_events_started; eauto.
      * right. now apply Hs'.
Qed.

(** With scripts that keep to the application schema, a loop that ends
    without error has recorded every script and removed no record. *)
Lemma migrate_loop_success names w w' :
  scripts_behave engine FS ->
  migrate_loop fault engine FS Quote names w = (None, w') ->
  (forall m, In m names -> recorded m (disk w')) /\
  (forall m, recorded m (disk w) -> recorded m (disk w')).
Proof.
  intros Hb. revert w. induction names as [|name rest IH]; intros w H.
  - simpl in H. injection H as <-. split; auto. intros m [].
  - simpl in H. unfold bind in H.
    pose proof (migrateFile_run fault engine FS name w) as R.
    pose proof (migrateFile_clean fault engine FS name w Hb) as C.
    destruct (migrateFile fault engine FS name w) as [[e|] w1]; [discriminate H|].
    cbn [fst snd] in R, C.
    destruct (IH w1 H) as [Hall Hkeep].
    split.
    + intros m [<-|Hin]; [|now apply Hall].
      apply Hkeep. eapply file_run_success; eauto.
    + intros m Hm. apply Hkeep. eapply clean_run_keeps_records; eauto.
Qed.

(** The loop stops at the first script that fails. *)
Lemma migrate_loop_stops done name rest w w1 inner w' :
  migrate_loop fault engine FS Quote done w = (None, w1) ->
  migrateFile fault engine FS name w1 = (Some inner, w') ->
  migrate_loop fault engine FS Quote (done ++ name :: rest) w
  = (Some (migration_error Quote name inner), w').
Proof.
  revert w. induction done as [|n done IH]; intros w Hd Hf.
  - simpl in Hd. injection Hd as <-. simpl. unfold bind. now rewrite Hf.
  - simpl in Hd. unfold bind in Hd. simpl. unfold bind.
    destruct (migrateFile fault engine FS n w) as [[e|] w2]; [discriminate Hd|].
    now apply IH.
Qed.

Lemma migrate_loop_failure provided names w e w' :
  (provided -> scripts_behave engine FS) ->
  migrate_loop fault engine FS Quote names w = (Some e, w') ->
  aborted_at provided fault engine FS Quote names w e w'.
Proof.
  intros Hprov. revert w. induction names as [|name rest IH]; intros w H.
  - simpl in H. discriminate H.
  - simpl in H. unfold bind in H.
    pose proof (migrateFile_run fault engine FS name w) as R.
    destruct (migrateFile fault engine FS name w) as [[inner|] w1] eqn:E;
      cbn [fst snd] in R.
    + (* this script fails *)
      unfold ret in H. injection H as <- <-.
      destruct (file_run_trace _ _ _ _ _ _ R) as [ev [Ht Hev]].
      exists [], name, rest, inner, w.
      split; [reflexivity|]. split; [reflexivity|]. split; [exact E|].
      split; [reflexivity|]. split; [reflexivity|].
      split; [|split; [|split; [|split; [|split]]]].
      * unfold migration_error. cbn [Error].
        apply (substring_of_intro "migration error: name=").
      * intros Hq. eapply substring_of_trans; [exact Hq|].
        unfold migration_error. cbn [Error].
        apply (substring_of_intro "migration error: name=").
      * rewrite (events_app _ _ _ Ht). now apply (file_events_begin name).
      * rewrite (events_app _ _ _ Ht). intros m Hin. left. symmetry.
        eapply file_events_checked; eauto.
      * rewrite (events_app _ _ _ Ht). intros m Hin. left. symmetry.
        eapply file_events_started; eauto.
      * intros Hp. pose proof (file_run_clean _ _ _ _ _ _ (Hprov Hp) R) as C.
        split; [eapply clean_run_error; eauto|]. split; [intros m []|].
        intros m Hm. eapply clean_run_keeps_records; eauto.
    + (* this script goes through; a later one fails *)
      destruct (IH w1 H) as (done & n & rest' & inner & w2 & Hn & Hdone & Hfile
        & He & Hu & Hs & Hs' & Hb & Hc & Hst & Hclean).
      destruct (file_run_trace _ _ _ _ _ _ R) as [ev [Ht Hev]].
      assert (Hloop : migrate_loop fault engine FS Quote (name :: done) w = (None, w2)).
      { simpl. unfold bind. rewrite E. exact Hdone. }
      destruct (migrate_loop_success_trace _ _ _ Hdone) as [ev1 [Ht1 _]].
      destruct (file_run_trace _ _ _ _ _ _
                  (eq_ind _ (fun p => file_run engine FS n w2 (fst p) (snd p))
                          (migrateFile_run fault engine FS n w2) _ Hfile))
        as [ev2 [Ht2 Hev2]]. cbn [fst snd] in Ht2.
      assert (Hev' : events w1 w' = (ev1 ++ ev2)%list).
      { apply events_app. rewrite Ht2, Ht1, app_assoc. reflexivity. }
      assert (Hevw : events w w' = (ev ++ ev1 ++ ev2)%list).
      { apply events_app. rewrite Ht2, Ht1, Ht, <- !app_assoc. reflexivity. }
      exists (name :: done), n, rest', inner, w2.
      split; [rewrite Hn; reflexivity|]. split; [exact Hloop|].
      split; [exact Hfile|]. split; [exact He|]. split; [exact Hu|].
      split; [exact Hs|]. split; [exact Hs'|].
      split; [|split; [|split]].
      * rewrite Hevw, filter_app_length, (file_events_begin _ _ Hev).
        rewrite Hev' in Hb. rewrite Hb. reflexivity.
      * rewrite Hevw. intros m Hin. unfold checked in Hin.
        rewrite filter_map_app in Hin. apply in_app_or in Hin.
        destruct Hin as [Hin|Hin].
        -- left. symmetry. eapply file_events_checked; eauto.
        -- right. apply Hc. rewrite Hev'. exact Hin.
      * rewrite Hevw. intros m Hin. unfold started in Hin.
        rewrite filter_map_app in Hin. apply in_app_or in Hin.
        destruct Hin as [Hin|Hin].
        -- left. symmetry. eapply file_events_started; eauto.
        -- right. apply Hst. rewrite Hev'. exact Hin.
      * intros Hp. destruct (Hclean Hp) as [Hd [Hrec Hkeep]].
        pose proof (file_run_clean _ _ _ _ _ _ (Hprov Hp) R) as C.
        split; [exact Hd|]. split.
        -- intros m [<-|Hin]; [|now apply Hrec].
           apply Hkeep. eapply file_run_success; eauto.
        -- intros m Hm. apply Hkeep. eapply clean_run_keeps_records; eauto.
Qed.

End Failure.


(** ** The success message and the commit *)

Lemma migrateFile_announces provided fault engine FS name w :
  (provided -> scripts_behave engine FS) ->
  announced_before_commit provided name w
    (snd (migrateFile fault engine FS name w))
    (fst (migrateFile fault engine FS name w)).
Proof.
  intros Hprov.
  pose proof (migrateFile_run fault engine FS name w) as R.
  destruct (migrateFile fault engine FS name w) as [r w']. cbn [fst snd] in *.
  unfold announced_before_commit.
  assert (Hclean : provided -> existsb is_commit (events w w') = true ->
                   r <> None -> disk w' = disk w).
  { intros Hp _ Hr. destruct r as [e|]; [|now elim Hr].
    eapply clean_run_error. eapply file_run_clean; eauto. }
  split; [|split; [exact Hclean|]]; clear Hclean;
    inversion R; subst;
    match goal with
    | |- context [events w ?w1] =>
      match w1 with
      | with_trace (_ ++ ?ev)%list _ =>
        rewrite (events_app w w1 ev) by reflexivity
      | after _ ?ev _ _ =>
        rewrite (events_app w w1 ev) by reflexivity
      end
    end;
    unfold ev_check, ev_read, ev_body, ev_insert, ev_commit;
    cbn [after disk stdout existsb is_commit is_print orb].
  all: try (intros [?|?]; discriminate).
  all: try (intros ?; discriminate).
  all: try (intros _ _; reflexivity).
  all: try (intros _ Hr; exfalso; apply Hr; eexists; eauto; fail).
  all: intros _; eexists [_; _; _; _; _]; repeat split; reflexivity.
Qed.

(** C10, as stated, fails.  The script of [split_FS] commits half-way:
    the statements after its COMMIT and the record are committed one by
    one, the message is written, and the commit of [migrateFile] fails
    because no transaction is active.  [migrateFile] returns an error,
    and the script and its record are committed. *)
Lemma failed_commit_after_committing_script :
  let name := "migration/0001_split.sql" in
  let w := bootstrapped_World in
  let run := migrateFile no_fault example_engine split_FS name w in
  fst run = Some ErrNoTransaction /\
  stdout (snd run) = [success_message name] /\
  existsb is_commit (events w (snd run)) = true /\
  disk (snd run)
  = mkDB (Some [name]) [Full "CREATE TABLE a(id INTEGER)"; Full "CREATE TABLE b(id INTEGER)"] [] /\
  ~ announced_before_commit True name w (snd run) (fst run).
Proof.
  split; [|split; [|split; [|split]]]; try (vm_compute; reflexivity).
  intros [_ [H _]].
  assert (Hd : disk (snd (migrateFile no_fault example_engine split_FS
                                      "migration/0001_split.sql" bootstrapped_World))
               = disk bootstrapped_World).
  { apply H; [exact I | vm_compute; reflexivity | vm_compute; discriminate]. }
  vm_compute in Hd. discriminate Hd.
Qed.

(** C10, amended.  [migrateFile] writes the success message before it
    commits: whenever a commit is attempted the message is the call just
    before it, so when the commit fails the message is already written
    although the call returns an error.  Provided the scripts keep to the
    application schema, nothing is committed in that case. *)
Theorem message_precedes_commit fault engine FS name w :
  announced_before_commit (scripts_behave engine FS) name w
    (snd (migrateFile fault engine FS name w))
    (fst (migrateFile fault engine FS name w)).
Proof. apply migrateFile_announces. auto. Qed.

(** A run in which the commit of the first script fails. *)
Example commit_failure_after_message :
  let run := migrateFile (fail_at 6) example_engine example_FS
                         "migration/0001_init.sql" bootstrapped_World in
  fst run = Some (errors_New "disk I/O error") /\
  stdout (snd run) = [success_message "migration/0001_init.sql"] /\
  disk (snd run) = disk bootstrapped_World /\
  existsb is_commit (events bootstrapped_World (snd run)) = true.
Proof. vm_compute. repeat split. Qed.

Lemma message_precedes_commit_witness :
  let run := migrateFile (fail_at 6) example_engine example_FS
                         "migration/0001_init.sql" bootstrapped_World in
  announced_before_commit (scripts_behave example_engine example_FS)
    "migration/0001_init.sql" bootstrapped_World (snd run) (fst run).
Proof.
  apply (message_precedes_commit (fail_at 6) example_engine example_FS
           "migration/0001_init.sql" bootstrapped_World).
Defined.

(** ** Order of application *)

Lemma string_compare_le_trans a b c :
  String.compare a b <> Gt -> String.compare b c <> Gt -> String.compare a c <> Gt.
Proof.
  revert b c. induction a as [|x a IH]; intros [|y b] [|z c]; simpl;
    try congruence.
  unfold Ascii.compare.
  destruct (N.compare_spec (N_of_ascii x) (N_of_ascii y)) as [Exy|Lxy|Gxy];
    destruct (N.compare_spec (N_of_ascii y) (N_of_ascii z)) as [Eyz|Lyz|Gyz];
    destruct (N.compare_spec (N_of_ascii x) (N_of_ascii z)) as [Exz|Lxz|Gxz];
    cbn; try congruence; try lia; try apply (IH b c).
Qed.

Lemma string_le_trans a b c : string_le a b -> string_le b c -> string_le a c.
Proof.
  unfold string_le, String.leb. intros H1 H2.
  pose proof (string_compare_le_trans a b c) as H.
  destruct (String.compare a b); destruct (String.compare b c);
    destruct (String.compare a c); try discriminate; try reflexivity;
    exfalso; apply H; congruence.
Qed.

Lemma string_le_neq_lt a b : string_le a b -> a <> b -> string_lt a b.
Proof.
  unfold string_le, string_lt, String.leb, String.ltb. intros H Hne.
  destruct (String.compare a b) eqn:E; try discriminate; try reflexivity.
  exfalso. apply Hne. now apply String.compare_eq_iff.
Qed.

Lemma sort_Strings_sorted names :
  StronglySorted string_le (sort_Strings names).
Proof.
  unfold sort_Strings.
  assert (T : Relations_1.Transitive (fun x y => is_true (StringOrder.leb x y))).
  { intros a b c. apply string_le_trans. }
  exact (StringSort.StronglySorted_sort names T).
Qed.

Lemma sort_Strings_perm names : Permutation names (sort_Strings names).
Proof. apply StringSort.Permuted_sort. Qed.

Lemma sorted_nodup_strict l :
  StronglySorted string_le l -> NoDup l -> StronglySorted string_lt l.
Proof.
  induction 1 as [|a l Hs IH Hall]; intros Hnd; constructor.
  - apply IH. now inversion Hnd.
  - inversion Hnd as [|? ? Hnotin _]; subst.
    rewrite Forall_forall in *. intros b Hb.
    apply string_le_neq_lt; [now apply Hall|].
    intros ->. contradiction.
Qed.

Lemma sorted_perm_unique l1 l2 :
  StronglySorted string_le l1 -> StronglySorted string_le l2 ->
  Permutation l1 l2 -> l1 = l2.
Proof.
  intros H1. revert l2. induction H1 as [|a l1 Hs IH Hall]; intros l2 H2 Hp.
  - apply Permutation_nil in Hp. now subst.
  - destruct H2 as [|b l2 Hs2 Hall2].
    + apply Permutation_sym, Permutation_nil in Hp. discriminate.
    + assert (a = b).
      { rewrite Forall_forall in Hall, Hall2.
        assert (Ha : In a (b :: l2)) by (eapply Permutation_in; [exact Hp | now left]).
        assert (Hb : In b (a :: l1))
          by (eapply Permutation_in; [apply Permutation_sym; exact Hp | now left]).
        destruct Ha as [->|Ha]; [reflexivity|].
        destruct Hb as [->|Hb]; [reflexivity|].
        apply String.leb_antisym; [now apply Hall | now apply Hall2]. }
      subst b. f_equal. apply IH; [assumption|].
      now apply Permutation_cons_inv with a.
Qed.

Lemma sort_Strings_perm_eq l l' :
  Permutation l l' -> sort_Strings l = sort_Strings l'.
Proof.
  intros Hp. apply sorted_perm_unique; try apply sort_Strings_sorted.
  eapply Permutation_trans; [apply Permutation_sym, sort_Strings_perm|].
  eapply Permutation_trans; [exact Hp | apply sort_Strings_perm].
Qed.

Lemma lookup_In {A : Type} k (v : A) l :
  NoDup (map fst l) -> (lookup k l = Some v <-> In (k, v) l).
Proof.
  induction l as [|[k' v'] l IH]; simpl; intros Hnd.
  - split; [discriminate | intros []].
  - inversion Hnd as [|? ? Hnotin Hnd']; subst.
    destruct (String.eqb_spec k k') as [->|Hne].
    + split.
      * intros H. injection H as ->. now left.
      * intros [H|H]; [now injection H as -> |].
        exfalso. apply Hnotin. apply (in_map fst) in H. exact H.
    + rewrite (IH Hnd'). split.
      * intros H. now right.
      * intros [H|H]; [injection H as -> ->; contradiction | assumption].
Qed.

Lemma lookup_perm {A : Type} k (l l' : list (string * A)) :
  NoDup (map fst l) -> Permutation l l' -> lookup k l = lookup k l'.
Proof.
  intros Hnd Hp.
  assert (Hnd' : NoDup (map fst l'))
    by (eapply Permutation_NoDup; [apply Permutation_map; exact Hp | exact Hnd]).
  destruct (lookup k l) as [v|] eqn:E1; destruct (lookup k l') as [v'|] eqn:E2;
    try reflexivity.
  - apply lookup_In in E1; [|assumption]. apply lookup_In in E2; [|assumption].
    apply (Permutation_in _ Hp) in E1. apply lookup_In in E1; [|assumption].
    apply lookup_In in E2; [|assumption]. congruence.
  - apply lookup_In in E1; [|assumption].
    apply (Permutation_in _ Hp) in E1. apply lookup_In in E1; [|assumption].
    congruence.
  - apply lookup_In in E2; [|assumption].
    apply (Permutation_in _ (Permutation_sym Hp)) in E2.
    apply lookup_In in E2; [|assumption]. congruence.
Qed.

Lemma existsb_perm {A : Type} (f : A -> bool) (l l' : list A) :
  Permutation l l' -> existsb f l = existsb f l'.
Proof.
  induction 1 as [|x l l' _ IH|x y l|l l' l'' _ IH1 _ IH2]; simpl.
  - reflexivity.
  - now rewrite IH.
  - destruct (f x), (f y); reflexivity.
  - congruence.
Qed.

Lemma is_directory_perm (FS FS' : list (string * string)) name :
  Permutation FS FS' -> is_directory FS' name = is_directory FS name.
Proof.
  intros Hp. unfold is_directory. f_equal. symmetry. now apply existsb_perm.
Qed.


(** ** A run of [migrate] without failures *)

Lemma outstanding_recorded n rest rows :
  ~ In n rest -> outstanding rest (rows ++ [n])%list = outstanding rest rows.
Proof.
  intros Hn. unfold outstanding. apply filter_ext_in. intros m Hm.
  rewrite existsb_app. cbn [existsb]. rewrite orb_false_r.
  destruct (String.eqb_spec m n) as [->|_]; [contradiction|].
  now rewrite orb_false_r.
Qed.

Lemma lookup_names (FS : list (string * string)) n : In n (map fst FS) -> lookup n FS <> None.
Proof.
  induction FS as [|[k v] l IH]; simpl; [intros []|].
  intros H. destruct (String.eqb_spec n k) as [->|Hne]; [discriminate|].
  destruct H as [H|H]; [now elim Hne | now apply IH].
Qed.

Section NoFault.
Variable fault : nat -> option error.
Variable engine : Engine.
Variable FS : list (string * string).
Variable Quote : string -> string.
Hypothesis no_failure : forall t, fault t = None.
Hypothesis to_end : scripts_run engine FS.

Lemma migrateFile_no_fault_result name w rows body :
migrations (disk w) = Some rows -> lookup name FS = Some body ->
fst (migrateFile fault engine FS name w) = None.
Proof.
intros Hm Hl.
unfold migrateFile, defer, db_Begin, tx_QueryRow_Scan, bind, call, ret, modify.
rewrite !no_failure. step. cbn [seen fst snd]. rewrite Hm.
destruct (count_rows name rows =? 0)%Z eqn:Hc; step; [|reflexivity].
unfold fs_ReadFile, bind, call, ret. rewrite no_failure, Hl. step.
unfold tx_Exec at 1. unfold bind, call, ret. rewrite no_failure. step.
cbn [statement]. rewrite (to_end name body Hl). step.
unfold tx_Exec, bind, call, ret. rewrite no_failure. step.
unfold statement. rewrite String.eqb_refl.
unfold insert_record, on_seen, insert_row.
cbn [seen fst snd extended migrations schema pragmas]. rewrite Hm.
rewrite (count_rows_zero _ _ Hc). step.
unfold fmt_Printf, emit, modify, tx_Commit, bind, call. step.
rewrite no_failure. reflexivity.
Qed.

Lemma migrateFile_no_fault name w rows body :
migrations (disk w) = Some rows -> lookup name FS = Some body ->
migrateFile fault engine FS name w
= (None,
   if existsb (String.eqb name) rows
   then after w (ev_check name) (disk w) (stdout w)
   else after w (ev_commit name body) (applied name body rows (disk w))
              (stdout w ++ [success_message name])%list).
Proof.
intros Hm Hl.
pose proof (migrateFile_no_fault_result name w rows body Hm Hl) as Hr.
pose proof (migrateFile_clean fault engine FS name w
              (scripts_run_behave _ _ to_end)) as R.
destruct (migrateFile fault engine FS name w) as [r w']. cbn [fst snd] in *. subst r.
inversion R as [| |rows' Hm' Hin| | | | |rows' body' Hm' Hn Hl']; subst;
  rewrite Hm in Hm'; injection Hm' as <-.
- apply existsb_eqb_In in Hin. now rewrite Hin.
- rewrite Hl in Hl'. injection Hl' as <-.
  destruct (existsb (String.eqb name) rows) eqn:E; [|reflexivity].
  apply existsb_eqb_In in E. contradiction.
Qed.

Lemma migrate_loop_no_fault names w rows :
NoDup names -> (forall n, In n names -> lookup n FS <> None) ->
migrations (disk w) = Some rows ->
let run := migrate_loop fault engine FS Quote names w in
let todo := outstanding names rows in
fst run = None /\
disk (snd run)
= mkDB (Some (rows ++ todo)%list) (schema (disk w) ++ effects_of FS todo)%list
       (pragmas (disk w)) /\
(exists ev, trace (snd run) = (trace w ++ ev)%list /\ started ev = todo) /\
stdout (snd run) = (stdout w ++ map success_message todo)%list.
Proof.
revert w rows. induction names as [|name rest IH]; intros w rows Hnd Hfs Hm; simpl.
- rewrite !app_nil_r. repeat split.
  + destruct (disk w); simpl in *. now rewrite Hm.
  + exists []. now rewrite app_nil_r.
- inversion Hnd as [|? ? Hnotin Hnd']; subst.
  destruct (lookup name FS) as [body|] eqn:Hl;
    [|exfalso; apply (Hfs name); [now left | exact Hl]].
  unfold bind. rewrite (migrateFile_no_fault name w rows body Hm Hl).
  destruct (existsb (String.eqb name) rows) eqn:E; cbn [negb].
  + destruct (IH (after w (ev_check name) (disk w) (stdout w)) rows Hnd')
      as [Hr [Hd [[ev [Ht Hs]] Ho]]]; [intros; apply Hfs; now right | exact Hm|].
    cbn [disk stdout trace after] in *.
    split; [exact Hr|]. split; [exact Hd|]. split; [|exact Ho].
    exists (ev_check name ++ ev)%list. split.
    * rewrite Ht. unfold after. cbn [trace]. now rewrite app_assoc.
    * unfold started in *. rewrite filter_map_app. exact Hs.
  + destruct (IH (after w (ev_commit name body) (applied name body rows (disk w))
                        (stdout w ++ [success_message name])%list)
                 (rows ++ [name])%list Hnd')
      as [Hr [Hd [[ev [Ht Hs]] Ho]]];
      [intros; apply Hfs; now right | reflexivity|].
    cbn [disk stdout trace after applied schema pragmas] in *.
    rewrite (outstanding_recorded name rest rows Hnotin) in *.
    split; [exact Hr|]. split; [|split].
    * rewrite Hd. unfold effects_of. cbn [filter_map]. rewrite Hl. cbn [option_map].
      now rewrite <- !app_assoc.
    * exists (ev_commit name body ++ ev)%list. split.
      -- rewrite Ht. now rewrite app_assoc.
      -- unfold started in *. rewrite filter_map_app, Hs. reflexivity.
    * rewrite Ho. cbn [map]. now rewrite <- app_assoc.
Qed.

Lemma migrate_no_fault w :
NoDup (map fst FS) -> brought_up_to_date fault engine FS Quote w.
Proof.
intros Hnd. unfold brought_up_to_date, migrate, bind.
destruct (db_Exec_cases fault create_migrations_sql w) as [[e E]|[_ E]]; rewrite E.
{ unfold db_Exec, bind, call in E. rewrite no_failure in E. discriminate E. }
unfold fs_Glob, bind, call, ret. rewrite no_failure. norm_world.
assert (Hm : migrations (exec_autocommit create_migrations_sql (disk w))
             = Some (rows_of (disk w))).
{ unfold exec_autocommit, rows_of. rewrite String.eqb_refl.
  destruct (migrations (disk w)) eqn:Hm; [exact Hm | reflexivity]. }
assert (Hs : schema (exec_autocommit create_migrations_sql (disk w)) = schema (disk w)
             /\ pragmas (exec_autocommit create_migrations_sql (disk w)) = pragmas (disk w)).
{ unfold exec_autocommit. rewrite String.eqb_refl.
  destruct (migrations (disk w)); split; reflexivity. }
match goal with
| |- context [migrate_loop fault engine FS Quote ?ns ?w0] =>
  destruct (migrate_loop_no_fault ns w0 (rows_of (disk w)))
    as [Hr [Hd [[ev [Ht Hst]] Ho]]]
end.
- eapply Permutation_NoDup; [apply sort_Strings_perm | exact Hnd].
- intros n Hin. apply lookup_names.
  eapply Permutation_in; [apply Permutation_sym, sort_Strings_perm | exact Hin].
- exact Hm.
- cbn [disk stdout trace] in Hd, Ht, Ho. destruct Hs as [Hs1 Hs2].
  rewrite Hs1, Hs2 in Hd.
  split; [exact Hr|]. split; [exact Hd|]. split; [|exact Ho].
  rewrite (events_app w _ ([CExec create_migrations_sql; CGlob "migration/*.sql"] ++ ev)%list).
  + unfold started in *. rewrite filter_map_app. exact Hst.
  + rewrite Ht, <- !app_assoc. reflexivity.
Qed.

End NoFault.

(** *** A run that returns nil *)

Section Success.
Variable fault : nat -> option error.
Variable engine : Engine.
Variable FS : list (string * string).
Variable Quote : string -> string.
Hypothesis behave : scripts_behave engine FS.

Lemma migrate_loop_success_applies names w rows w' :
NoDup names -> migrations (disk w) = Some rows ->
migrate_loop fault engine FS Quote names w = (None, w') ->
let todo := outstanding names rows in
disk w'
= mkDB (Some (rows ++ todo)%list) (schema (disk w) ++ effects_of FS todo)%list
       (pragmas (disk w)) /\
(exists ev, trace w' = (trace w ++ ev)%list /\ started ev = todo) /\
stdout w' = (stdout w ++ map success_message todo)%list.
Proof.
revert w rows. induction names as [|name rest IH]; intros w rows Hnd Hm H; simpl.
- simpl in H. injection H as <-. rewrite !app_nil_r. repeat split.
  + destruct (disk w); simpl in *. now rewrite Hm.
  + exists []. now rewrite app_nil_r.
- inversion Hnd as [|? ? Hnotin Hnd']; subst.
  simpl in H. unfold bind in H.
  pose proof (migrateFile_clean fault engine FS name w behave) as C.
  destruct (migrateFile fault engine FS name w) as [[e|] w1]; [discriminate H|].
  cbn [fst snd] in C.
  inversion C as [| |rows' Hm' Hin| | | | |rows' body Hm' Hn Hl]; subst;
    rewrite Hm in Hm'; injection Hm' as <-.
  + apply existsb_eqb_In in Hin. rewrite Hin. cbn [negb].
    destruct (IH (after w (ev_check name) (disk w) (stdout w)) rows Hnd' Hm H)
      as [Hd [[ev [Ht Hs]] Ho]].
    cbn [disk stdout trace after] in *.
    split; [exact Hd|]. split; [|exact Ho].
    exists (ev_check name ++ ev)%list. split.
    * rewrite Ht. now rewrite app_assoc.
    * unfold started in *. rewrite filter_map_app. exact Hs.
  + assert (E : existsb (String.eqb name) rows = false).
    { destruct (existsb (String.eqb name) rows) eqn:E; [|reflexivity].
      apply existsb_eqb_In in E. contradiction. }
    rewrite E. cbn [negb].
    destruct (IH (after w (ev_commit name body) (applied name body rows (disk w))
                        (stdout w ++ [success_message name])%list)
                 (rows ++ [name])%list Hnd' eq_refl H) as [Hd [[ev [Ht Hs]] Ho]].
    cbn [disk stdout trace after applied schema pragmas] in *.
    rewrite (outstanding_recorded name rest rows Hnotin) in *.
    split; [|split].
    * rewrite Hd. unfold effects_of. cbn [filter_map]. rewrite Hl. cbn [option_map].
      now rewrite <- !app_assoc.
    * exists (ev_commit name body ++ ev)%list. split.
      -- rewrite Ht. now rewrite app_assoc.
      -- unfold started in *. rewrite filter_map_app, Hs. reflexivity.
    * rewrite Ho. cbn [map]. now rewrite <- app_assoc.
Qed.

Lemma migrate_success_applies w w' :
NoDup (map fst FS) ->
migrate fault engine FS Quote w = (None, w') ->
let todo := outstanding (sort_Strings (map fst FS)) (rows_of (disk w)) in
started (events w w') = todo /\
schema (disk w') = (schema (disk w) ++ effects_of FS todo)%list.
Proof.
intros Hnd H. unfold migrate, bind in H.
destruct (db_Exec_cases fault create_migrations_sql w) as [[e E]|[_ E]];
  rewrite E in H; [discriminate H|].
unfold fs_Glob, bind, call, ret in H. norm_world.
destruct (fault _); [discriminate H|].
assert (Hm : migrations (exec_autocommit create_migrations_sql (disk w))
             = Some (rows_of (disk w))).
{ unfold exec_autocommit, rows_of. rewrite String.eqb_refl.
  destruct (migrations (disk w)) eqn:Hm; [exact Hm | reflexivity]. }
assert (Hs : schema (exec_autocommit create_migrations_sql (disk w)) = schema (disk w)).
{ unfold exec_autocommit. rewrite String.eqb_refl.
  destruct (migrations (disk w)); reflexivity. }
match type of H with
| migrate_loop _ _ _ _ ?ns ?w0 = _ =>
  destruct (migrate_loop_success_applies ns w0 (rows_of (disk w)) w'
              (Permutation_NoDup (sort_Strings_perm _) Hnd) Hm H)
    as [Hd [[ev [Ht Hst]] _]]
end.
unfold with_trace, with_disk in Hd, Ht. cbn [disk trace] in Hd, Ht.
rewrite Hs in Hd.
split.
- rewrite (events_app w _ ([CExec create_migrations_sql; CGlob "migration/*.sql"]
                           ++ ev)%list).
  + unfold started in *. rewrite filter_map_app. exact Hst.
  + rewrite Ht, <- !app_assoc. reflexivity.
- rewrite Hd. reflexivity.
Qed.

End Success.
Section Order.
Variable fault : nat -> option error.
Variable engine : Engine.
Variable FS : list (string * string).
Variable Quote : string -> string.

Lemma file_run_checked name w r w' :
  file_run engine FS name w r w' ->
  exists ev, trace w' = (trace w ++ ev)%list /\
    (checked ev = [name] \/ (checked ev = [] /\ r <> None)) /\
    (started ev = [] \/ started ev = [name]).
Proof.
  intros R. inversion R; subst; eexists; (split; [reflexivity|]); simpl;
    split; auto; right; split; auto; discriminate.
Qed.

Lemma migrate_loop_order names w :
  let run := migrate_loop fault engine FS Quote names w in
  exists ev, trace (snd run) = (trace w ++ ev)%list /\
    (exists k, checked ev = firstn k names) /\
    (fst run = None -> checked ev = names) /\
    incl (started ev) names /\
    (StronglySorted string_lt names -> StronglySorted string_lt (started ev)).
Proof.
  revert w. induction names as [|name rest IH]; intros w; simpl.
  - exists []. rewrite app_nil_r.
    split; [reflexivity|]. split; [exists 0; reflexivity|].
    split; [reflexivity|]. split; [intros x []|]. intros _. constructor.
  - unfold bind.
    pose proof (migrateFile_run fault engine FS name w) as R.
    destruct (migrateFile fault engine FS name w) as [r w1]. cbn [fst snd] in R.
    destruct (file_run_checked _ _ _ _ R) as [ev [Ht [Hc Hst]]].
    destruct r as [e|].
    + unfold ret. cbn [fst snd]. exists ev.
      split; [exact Ht|]. split; [|split; [discriminate|split]].
      * destruct Hc as [->|[-> _]]; [exists 1 | exists 0]; reflexivity.
      * destruct Hst as [->| ->]; intros x Hx; [destruct Hx|].
        destruct Hx as [<-|[]]. now left.
      * intros _. destruct Hst as [->| ->]; repeat constructor.
    + destruct (IH w1) as [ev' [Ht' [[k Hk] [Hall [Hincl Hsorted]]]]].
      destruct Hc as [Hc|[_ Hc]]; [|now elim Hc].
      exists (ev ++ ev')%list.
      unfold checked, started in *. rewrite !filter_map_app.
      split; [|split; [|split; [|split]]].
      * rewrite Ht', Ht, app_assoc. reflexivity.
      * exists (S k). rewrite Hc, Hk. reflexivity.
      * intros Hr. rewrite Hc, (Hall Hr). reflexivity.
      * intros x Hx. apply in_app_or in Hx. destruct Hx as [Hx|Hx].
        -- destruct Hst as [Hst|Hst]; rewrite Hst in Hx; [destruct Hx|].
           destruct Hx as [<-|[]]. now left.
        -- right. now apply Hincl.
      * intros Hs. inversion Hs as [|? ? Hs' Hlt]; subst.
        destruct Hst as [-> | ->]; simpl; [now apply Hsorted|].
        constructor; [now apply Hsorted|].
        rewrite Forall_forall in *. intros x Hx. apply Hlt. now apply Hincl.
Qed.

Lemma migrateFile_perm FS' name w :
  NoDup (map fst FS) -> Permutation FS FS' ->
  migrateFile fault engine FS' name w = migrateFile fault engine FS name w.
Proof.
  intros Hnd Hp. unfold migrateFile, fs_ReadFile.
  rewrite <- (lookup_perm name FS FS' Hnd Hp), (is_directory_perm FS FS' name Hp).
  reflexivity.
Qed.

Lemma migrate_loop_perm FS' names w :
  NoDup (map fst FS) -> Permutation FS FS' ->
  migrate_loop fault engine FS' Quote names w = migrate_loop fault engine FS Quote names w.
Proof.
  intros Hnd Hp. revert w. induction names as [|name rest IH]; intros w; simpl.
  - reflexivity.
  - unfold bind. rewrite (migrateFile_perm FS' name w Hnd Hp).
    destruct (migrateFile fault engine FS name w) as [[e|] w1]; [reflexivity | apply IH].
Qed.

Lemma migrate_perm FS' w :
  NoDup (map fst FS) -> Permutation FS FS' ->
  migrate fault engine FS' Quote w = migrate fault engine FS Quote w.
Proof.
  intros Hnd Hp. unfold migrate, bind.
  destruct (db_Exec fault create_migrations_sql w) as [[e|] w1]; [reflexivity|].
  unfold fs_Glob, bind, call, ret.
  destruct (fault _); [reflexivity|].
  rewrite (sort_Strings_perm_eq (map fst FS') (map fst FS))
    by (apply Permutation_sym, Permutation_map; exact Hp).
  now apply migrate_loop_perm.
Qed.

Lemma migrate_order w :
  NoDup (map fst FS) -> in_name_order fault engine FS Quote w.
Proof.
  intros Hnd. unfold in_name_order.
  assert (Hs : StronglySorted string_lt (sort_Strings (map fst FS))).
  { apply sorted_nodup_strict; [apply sort_Strings_sorted|].
    eapply Permutation_NoDup; [apply sort_Strings_perm | exact Hnd]. }
  split; [apply sort_Strings_perm|]. split; [exact Hs|].
  assert (Hrun : let run := migrate fault engine FS Quote w in
            exists ev, trace (snd run) = (trace w ++ ev)%list /\
              (exists k, checked ev = firstn k (sort_Strings (map fst FS))) /\
              (fst run = None -> checked ev = sort_Strings (map fst FS)) /\
              StronglySorted string_lt (started ev)).
  { unfold migrate, bind.
    destruct (db_Exec_cases fault create_migrations_sql w) as [[e E]|[_ E]];
      rewrite E.
    { unfold ret. cbn [fst snd]. norm_world. eexists. split; [reflexivity|].
      repeat split; [exists 0; reflexivity | discriminate | constructor]. }
    unfold fs_Glob, bind, call, ret. norm_world.
    destruct (fault _).
    { cbn [fst snd]. norm_world. eexists. split; [now rewrite <- app_assoc|].
      repeat split; [exists 0; reflexivity | discriminate | constructor]. }
    match goal with
    | |- context [migrate_loop fault engine FS Quote ?ns ?w1] =>
      destruct (migrate_loop_order ns w1) as [ev [Ht [Hk [Hall [_ Hsorted]]]]]
    end.
    cbn [trace] in Ht. cbv zeta.
    exists ([CExec create_migrations_sql; CGlob "migration/*.sql"] ++ ev)%list.
    split; [rewrite Ht, <- !app_assoc; reflexivity|].
    unfold checked, started in *. rewrite !filter_map_app. cbn [filter_map checked_script read_script app].
    repeat split; auto. }
  destruct Hrun as [ev [Ht [Hk [Hall Hst]]]].
  rewrite (events_app _ _ _ Ht).
  split; [exact Hk|]. split; [exact Hall|]. split; [exact Hst|].
  split; [intros FS' Hp; now apply migrate_perm|].
  split.
  - intros Hb Hr.
    destruct (migrate fault engine FS Quote w) as [r w'] eqn:E.
    cbn [fst snd] in *. subst r.
    destruct (migrate_success_applies fault engine FS Quote Hb w w' Hnd E)
      as [Hstarted Hd].
    rewrite (events_app _ _ _ Ht) in Hstarted. split; assumption.
  - intros Hf Hrun.
    now destruct (migrate_no_fault fault engine FS Quote Hf Hrun w Hnd) as [Hr _].
Qed.

End Order.

(** C3.  For a set of script names (no name twice), [migrate] goes through
    the scripts in strictly ascending byte-wise order of name, and the run
    does not depend on the order in which the embedded files are
    enumerated.  A run that returns nil has executed exactly the scripts
    that had no record, in that order (the scripts keeping to the
    application schema), and the run does return nil when no library call
    fails and the scripts run to their end. *)
Theorem scripts_applied_in_name_order fault engine FS Quote w :
  NoDup (map fst FS) -> in_name_order fault engine FS Quote w.
Proof. apply migrate_order. Qed.

Lemma scripts_applied_in_name_order_witness :
  in_name_order no_fault example_engine example_FS quote_plain (initial_World []).
Proof.
  apply scripts_applied_in_name_order.
  repeat constructor; simpl; intuition discriminate.
Defined.

(** The ordering scenario: three scripts enumerated out of order. *)
Example ordering_scenario :
  checked (events (initial_World [])
                  (snd (migrate no_fault example_engine example_FS quote_plain (initial_World []))))
  = ["migration/0001_init.sql"; "migration/0002_add_col.sql";
     "migration/0010_later.sql"].
Proof. vm_compute. reflexivity. Qed.

(** ** Failure of a script in a run of [migrate] *)

Lemma filter_length_existsb {A : Type} (f : A -> bool) (l : list A) n :
  List.length (filter f l) = S n -> existsb f l = true.
Proof.
  induction l as [|x l IH]; simpl; [discriminate|].
  destruct (f x); [reflexivity | exact IH].
Qed.

Section Abort.
Variable fault : nat -> option error.
Variable engine : Engine.
Variable FS : list (string * string).
Variable Quote : string -> string.

(** Whichever step fails, [migrateFile] returns the error of that
    step, after the deferred rollback if the transaction had begun. *)
Lemma step_fails_returns name w e w2 :
  step_fails fault engine FS name w e w2 ->
  exists w', migrateFile fault engine FS name w = (Some e, w') /\
             (w' = w2 \/ w' = snd (tx_Rollback w2)).
Proof.
  intros S. unfold migrateFile.
  inversion S as
    [ w1 Hb
    | w1 w2' Hb Hq
    | w1 w2' w3 Hb Hq Hr
    | w1 w2' buf w3 w4 Hb Hq Hr Hx
    | w1 w2' buf w3 w4 w5 Hb Hq Hr Hx Hi
    | w1 w2' buf w3 w4 w5 w6 Hb Hq Hr Hx Hi Hc ]; subst;
    rewrite (bind_eq _ _ _ _ _ Hb).
  { eexists. split; [reflexivity | now left]. }
  all: unfold defer; eexists; split; [|right; reflexivity].
  all: unfold bind at 1.
  all: rewrite (bind_eq _ _ _ _ _ Hq); cbn [negb Z.eqb]; cbv iota.
  { unfold ret, bind. destruct (tx_Rollback w2). reflexivity. }
  all: rewrite (bind_eq _ _ _ _ _ Hr).
  { unfold ret, bind. destruct (tx_Rollback w2). reflexivity. }
  all: rewrite (bind_eq _ _ _ _ _ Hx).
  { unfold ret, bind. destruct (tx_Rollback w2). reflexivity. }
  all: rewrite (bind_eq _ _ _ _ _ Hi).
  { unfold ret, bind. destruct (tx_Rollback w2). reflexivity. }
  unfold bind at 1. destruct (fmt_Printf (success_message name) w5) as [u w5'].
  cbn [snd] in Hc. rewrite Hc.
  unfold ret, bind. destruct (tx_Rollback w2). reflexivity.
Qed.

Lemma migrate_run_aborted provided w e w' :
  (provided -> scripts_behave engine FS) ->
  migrate fault engine FS Quote w = (Some e, w') ->
  existsb is_begin (events w w') = true ->
  run_aborted provided fault engine FS Quote w e w'.
Proof.
  unfold migrate, bind. intros Hprov H Hb.
  destruct (db_Exec_cases fault create_migrations_sql w) as [[e0 E]|[_ E]];
    rewrite E in H.
  { unfold ret in H. injection H as <- <-.
    rewrite (events_app w _ [CExec create_migrations_sql]) in Hb by reflexivity.
    discriminate Hb. }
  destruct (fs_Glob fault FS "migration/*.sql"
              (with_disk (exec_autocommit create_migrations_sql (disk w))
                 (with_trace (trace w ++ [CExec create_migrations_sql])%list w)))
    as [[names|e1] w0] eqn:G.
  2:{ unfold ret in H. injection H as <- <-.
      unfold fs_Glob, bind, call, ret in G. destruct (fault _); [|discriminate G].
      injection G as _ <-.
      rewrite (events_app w _ [CExec create_migrations_sql; CGlob "migration/*.sql"]) in Hb
        by (unfold with_trace, with_disk; cbn [trace]; now rewrite <- app_assoc).
      discriminate Hb. }
  do 3 eexists. split; [exact E|]. split; [exact G|].
  split; [apply sort_Strings_sorted|].
  apply migrate_loop_failure; assumption.
Qed.

Lemma failing_step_returns wa wb names done name rest w w1 inner w2 :
  db_Exec fault create_migrations_sql w = (None, wa) ->
  fs_Glob fault FS "migration/*.sql" wa = (Ok names, wb) ->
  sort_Strings names = (done ++ name :: rest)%list ->
  migrate_loop fault engine FS Quote done wb = (None, w1) ->
  step_fails fault engine FS name w1 inner w2 ->
  exists w',
    migrate fault engine FS Quote w
    = (Some (migration_error Quote name inner), w') /\
    existsb is_begin (events w w') = true /\
    (w' = w2 \/ w' = snd (tx_Rollback w2)).
Proof.
  intros E G Hs Hd Hf.
  destruct (step_fails_returns _ _ _ _ Hf) as [w' [Hm Hw]].
  exists w'.
  pose proof (migrate_loop_stops fault engine FS Quote done name rest wb w1 inner w'
                Hd Hm) as Hl.
  split; [|split; [|exact Hw]].
  - unfold migrate. rewrite (bind_eq _ _ _ _ _ E), (bind_eq _ _ _ _ _ G), Hs.
    exact Hl.
  - destruct (migrate_loop_failure fault engine FS Quote False _ _ _ _
                (fun F => match F with end) Hl)
      as (done' & n & rest' & inner' & w1' & _ & Hdone' & Hfile' & _ & _ & _ & _
          & Hbegin & _).
    destruct (db_Exec_cases fault create_migrations_sql w) as [[e0 E0]|[_ E0]];
      rewrite E0 in E; [discriminate E|]. injection E as <-.
    unfold fs_Glob, bind, call, ret in G. destruct (fault _); [discriminate G|].
    injection G as _ <-.
    destruct (migrate_loop_success_trace _ _ _ _ _ _ _ Hdone') as [ev1 [Ht1 _]].
    destruct (file_run_trace _ _ _ _ _ _
                (eq_ind _ (fun p => file_run engine FS n w1' (fst p) (snd p))
                        (migrateFile_run fault engine FS n w1') _ Hfile'))
      as [ev2 [Ht2 _]]. cbn [fst snd] in Ht2.
    rewrite (events_app _ w' (ev1 ++ ev2)%list) in Hbegin
      by (rewrite Ht2, Ht1, app_assoc; reflexivity).
    rewrite (events_app w w' ([CExec create_migrations_sql; CGlob "migration/*.sql"]
                              ++ ev1 ++ ev2)%list).
    + rewrite existsb_app. apply (filter_length_existsb _ _ _) in Hbegin.
      rewrite Hbegin. apply orb_true_r.
    + rewrite Ht2, Ht1. unfold with_trace, with_disk. cbn [trace].
      now rewrite <- !app_assoc.
Qed.

End Abort.

(** C2, as stated, fails.  The second script of [committing_FS] creates a
    table, commits, and then fails on invalid SQL.  The run returns an
    error that names the script, and the script has no record; but the
    table it created before its COMMIT is committed: the rollback of
    [migrateFile] comes after the script has ended the transaction
    itself. *)
Lemma failed_script_leaves_effects :
  let w := initial_World [] in
  let run := migrate no_fault example_engine committing_FS quote_plain w in
  option_map Error (fst run)
  = Some ("migration error: name=" ++ quote_plain "migration/0002_bad.sql"
          ++ " err=near " ++ quote_plain "THIS" ++ ": syntax error") /\
  migrations (disk (snd run)) = Some ["migration/0001_init.sql"] /\
  schema (disk (snd run))
  = [Full "CREATE TABLE t(id INTEGER)"; Full "CREATE TABLE a(id INTEGER)"] /\
  ~ failure_contained True no_fault example_engine committing_FS quote_plain w.
Proof.
  split; [|split; [|split]]; try (vm_compute; reflexivity).
  intros [H _].
  assert (E : exists e w', migrate no_fault example_engine committing_FS quote_plain
                                   (initial_World []) = (Some e, w'))
    by (vm_compute; do 2 eexists; reflexivity).
  destruct E as [e [w' E]].
  destruct (H e w' E) as (wa & names & w0 & Ha & Hg & _ & Hab).
  { vm_compute in E. injection E as _ <-. vm_compute. reflexivity. }
  vm_compute in Ha. injection Ha as <-.
  vm_compute in Hg. injection Hg as <- <-.
  destruct Hab as (done & name & rest & inner & w1 & Hn & Hdone & Hfile & _ & _ & _
                   & _ & _ & _ & _ & Hclean).
  destruct (Hclean I) as [Hd _].
  vm_compute in E. injection E as _ <-.
  destruct done as [|a [|b done]].
  - vm_compute in Hn. injection Hn as <- <-.
    vm_compute in Hdone. injection Hdone as <-.
    vm_compute in Hfile. discriminate Hfile.
  - vm_compute in Hn. injection Hn as <- <- <-.
    vm_compute in Hdone. injection Hdone as <-.
    vm_compute in Hd. discriminate Hd.
  - vm_compute in Hn. injection Hn as _ _ Hn. destruct done; discriminate Hn.
Qed.

(** C2, amended.  Whichever step of a script fails (beginning the
    transaction, the check, reading or executing the script, inserting the
    record, the commit), the run of [migrate] ends there: it returns the
    error of the step wrapped with the quoted name of the script, no
    script further down the sorted list is checked or read, and one
    transaction was begun for each script before it and for the failing
    one; conversely a run that returns an error after beginning a
    transaction was aborted in this way.  Provided the scripts keep to the
    application schema, the transaction of the failing script leaves
    nothing in the committed state (no record, no partial effect) and the
    records of the scripts that went through before remain. *)
Theorem failing_script_aborts_run fault engine FS Quote w :
  failure_contained (scripts_behave engine FS) fault engine FS Quote w.
Proof.
  split.
  - intros e w'. apply migrate_run_aborted. auto.
  - intros wa wb names done name rest w1 inner w2.
    apply failing_step_returns.
Qed.

Lemma failing_script_aborts_run_witness :
  let w := initial_World [] in
  let run := migrate (fail_at 13) example_engine example_FS quote_plain w in
  (exists e, fst run = Some e /\
     run_aborted (scripts_behave example_engine example_FS)
                 (fail_at 13) example_engine example_FS quote_plain w e (snd run)) /\
  (exists w',
     run = (Some (migration_error quote_plain "migration/0002_add_col.sql"
                                  (errors_New "disk I/O error")), w') /\
     existsb is_begin (events w w') = true).
Proof.
  split.
  - eexists. split.
    + vm_compute. reflexivity.
    + apply (failing_script_aborts_run (fail_at 13) example_engine example_FS
               quote_plain (initial_World [])); vm_compute; reflexivity.
  - destruct (failing_script_aborts_run (fail_at 13) example_engine example_FS
                quote_plain (initial_World [])) as [_ H].
    edestruct H with (done := ["migration/0001_init.sql"])
                     (name := "migration/0002_add_col.sql")
                     (rest := ["migration/0010_later.sql"]) as [w' [E [B _]]].
    + vm_compute. reflexivity.
    + vm_compute. reflexivity.
    + vm_compute. reflexivity.
    + vm_compute. reflexivity.
    + eapply body_fails; vm_compute; reflexivity.
    + exists w'. split; [exact E | exact B].
Defined.

(** The atomicity scenario: the second script fails; the first is
    recorded, the second is not, and the error names it. *)
Example atomicity_scenario :
  let run := migrate (fail_at 13) example_engine example_FS quote_plain
                     (initial_World []) in
  migrations (disk (snd run)) = Some ["migration/0001_init.sql"] /\
  schema (disk (snd run)) = [Full "CREATE TABLE t(id INTEGER)"] /\
  option_map Error (fst run)
  = Some ("migration error: name=" ++ quote_plain "migration/0002_add_col.sql"
          ++ " err=disk I/O error").
Proof. vm_compute. repeat split. Qed.

(** The same scenario with a script that is not SQL: the engine itself
    rejects it, and the run ends in the same way. *)
Example invalid_script_scenario :
  let FS := [("migration/0001_init.sql", "CREATE TABLE t(id INTEGER)");
             ("migration/0002_bad.sql", "THIS IS NOT SQL")] in
  let run := migrate no_fault example_engine FS quote_plain (initial_World []) in
  migrations (disk (snd run)) = Some ["migration/0001_init.sql"] /\
  schema (disk (snd run)) = [Full "CREATE TABLE t(id INTEGER)"] /\
  option_map Error (fst run)
  = Some ("migration error: name=" ++ quote_plain "migration/0002_bad.sql"
          ++ " err=near " ++ quote_plain "THIS" ++ ": syntax error").
Proof. vm_compute. repeat split. Qed.
(** ** Running [migrate] again *)

Lemma exec_create_existing d rows :
  migrations d = Some rows -> exec_autocommit create_migrations_sql d = d.
Proof.
  intros H. unfold exec_autocommit. rewrite String.eqb_refl, H. reflexivity.
Qed.

Lemma exec_create_has_table d :
  has_table (exec_autocommit create_migrations_sql d).
Proof.
  unfold has_table, exec_autocommit. rewrite String.eqb_refl.
  destruct (migrations d) eqn:E; simpl; congruence.
Qed.



Section Rerun.
Variable FS : list (string * string).
Variable Quote : string -> string.

(** With scripts that keep to the application schema, a successful run
    leaves every script recorded. *)
Lemma migrate_success_recorded fault engine w w1 :
  scripts_behave engine FS ->
  migrate fault engine FS Quote w = (None, w1) ->
  all_recorded (sort_Strings (map fst FS)) (disk w1).
Proof.
  unfold migrate, bind. intros Hb H.
  destruct (db_Exec_cases fault create_migrations_sql w) as [[e E]|[_ E]];
    rewrite E in H; [discriminate H|].
  unfold fs_Glob, bind, call, ret in H. norm_world.
  destruct (fault _); [discriminate H|].
  pose proof (migrate_loop_invariant engine FS Quote has_table) as Hinv.
  specialize (Hinv (clean_run_invariant engine FS has_table Hb
                      (fun n b r d _ _ _ _ => ltac:(discriminate)))).
  match type of H with
  | migrate_loop ?f engine FS Quote ?ns ?w0 = _ =>
    specialize (Hinv f ns w0 (exec_create_has_table (disk w)));
    destruct (migrate_loop_success f engine FS Quote ns w0 w1 Hb H) as [Hall _]
  end.
  rewrite H in Hinv. cbn [snd] in Hinv.
  destruct (migrations (disk w1)) as [rows|] eqn:Hm; [|now elim Hinv].
  exists rows. split; [exact Hm|].
  intros m Hin. destruct (Hall m Hin) as [rows' [Hm' Hin']]. congruence.
Qed.

(** With every script recorded the loop only checks, whatever the
    engine. *)
Lemma migrate_loop_recorded fault engine names w :
  all_recorded names (disk w) ->
  let run := migrate_loop fault engine FS Quote names w in
  disk (snd run) = disk w /\ stdout (snd run) = stdout w /\
  exists ev, trace (snd run) = (trace w ++ ev)%list /\
             existsb is_apply_call ev = false.
Proof.
  revert w. induction names as [|name rest IH]; intros w [rows [Hm Hall]]; simpl.
  - repeat split. exists []. now rewrite app_nil_r.
  - unfold bind.
    pose proof (migrateFile_run fault engine FS name w) as R.
    destruct (migrateFile fault engine FS name w) as [r w1]. cbn [fst snd] in R.
    assert (Hin : In name rows) by (apply Hall; now left).
    destruct (file_run_recorded _ _ _ _ _ _ _ R Hm Hin) as [Hd [Hs [ev [Ht Hev]]]].
    destruct r as [e|]; unfold ret; cbn [fst snd].
    + repeat split; eauto.
    + destruct (IH w1) as [Hd' [Hs' [ev' [Ht' Hev']]]].
      { exists rows. rewrite Hd. split; [assumption|]. intros m Hm'. apply Hall. now right. }
      repeat split; try congruence.
      exists (ev ++ ev')%list. split.
      * rewrite Ht', Ht, app_assoc. reflexivity.
      * rewrite existsb_app, Hev, Hev'. reflexivity.
Qed.

Lemma migrateFile_recorded_no_fault fault engine name w :
  (forall t, fault t = None) -> recorded name (disk w) ->
  fst (migrateFile fault engine FS name w) = None.
Proof.
  intros Hf [rows [Hm Hin]].
  unfold migrateFile, defer, db_Begin, tx_QueryRow_Scan, bind, call, ret, modify.
  rewrite !Hf. step. cbn [seen fst snd]. rewrite Hm.
  assert (Hc : (count_rows name rows =? 0)%Z = false).
  { destruct (count_rows name rows =? 0)%Z eqn:E; [|reflexivity].
    apply count_rows_zero_iff in E. contradiction. }
  rewrite Hc. step. reflexivity.
Qed.

Lemma migrate_loop_recorded_no_fault fault engine names w :
  (forall t, fault t = None) -> all_recorded names (disk w) ->
  fst (migrate_loop fault engine FS Quote names w) = None.
Proof.
  intros Hf. revert w. induction names as [|name rest IH];
    intros w [rows [Hm Hall]]; simpl; [reflexivity|].
  unfold bind.
  assert (Hrec : recorded name (disk w))
    by (exists rows; split; [assumption | apply Hall; now left]).
  assert (Hrec1 : all_recorded [name] (disk w)).
  { exists rows. split; [assumption|]. intros m [<-|[]]. apply Hall. now left. }
  pose proof (migrateFile_recorded_no_fault fault engine name w Hf Hrec) as H0.
  pose proof (migrate_loop_recorded fault engine [name] w Hrec1) as H1.
  simpl in H1. unfold bind in H1.
  destruct (migrateFile fault engine FS name w) as [r w1]. cbn [fst snd] in H0.
  subst r. unfold ret in H1. cbn [fst snd] in H1.
  destruct H1 as [Hd _].
  apply IH. exists rows. rewrite Hd. split; [assumption|].
  intros m Hin. apply Hall. now right.
Qed.

Lemma recorded_rerun d :
  all_recorded (sort_Strings (map fst FS)) d -> rerun_is_noop FS Quote d.
Proof.
  intros Hrec fault engine w <-. destruct Hrec as [rows [Hm Hall]].
  assert (Hev : forall w', (exists ev, trace w' = (trace w ++ ev)%list /\
                   existsb is_apply_call ev = false) ->
                existsb is_apply_call (events w w') = false).
  { intros w' [ev [Ht He]]. now rewrite (events_app _ _ _ Ht). }
  unfold migrate, bind.
  destruct (db_Exec_cases fault create_migrations_sql w) as [[e E]|[F E]]; rewrite E.
  { unfold ret. cbn [fst snd]. norm_world. repeat split.
    - apply Hev. eexists. split; reflexivity.
    - intros Hf. unfold db_Exec, bind, call in E. rewrite Hf in E. discriminate E. }
  rewrite (exec_create_existing _ _ Hm).
  unfold fs_Glob, bind, call, ret. norm_world.
  destruct (fault (List.length (trace w ++ [CExec create_migrations_sql])%list)) eqn:F1.
  { cbn [fst snd]. norm_world. repeat split.
    - apply Hev. eexists. split; [now rewrite <- app_assoc | reflexivity].
    - intros Hf. rewrite Hf in F1. discriminate F1. }
  match goal with
  | |- context [migrate_loop fault engine FS Quote ?ns ?w0] =>
    assert (Hrec0 : all_recorded ns (disk w0)) by (exists rows; cbn [disk]; auto);
    destruct (migrate_loop_recorded fault engine ns w0 Hrec0) as [Hd [Hs [ev [Ht He]]]];
    pose proof (fun Hf => migrate_loop_recorded_no_fault fault engine ns w0 Hf Hrec0) as Hok
  end.
  cbn [disk stdout trace] in Hd, Hs, Ht.
  repeat split; auto.
  apply Hev. exists ([CExec create_migrations_sql; CGlob "migration/*.sql"] ++ ev)%list.
  split; [rewrite Ht, <- !app_assoc; reflexivity|].
  rewrite existsb_app, He. reflexivity.
Qed.

End Rerun.

(** C4, as stated, fails.  The second script of [erasing_FS] deletes the
    record of the first.  The first run succeeds and leaves the first
    script without a record; the second run finds it unrecorded, executes
    it again and inserts its record. *)
Lemma rerun_executes_erased_script :
  let w := initial_World [] in
  let run1 := migrate no_fault example_engine erasing_FS quote_plain w in
  let run2 := migrate no_fault example_engine erasing_FS quote_plain (snd run1) in
  fst run1 = None /\
  rows_of (disk (snd run1)) = ["migration/0002_reset.sql"] /\
  started (events (snd run1) (snd run2)) = ["migration/0001_init.sql"] /\
  rows_of (disk (snd run2))
  = ["migration/0002_reset.sql"; "migration/0001_init.sql"] /\
  ~ rerun_is_noop erasing_FS quote_plain (disk (snd run1)).
Proof.
  split; [|split; [|split; [|split]]]; try (vm_compute; reflexivity).
  intros H.
  destruct (H no_fault example_engine
              (snd (migrate no_fault example_engine erasing_FS quote_plain
                            (initial_World []))) eq_refl) as [Hd _].
  vm_compute in Hd. discriminate Hd.
Qed.

(** C4, amended.  Provided the scripts keep to the application schema,
    after a run of [migrate] that succeeded a further run on the database
    it left executes no script and inserts no record, leaves the
    committed state as it is, and succeeds (when no library call
    fails). *)
Theorem migrate_idempotent fault engine FS Quote w w1 :
  scripts_behave engine FS ->
  migrate fault engine FS Quote w = (None, w1) ->
  rerun_is_noop FS Quote (disk w1).
Proof.
  intros Hb H. apply recorded_rerun. eapply migrate_success_recorded; eauto.
Qed.

Lemma migrate_idempotent_witness :
  rerun_is_noop example_FS quote_plain
    (disk (snd (migrate no_fault example_engine example_FS quote_plain
                        (initial_World [])))).
Proof.
  apply (migrate_idempotent no_fault example_engine example_FS quote_plain
           (initial_World [])).
  - apply example_scripts_behave.
  - vm_compute. reflexivity.
Defined.

(** ** The bootstrap of the bookkeeping table *)


(** The bootstrap on a fresh file and on a file that has the table. *)
Example bootstrap_scenario :
  let boot := db_Exec no_fault create_migrations_sql in
  migrations (disk (initial_World [])) = None /\
  migrations (disk (snd (boot (initial_World [])))) = Some [] /\
  disk (snd (boot (snd (boot (initial_World []))))) = disk (snd (boot (initial_World []))).
Proof. vm_compute. repeat split. Qed.

(** ** Giving up after the pool is open *)

Lemma New_leaks fault engine FS Quote dsn w :
  fault (List.length (trace w)) = None ->
  snd (fst (New fault engine FS Quote dsn w)) <> None ->
  leaked w (fst (fst (New fault engine FS Quote dsn w)))
         (snd (New fault engine FS Quote dsn w)).
Proof.
  intros F Herr.
  destruct (New_facts engine FS Quote (fun _ => True) (fun _ _ _ => I)
              (fun _ _ _ _ => I) fault dsn w)
    as [_ [[ev [Ht Hev]] [_ H]]].
  rewrite F in H. destruct H as [Hp [Hc Hr]].
  unfold leaked. rewrite Hp, Hc, (events_app _ _ _ Ht).
  rewrite !nth_error_app2, !Nat.sub_diag by apply Nat.le_refl.
  destruct Hr as [Hr|[e Hr]]; rewrite Hr in *; cbn [fst snd] in *;
    [now elim Herr|].
  repeat split.
  clear - Hev. induction ev as [|c ev IH]; simpl in *; [reflexivity|].
  apply andb_true_iff in Hev. destruct Hev as [H1 H2].
  rewrite (IH H2). destruct (is_release c); [discriminate H1 | reflexivity].
Qed.

(** C9.  When [New] fails after the pool was opened (a pragma or the
    migration failed), it returns no handle, and it has neither closed
    the pool nor called the cancel function of its context: both stay
    open, out of reach of the caller. *)
Theorem New_failure_leaks_pool fault engine FS Quote dsn w :
  fault (List.length (trace w)) = None ->
  snd (fst (New fault engine FS Quote dsn w)) <> None ->
  leaked w (fst (fst (New fault engine FS Quote dsn w)))
         (snd (New fault engine FS Quote dsn w)).
Proof. apply New_leaks. Qed.

Lemma New_failure_leaks_pool_witness :
  let run := New (fail_at 7) example_engine example_FS quote_plain "data/example.db"
                 (initial_World []) in
  leaked (initial_World []) (fst (fst run)) (snd run).
Proof.
  apply (New_failure_leaks_pool (fail_at 7) example_engine example_FS quote_plain
           "data/example.db" (initial_World [])).
  - reflexivity.
  - vm_compute. discriminate.
Defined.
(** ** Close *)

Lemma nth_error_update_nth {A : Type} (i : nat) (f : A -> A) (l : list A) :
  nth_error (update_nth i f l) i = option_map f (nth_error l i).
Proof.
  revert i. induction l as [|x l IH]; intros [|i]; simpl; auto.
Qed.

Lemma update_nth_same {A : Type} (i : nat) (f : A -> A) (l : list A) x :
  nth_error l i = Some x -> f x = x -> update_nth i f l = l.
Proof.
  revert i. induction l as [|y l IH]; intros [|i]; simpl; intros H Hf;
    try discriminate; auto.
  - injection H as ->. now rewrite Hf.
  - now rewrite (IH i H Hf).
Qed.

Lemma Close_run fault s p c q b w :
  db s = Some p -> cancel s = Some c ->
  nth_error (pools w) p = Some q -> nth_error (ctxs w) c = Some b ->
  exists r w1,
    Close fault (Some s) w = (Returned r, w1) /\
    trace w1 = (trace w ++ [CCancel c; CClose p])%list /\
    (r, w1) = sql_Close fault p (snd (cancel_ctx c w)) /\
    nth_error (ctxs w1) c = Some true /\
    (exists q', nth_error (pools w1) p = Some q' /\ closed q' = true) /\
    disk w1 = disk w /\
    (closed q = true -> r = None /\ pools w1 = pools w) /\
    (b = true -> ctxs w1 = ctxs w).
Proof.
  intros Hdb Hcancel Hq Hb.
  assert (Hctx : nth_error (update_nth c (fun _ : bool => true) (ctxs w)) c = Some true)
    by (rewrite nth_error_update_nth, Hb; reflexivity).
  assert (Hsame : b = true -> update_nth c (fun _ : bool => true) (ctxs w) = ctxs w).
  { intros ->. now apply update_nth_same with true. }
  unfold Close. rewrite Hdb, Hcancel.
  unfold cancel_ctx, bind, emit, modify. step.
  unfold sql_Close. step. rewrite Hq.
  destruct (closed q) eqn:Hcl.
  - do 2 eexists. split; [reflexivity|]. cbn [trace ctxs pools disk].
    split; [now rewrite <- app_assoc|]. split; [reflexivity|].
    split; [exact Hctx|]. split; [exists q; auto|]. split; [reflexivity|].
    split; auto.
  - unfold bind, call, update_pool, modify, ret. step.
    do 2 eexists. split; [reflexivity|]. cbn [trace ctxs pools disk].
    split; [now rewrite <- app_assoc|]. split; [reflexivity|].
    split; [exact Hctx|].
    split; [eexists; split; [rewrite nth_error_update_nth, Hq; reflexivity | reflexivity]|].
    split; [reflexivity|]. split; [discriminate | exact Hsame].
Qed.

Lemma Close_twice fault1 fault2 h w :
  valid_handle h w -> closes_twice fault1 fault2 h w.
Proof.
  destruct h as [s|]; simpl; [|reflexivity].
  intros [p [c [Hdb [Hcancel [Hp Hc]]]]].
  destruct (nth_error (pools w) p) as [q|] eqn:Hq;
    [|apply nth_error_None in Hq; lia].
  destruct (nth_error (ctxs w) c) as [b|] eqn:Hb;
    [|apply nth_error_None in Hb; lia].
  destruct (Close_run fault1 s p c q b w Hdb Hcancel Hq Hb)
    as (r & w1 & E1 & Ht1 & Hr1 & Hc1 & [q' [Hq' Hcl']] & _ & _ & _).
  destruct (Close_run fault2 s p c q' true w1 Hdb Hcancel Hq' Hc1)
    as (r2 & w2 & E2 & _ & _ & _ & _ & Hd2 & Hp2 & Hc2).
  destruct (Hp2 Hcl') as [-> Hp2'].
  exists p, c, r, w1, w2. repeat split; auto.
  - now apply events_app.
  - exists q'. auto.
Qed.

(** Every handle [New] returns is valid in the world it leaves. *)
Lemma New_handle_valid fault engine FS Quote dsn w :
  valid_handle (fst (fst (New fault engine FS Quote dsn w))) (snd (New fault engine FS Quote dsn w)).
Proof.
  destruct (New_facts engine FS Quote (fun _ => True) (fun _ _ _ => I)
              (fun _ _ _ _ => I) fault dsn w)
    as [_ [_ [_ H]]].
  destruct (fault (List.length (trace w))).
  - destruct H as [-> _]. exact I.
  - destruct H as [Hp [Hc [->|[e ->]]]]; cbn [fst snd valid_handle]; [|exact I].
    do 2 eexists. repeat split; rewrite ?Hp, ?Hc, length_app; simpl; lia.
Qed.

(** C7.  [Close] on a nil handle returns nil; on a handle whose pool and
    context exist (every handle [New] returns) it cancels the context,
    then closes the pool and returns the result of closing the pool; a
    second [Close] on the same handle returns nil.  No call panics. *)
Theorem Close_total_idempotent fault1 fault2 h w :
  valid_handle h w -> closes_twice fault1 fault2 h w.
Proof. apply Close_twice. Qed.

Lemma Close_total_idempotent_witness :
  let run := New no_fault example_engine example_FS quote_plain "data/example.db" (initial_World []) in
  closes_twice (fail_at 38) no_fault (fst (fst run)) (snd run).
Proof.
  apply Close_total_idempotent. apply New_handle_valid.
Defined.

(** [Close] on the nil handle of a failed [New]. *)
Example Close_after_failed_New :
  let run := New (fail_at 0) example_engine example_FS quote_plain "data/example.db" (initial_World []) in
  fst (fst run) = None /\
  Close no_fault (fst (fst run)) (snd run) = (Returned None, snd run).
Proof. vm_compute. split; reflexivity. Qed.

(** [Close] returns what closing the pool returned. *)
Example Close_returns_pool_error :
  let run := New no_fault example_engine example_FS quote_plain "data/example.db" (initial_World []) in
  fst (Close (fail_at 38) (fst (fst run)) (snd run))
  = Returned (Some (errors_New "disk I/O error")).
Proof. vm_compute. reflexivity. Qed.

(** ** Construction and the process environment *)

Lemma env_blind_ret {A : Type} (a : A) : env_blind (ret a).
Proof. intros v w. reflexivity. Qed.

Lemma env_blind_bind {A B : Type} (m : M A) (k : A -> M B) :
  env_blind m -> (forall a, env_blind (k a)) -> env_blind (bind m k).
Proof.
  intros Hm Hk v w. unfold bind. rewrite Hm.
  destruct (m w) as [a w1]. cbn [fst snd]. apply Hk.
Qed.

Lemma bind_ret {A B : Type} (a : A) (k : A -> M B) (w : World) :
  bind (ret a) k w = k a w.
Proof. reflexivity. Qed.

Lemma bind_blind {A B : Type} (m : M A) (k : A -> M B) v w :
  env_blind m ->
  bind m k (with_environ v w) = k (fst (m w)) (with_environ v (snd (m w))).
Proof. intros Hm. unfold bind. now rewrite Hm. Qed.

Section Blind.
Variable fault : nat -> option error.
Variable engine : Engine.
Variable FS : list (string * string).
Variable Quote : string -> string.

Ltac prim_blind :=
  let v := fresh "v" in
  intros v [? ? ? ? ? ? ?];
  cbv [emit call sqlx_Connect context_WithCancel SetMaxOpenConns SetMaxIdleConns
       SetConnMaxIdleTime SetConnMaxLifetime update_pool db_Exec fs_Glob
       fs_ReadFile db_Begin tx_QueryRow_Scan tx_Exec fmt_Printf tx_Commit
       tx_Rollback bind ret modify with_environ with_trace with_txn with_disk
       with_pools with_ctxs with_stdout environ disk txn pools ctxs stdout
       trace fst snd];
  repeat match goal with
         | |- context [match ?x with _ => _ end] => destruct x
         end;
  reflexivity.

Lemma env_blind_emit c : env_blind (emit c).
Proof. prim_blind. Qed.

Lemma env_blind_call c : env_blind (call fault c).
Proof. prim_blind. Qed.

Lemma env_blind_sqlx_Connect driver dsn : env_blind (sqlx_Connect fault driver dsn).
Proof. prim_blind. Qed.

Lemma env_blind_context_WithCancel : env_blind (context_WithCancel).
Proof. prim_blind. Qed.

Lemma env_blind_SetMaxOpenConns p n : env_blind (SetMaxOpenConns p n).
Proof. prim_blind. Qed.

Lemma env_blind_SetMaxIdleConns p n : env_blind (SetMaxIdleConns p n).
Proof. prim_blind. Qed.

Lemma env_blind_SetConnMaxIdleTime p d : env_blind (SetConnMaxIdleTime p d).
Proof. prim_blind. Qed.

Lemma env_blind_SetConnMaxLifetime p d : env_blind (SetConnMaxLifetime p d).
Proof. prim_blind. Qed.

Lemma env_blind_db_Exec sql : env_blind (db_Exec fault sql).
Proof. prim_blind. Qed.

Lemma env_blind_fs_Glob pattern : env_blind (fs_Glob fault FS pattern).
Proof. prim_blind. Qed.

Lemma env_blind_fs_ReadFile name : env_blind (fs_ReadFile fault FS name).
Proof. prim_blind. Qed.

Lemma env_blind_db_Begin : env_blind (db_Begin fault).
Proof. prim_blind. Qed.

Lemma env_blind_tx_QueryRow_Scan sql arg : env_blind (tx_QueryRow_Scan fault sql arg).
Proof. prim_blind. Qed.

Lemma env_blind_tx_Exec sql args : env_blind (tx_Exec fault engine sql args).
Proof. prim_blind. Qed.

Lemma env_blind_fmt_Printf text : env_blind (fmt_Printf text).
Proof. prim_blind. Qed.

Lemma env_blind_tx_Commit : env_blind (tx_Commit fault).
Proof. prim_blind. Qed.

Lemma env_blind_tx_Rollback : env_blind (tx_Rollback).
Proof. prim_blind. Qed.

Ltac blind :=
  repeat first
    [ apply env_blind_ret
    | apply env_blind_db_Begin
    | apply env_blind_tx_QueryRow_Scan
    | apply env_blind_fs_ReadFile
    | apply env_blind_tx_Exec
    | apply env_blind_fmt_Printf
    | apply env_blind_tx_Commit
    | apply env_blind_tx_Rollback
    | apply env_blind_db_Exec
    | apply env_blind_fs_Glob
    | apply env_blind_bind; [|intros ?]
    | match goal with
      | |- env_blind (match ?x with _ => _ end) => destruct x
      end ].

Lemma env_blind_migrateFile name : env_blind (migrateFile fault engine FS name).
Proof. unfold migrateFile, defer. blind. Qed.

Lemma env_blind_migrate_loop names : env_blind (migrate_loop fault engine FS Quote names).
Proof.
  induction names as [|name rest IH]; simpl; [apply env_blind_ret|].
  apply env_blind_bind; [apply env_blind_migrateFile|].
  intros [e|]; [apply env_blind_ret | exact IH].
Qed.

Lemma env_blind_migrate : env_blind (migrate fault engine FS Quote).
Proof.
  unfold migrate.
  apply env_blind_bind; [apply env_blind_db_Exec|]. intros [e|]; [apply env_blind_ret|].
  apply env_blind_bind; [apply env_blind_fs_Glob|]. intros [names|e];
    [apply env_blind_migrate_loop | apply env_blind_ret].
Qed.

Ltac lockstep H a :=
  rewrite !(bind_blind _ _ _ _ H);
  match goal with
  | |- context [with_environ _ (snd (?m ?w0))] =>
    let w1 := fresh "w" in
    destruct (m w0) as [a w1]; cbn [fst snd]
  end.

Lemma New_same_setting dsn w env1 env2 :
  same_replication_setting env1 env2 ->
  same_run_up_to_environ (New fault engine FS Quote dsn (with_environ env1 w))
                         (New fault engine FS Quote dsn (with_environ env2 w)).
Proof.
  intros Hsame. unfold New, same_run_up_to_environ.
  lockstep (env_blind_sqlx_Connect "sqlite3" dsn) c.
  destruct c as [sqlxDB|e]; [|split; reflexivity].
  lockstep env_blind_context_WithCancel cc.
  lockstep (env_blind_SetMaxOpenConns sqlxDB 25) u1.
  lockstep (env_blind_SetMaxIdleConns sqlxDB 25) u2.
  lockstep (env_blind_SetConnMaxIdleTime sqlxDB (5 * minute)) u3.
  lockstep (env_blind_SetConnMaxLifetime sqlxDB (2 * hour)) u4.
  lockstep (env_blind_db_Exec "PRAGMA journal_mode = wal;") e1.
  destruct e1 as [e|]; [split; reflexivity|].
  lockstep (env_blind_db_Exec "PRAGMA synchronous = NORMAL;") e2.
  destruct e2 as [e|]; [split; reflexivity|].
  lockstep (env_blind_db_Exec "PRAGMA foreign_keys = ON;") e3.
  destruct e3 as [e|]; [split; reflexivity|].
  lockstep (env_blind_db_Exec "PRAGMA busy_timeout = 5000;") e4.
  destruct e4 as [e|]; [split; reflexivity|].
  rewrite !(bind_eq _ _ _ _ _ (os_Getenv_run _ _)).
  cbn [environ with_environ]. unfold same_replication_setting in Hsame.
  rewrite Hsame.
  repeat change (trace (with_environ ?v ?w0)) with (trace w0).
  repeat change (with_trace ?t (with_environ ?v ?w0))
    with (with_environ v (with_trace t w0)).
  destruct (negb _).
  - lockstep (env_blind_db_Exec "PRAGMA wal_autocheckpoint = 0;") e5.
    destruct e5 as [e|]; [split; reflexivity|].
    lockstep env_blind_migrate e6.
    destruct e6 as [e|]; split; reflexivity.
  - rewrite !bind_ret.
    lockstep env_blind_migrate e6.
    destruct e6 as [e|]; split; reflexivity.
Qed.

End Blind.

(** C6, as stated, fails: with the same database, the same DSN and no
    failure, [New] applies a different set of engine settings when the
    variable LITESTREAM_ACCESS_KEY is set in the process environment. *)
Lemma New_reads_environment : ~ environment_independent.
Proof.
  intros H.
  specialize (H no_fault example_engine example_FS quote_plain "data/example.db" (initial_World [])
                [] [("LITESTREAM_ACCESS_KEY", "key")]).
  destruct H as [_ H]. vm_compute in H. discriminate H.
Qed.

(** C6, amended.  [New] reads the process environment itself, and only
    to see whether LITESTREAM_ACCESS_KEY is empty: under two environments
    that agree on that, it returns the same result and leaves the same
    world. *)
Theorem New_depends_on_replication_variable fault engine FS Quote dsn w env1 env2 :
  same_replication_setting env1 env2 ->
  same_run_up_to_environ (New fault engine FS Quote dsn (with_environ env1 w))
                         (New fault engine FS Quote dsn (with_environ env2 w)).
Proof. apply New_same_setting. Qed.

Lemma New_depends_on_replication_variable_witness :
  same_run_up_to_environ
    (New no_fault example_engine example_FS quote_plain "data/example.db"
         (with_environ [("LITESTREAM_ACCESS_KEY", "key")] (initial_World [])))
    (New no_fault example_engine example_FS quote_plain "data/example.db"
         (with_environ [("HOME", "/root"); ("LITESTREAM_ACCESS_KEY", "other")]
                       (initial_World []))).
Proof.
  apply New_depends_on_replication_variable. reflexivity.
Defined.

(** ** The errors of the pragmas *)

(** C5.  The code at the failing inputs: when the synchronous pragma, the
    busy-timeout pragma or the auto-checkpoint pragma fails, [New] returns
    no handle and the very error it returns when the foreign-keys pragma
    fails, labelled [foreign keys pragma]; only the write-ahead-log pragma
    has a label of its own. *)
Theorem pragma_failures_share_one_label engine FS Quote dsn :
  let err := errors_New "disk I/O error" in
  let report := (@None Sqlite, Some (Errorf_w "foreign keys pragma: " err)) in
  let run := fun k => New (fail_at k) engine FS Quote dsn (initial_World replicated_env) in
  (fst (run 6) = (None, Some (Errorf_w "enable wal: " err)) /\
   last_call (snd (run 6)) = Some (CExec "PRAGMA journal_mode = wal;")) /\
  (fst (run 7) = report /\
   last_call (snd (run 7)) = Some (CExec "PRAGMA synchronous = NORMAL;")) /\
  (fst (run 8) = report /\
   last_call (snd (run 8)) = Some (CExec "PRAGMA foreign_keys = ON;")) /\
  (fst (run 9) = report /\
   last_call (snd (run 9)) = Some (CExec "PRAGMA busy_timeout = 5000;")) /\
  (fst (run 11) = report /\
   last_call (snd (run 11)) = Some (CExec "PRAGMA wal_autocheckpoint = 0;")) /\
  Error (Errorf_w "foreign keys pragma: " err) = "foreign keys pragma: disk I/O error".
Proof. repeat split. Qed.
(** * Further properties *)

(** X1.  When no library call fails and the scripts run to their end
    within the application schema, [migrate] succeeds from any state of
    the database and applies exactly the scripts that have no record yet,
    in ascending order of name: their records and effects are appended,
    one success message each, and nothing else changes. *)
Theorem migrate_brings_up_to_date fault engine FS Quote w :
  (forall t, fault t = None) -> scripts_run engine FS -> NoDup (map fst FS) ->
  brought_up_to_date fault engine FS Quote w.
Proof. intros Hf Hr Hnd. now apply migrate_no_fault. Qed.

Lemma migrate_brings_up_to_date_witness :
  brought_up_to_date no_fault example_engine example_FS quote_plain
    (snd (migrate (fail_at 13) example_engine example_FS quote_plain
                  (initial_World []))).
Proof.
  apply migrate_brings_up_to_date.
  - reflexivity.
  - apply example_scripts_run.
  - repeat constructor; simpl; intuition discriminate.
Defined.

(** ** What every run keeps *)

Lemma extended_by_refl {A : Type} (l : list A) : extended_by l l.
Proof. exists []. now rewrite app_nil_r. Qed.

Lemma extended_by_app {A : Type} (l l' t : list A) :
  extended_by l l' -> extended_by l (l' ++ t)%list.
Proof. intros [s ->]. exists (s ++ t)%list. now rewrite app_assoc. Qed.

Lemma grown_from_refl d : grown_from d d.
Proof.
  split; [|split; [|split]]; auto using extended_by_refl.
Qed.

Lemma grown_from_exec d0 sql d :
  grown_from d0 d -> grown_from d0 (exec_autocommit sql d).
Proof.
  intros H. pose proof H as [Hr [Hs [Hp Ht]]]. unfold exec_autocommit.
  destruct (String.eqb sql create_migrations_sql).
  - destruct (migrations d) eqn:Hm; [exact H|].
    unfold grown_from, rows_of in *. rewrite Hm in Hr. cbn [migrations schema pragmas].
    split; [|split; [|split]]; try assumption. discriminate.
  - destruct (String.prefix "PRAGMA" sql); unfold grown_from, rows_of in *;
      cbn [migrations schema pragmas]; (split; [|split; [|split]]); try assumption;
      now apply extended_by_app.
Qed.

Lemma grown_from_applied d0 name body rows d :
  migrations d = Some rows ->
  grown_from d0 d -> grown_from d0 (applied name body rows d).
Proof.
  intros Hm [Hr [Hs [Hp Ht]]]. unfold grown_from, rows_of in *.
  rewrite Hm in Hr. cbn [applied migrations schema pragmas].
  split; [|split; [|split]]; try assumption; try discriminate;
    now apply extended_by_app.
Qed.

Lemma grown_from_file d0 fault engine FS name w :
  scripts_behave engine FS ->
  grown_from d0 (disk w) ->
  grown_from d0 (disk (snd (migrateFile fault engine FS name w))).
Proof.
  intros Hb. apply (clean_run_invariant engine FS (grown_from d0) Hb).
  intros. now apply grown_from_applied.
Qed.

(** X2.  Provided the scripts keep to the application schema, no run of
    [New] or of [migrate], however it ends, removes or changes a record,
    an applied effect or a setting: the committed state it leaves is the
    one it found with rows, effects and settings appended, and a
    bookkeeping table that exists stays. *)
Theorem committed_state_only_grows fault engine FS Quote dsn w :
  scripts_behave engine FS ->
  grown_from (disk w) (disk (snd (New fault engine FS Quote dsn w))) /\
  grown_from (disk w) (disk (snd (migrate fault engine FS Quote w))).
Proof.
  intros Hb. split.
  - apply (New_facts engine FS Quote (grown_from (disk w))).
    + intros. now apply grown_from_exec.
    + intros. now apply grown_from_file.
    + apply grown_from_refl.
  - apply (migrate_invariant engine FS Quote (grown_from (disk w))).
    + intros. now apply grown_from_exec.
    + intros. now apply grown_from_file.
    + apply grown_from_refl.
Qed.

Lemma committed_state_only_grows_witness :
  let w := snd (migrate (fail_at 13) example_engine example_FS quote_plain
                        (initial_World [])) in
  grown_from (disk w)
    (disk (snd (New (fail_at 20) example_engine example_FS quote_plain
                    "data/example.db" w))) /\
  grown_from (disk w)
    (disk (snd (migrate (fail_at 20) example_engine example_FS quote_plain w))).
Proof.
  apply committed_state_only_grows. apply example_scripts_behave.
Defined.

(** ** The already-applied check *)

Lemma migrateFile_skips fault engine FS name w rows :
  migrations (disk w) = Some rows -> In name rows ->
  fault (List.length (trace w)) = None ->
  fault (S (List.length (trace w))) = None ->
  migrateFile fault engine FS name w
  = (None, after w (ev_check name) (disk w) (stdout w)).
Proof.
  intros Hm Hin F0 F1.
  unfold migrateFile, defer, db_Begin, bind, call, ret, modify.
  rewrite F0. step.
  unfold tx_QueryRow_Scan, bind, call, ret. step.
  rewrite length_app. cbn [List.length]. rewrite Nat.add_1_r, F1.
  step. cbn [seen fst snd]. rewrite Hm.
  assert (Hc : (count_rows name rows =? 0)%Z = false).
  { destruct (count_rows name rows =? 0)%Z eqn:E; [|reflexivity].
    apply count_rows_zero_iff in E. contradiction. }
  rewrite Hc. step.
  rewrite tx_Rollback_run. unfold after, ev_check. norm_world.
  now rewrite <- !app_assoc.
Qed.

(** X3.  A script that has its record is never applied again: whatever
    the engine and whatever fails, [migrateFile] begins a transaction,
    makes the check and rolls back; it reads, executes, announces and
    commits nothing, and it returns nil unless beginning the transaction
    or the check itself fails. *)
Theorem recorded_script_is_only_checked fault engine FS name w :
  recorded name (disk w) ->
  only_checked fault name w (snd (migrateFile fault engine FS name w))
                            (fst (migrateFile fault engine FS name w)).
Proof.
  intros [rows [Hm Hin]].
  pose proof (migrateFile_skips fault engine FS name w rows Hm Hin) as Hskip.
  pose proof (migrateFile_run fault engine FS name w) as R.
  destruct (migrateFile fault engine FS name w) as [r w']. cbn [fst snd] in *.
  destruct (file_run_recorded _ _ _ _ _ _ _ R Hm Hin) as [Hd [Hs [ev [Ht Hev]]]].
  unfold only_checked.
  split; [exact Hd|]. split; [exact Hs|].
  split; [rewrite (events_app _ _ _ Ht); exact Hev|]. split.
  - inversion R; subst;
      try (match goal with
           | Hm' : migrations (disk w) = Some ?rs, Hn : ~ In name ?rs |- _ =>
             rewrite Hm in Hm'; injection Hm' as <-; contradiction
           end);
      [left | right | right]; now apply events_app.
  - intros F0 F1. specialize (Hskip F0 F1). injection Hskip as -> ->.
    split; [reflexivity | now apply events_app].
Qed.

Lemma recorded_script_is_only_checked_witness :
  let w := snd (migrate no_fault example_engine example_FS quote_plain
                        (initial_World [])) in
  let run := migrateFile (fail_at 29) example_engine example_FS
                         "migration/0002_add_col.sql" w in
  only_checked (fail_at 29) "migration/0002_add_col.sql" w (snd run) (fst run).
Proof.
  apply recorded_script_is_only_checked.
  eexists. split; [vm_compute; reflexivity | simpl; auto].
Defined.

(** ** Transactions *)

Lemma migrate_loop_txn fault engine FS Quote names w :
  txn w = None -> txn (snd (migrate_loop fault engine FS Quote names w)) = None.
Proof.
  revert w. induction names as [|name rest IH]; intros w H; simpl; [exact H|].
  unfold bind.
  pose proof (migrateFile_run fault engine FS name w) as R.
  destruct (migrateFile fault engine FS name w) as [[e|] w1]; cbn [fst snd] in *.
  - eapply file_run_txn; eauto.
  - apply IH. eapply file_run_txn; eauto.
Qed.

(** X4.  [migrateFile] and [migrate] end every transaction they begin:
    started without an open transaction they return without one, whether
    they succeed or fail, and the last call of a [migrateFile] that began
    a transaction is the deferred rollback. *)
Theorem no_transaction_left_open fault engine FS Quote name w :
  txn w = None ->
  txn (snd (migrateFile fault engine FS name w)) = None /\
  txn (snd (migrate fault engine FS Quote w)) = None /\
  (events w (snd (migrateFile fault engine FS name w)) = [CBegin] \/
   exists ev, events w (snd (migrateFile fault engine FS name w))
              = (ev ++ [CRollback])%list).
Proof.
  intros H.
  pose proof (migrateFile_run fault engine FS name w) as R.
  split; [eapply file_run_txn; eauto|]. split.
  - unfold migrate, bind.
    destruct (db_Exec_cases fault create_migrations_sql w) as [[e E]|[_ E]]; rewrite E.
    { exact H. }
    unfold fs_Glob, bind, call, ret. norm_world.
    destruct (fault _); [exact H|].
    apply migrate_loop_txn. exact H.
  - inversion R; subst;
      match goal with
      | |- context [events w ?w1] =>
        match w1 with
        | with_trace (_ ++ ?ev)%list _ => rewrite (events_app w w1 ev) by reflexivity
        | after _ ?ev _ _ => rewrite (events_app w w1 ev) by reflexivity
        end
      end;
      [left; reflexivity | right ..];
      unfold ev_check, ev_read, ev_body, ev_insert, ev_commit;
      [ exists [CBegin; CQueryRow count_sql name]
      | exists [CBegin; CQueryRow count_sql name]
      | exists [CBegin; CQueryRow count_sql name; CReadFile name]
      | exists [CBegin; CQueryRow count_sql name; CReadFile name; CTxExec body []]
      | exists [CBegin; CQueryRow count_sql name; CReadFile name; CTxExec body [];
                CTxExec insert_sql [name]]
      | exists [CBegin; CQueryRow count_sql name; CReadFile name; CTxExec body [];
                CTxExec insert_sql [name]; CPrintf (success_message name); CCommit]
      | exists [CBegin; CQueryRow count_sql name; CReadFile name; CTxExec body [];
                CTxExec insert_sql [name]; CPrintf (success_message name); CCommit] ];
      reflexivity.
Qed.

Lemma no_transaction_left_open_witness :
  let w := bootstrapped_World in
  txn (snd (migrateFile (fail_at 3) example_engine example_FS
                        "migration/0001_init.sql" w)) = None /\
  txn (snd (migrate (fail_at 3) example_engine example_FS quote_plain w)) = None /\
  (events w (snd (migrateFile (fail_at 3) example_engine example_FS
                              "migration/0001_init.sql" w))
   = [CBegin] \/
   exists ev, events w (snd (migrateFile (fail_at 3) example_engine example_FS
                                         "migration/0001_init.sql" w))
              = (ev ++ [CRollback])%list).
Proof.
  apply (no_transaction_left_open (fail_at 3) example_engine example_FS quote_plain).
  reflexivity.
Defined.

(** ** Messages and records *)

Lemma clean_run_announced FS name w r w' :
  clean_run FS name w r w' ->
  (rows_of (disk w') = rows_of (disk w) /\ stdout w' = stdout w) \/
  (rows_of (disk w') = rows_of (disk w) /\ r <> None /\
   stdout w' = (stdout w ++ [success_message name])%list) \/
  (rows_of (disk w') = (rows_of (disk w) ++ [name])%list /\ r = None /\
   stdout w' = (stdout w ++ [success_message name])%list).
Proof.
  intros R. inversion R; subst; cbn [after disk stdout with_trace]; auto.
  - right. left. repeat split. discriminate.
  - right. right. unfold rows_of. cbn [applied migrations].
    match goal with H : migrations (disk w) = Some _ |- _ => rewrite H end.
    auto.
Qed.

Lemma migrate_loop_announced fault engine FS Quote names w :
  scripts_behave engine FS ->
  announced_as_recorded w (snd (migrate_loop fault engine FS Quote names w))
                        (fst (migrate_loop fault engine FS Quote names w)).
Proof.
  intros Hb. revert w. induction names as [|name rest IH]; intros w; simpl.
  - exists [], []. rewrite !app_nil_r. auto.
  - unfold bind.
    pose proof (migrateFile_clean fault engine FS name w Hb) as R.
    destruct (migrateFile fault engine FS name w) as [r w1]. cbn [fst snd] in R.
    destruct (clean_run_announced _ _ _ _ _ R)
      as [[Hr Ho]|[[Hr [Hn Ho]]|[Hr [Hn Ho]]]].
    + destruct r as [e|].
      * unfold ret. cbn [fst snd]. exists [], []. rewrite !app_nil_r. auto.
      * destruct (IH w1) as [new [extra [Hr' [Ho' Hx]]]].
        exists new, extra. rewrite Hr', Ho', Hr, Ho. auto.
    + destruct r as [e|]; [|now elim Hn].
      unfold ret. cbn [fst snd]. exists [], [name]. rewrite app_nil_r.
      repeat split; auto. right. split; [eauto | discriminate].
    + subst r. destruct (IH w1) as [new [extra [Hr' [Ho' Hx]]]].
      exists (name :: new), extra. rewrite Hr', Ho', Hr, Ho.
      rewrite <- !app_assoc. auto.
Qed.

(** X5.  Provided the scripts keep to the application schema, in any run
    of [migrate] the success messages written are those of the scripts
    the run has recorded, in the order of their records, followed by at
    most one message of a script that is not recorded; that extra message
    appears only in a run that returns an error. *)
Theorem messages_follow_records fault engine FS Quote w :
  scripts_behave engine FS ->
  announced_as_recorded w (snd (migrate fault engine FS Quote w))
                        (fst (migrate fault engine FS Quote w)).
Proof.
  intros Hb. unfold migrate, bind.
  destruct (db_Exec_cases fault create_migrations_sql w) as [[e E]|[_ E]]; rewrite E.
  { unfold ret. cbn [fst snd]. exists [], []. norm_world. rewrite !app_nil_r. auto. }
  unfold fs_Glob, bind, call, ret. norm_world.
  assert (Hrows : rows_of (exec_autocommit create_migrations_sql (disk w))
                  = rows_of (disk w)).
  { unfold exec_autocommit, rows_of. rewrite String.eqb_refl.
    destruct (migrations (disk w)) eqn:Hm; [now rewrite Hm | reflexivity]. }
  destruct (fault _).
  { cbn [fst snd]. exists [], []. cbn [disk stdout]. rewrite Hrows, !app_nil_r. auto. }
  match goal with
  | |- context [migrate_loop fault engine FS Quote ?ns ?w0] =>
    destruct (migrate_loop_announced fault engine FS Quote ns w0 Hb)
      as [new [extra [Hr [Ho Hx]]]]
  end.
  cbn [disk stdout] in Hr, Ho. rewrite Hrows in Hr.
  exists new, extra. auto.
Qed.

Lemma messages_follow_records_witness :
  let w := initial_World [] in
  let run := migrate (fail_at 16) example_engine example_FS quote_plain w in
  announced_as_recorded w (snd run) (fst run).
Proof.
  apply messages_follow_records. apply example_scripts_behave.
Defined.

(** ** The outcomes of [New] *)

Lemma migrate_error_shape fault engine FS Quote w e w' :
  migrate fault engine FS Quote w = (Some e, w') -> migrate_error fault FS Quote e.
Proof.
  unfold migrate, bind. intros H.
  destruct (db_Exec_cases fault create_migrations_sql w) as [[e0 E]|[_ E]];
    rewrite E in H.
  { unfold ret in H. injection H as <- _. left. eauto. }
  unfold fs_Glob, bind, call, ret in H.
  match type of H with
  | context [fault ?t] => destruct (fault t) as [e1|] eqn:F
  end.
  { injection H as <- _. right. left. eauto. }
  destruct (migrate_loop_failure fault engine FS Quote False _ _ _ _
              (fun F => match F with end) H)
    as (done & name & rest & inner & w1 & Hn & _ & _ & He & _).
  right. right. exists name, inner. split; [|exact He].
  eapply Permutation_in; [apply Permutation_sym, sort_Strings_perm|].
  rewrite Hn. apply in_or_app. right. now left.
Qed.

Lemma migrate_keeps_pragmas fault engine FS Quote w :
  scripts_behave engine FS ->
  pragmas (disk (snd (migrate fault engine FS Quote w))) = pragmas (disk w).
Proof.
  intros Hb. unfold migrate, bind.
  destruct (db_Exec_cases fault create_migrations_sql w) as [[e E]|[_ E]]; rewrite E.
  { reflexivity. }
  assert (Hp : pragmas (exec_autocommit create_migrations_sql (disk w))
               = pragmas (disk w)).
  { unfold exec_autocommit. rewrite String.eqb_refl.
    destruct (migrations (disk w)); reflexivity. }
  unfold fs_Glob, bind, call, ret. norm_world.
  destruct (fault _); [exact Hp|].
  apply (migrate_loop_invariant engine FS Quote (fun d => pragmas d = pragmas (disk w)));
    [|exact Hp].
  apply (clean_run_invariant engine FS (fun d => pragmas d = pragmas (disk w)) Hb).
  intros; assumption.
Qed.

Section Outcome.
Variable fault : nat -> option error.
Variable engine : Engine.
Variable FS : list (string * string).
Variable Quote : string -> string.

Ltac exec_or_fail label :=
match goal with
| |- context [bind (db_Exec ?f ?sql) _ ?w1] =>
  let e := fresh "e" in
  let E := fresh "E" in
  destruct (db_Exec_cases f sql w1) as [[e E]|[_ E]];
  rewrite (bind_eq _ _ _ _ _ E); norm_world;
  [left; exists label, e; split; [reflexivity | now auto] | clear E]
end.

(** [New] after the connection is open: it fails under one of the two
  pragma labels, or it reaches [migrate] with the pool and the context
  set up and the settings applied, and ends as [migrate] ends. *)
Lemma New_after_connect dsn w :
fault (List.length (trace w)) = None ->
(exists label cause,
   fst (New fault engine FS Quote dsn w) = (None, Some (Errorf_w label cause)) /\
   (label = "enable wal: " \/ label = "foreign keys pragma: ")) \/
(exists w5,
   disk w5 = mkDB (migrations (disk w)) (schema (disk w))
                  (pragmas (disk w) ++ New_pragmas (environ w))%list /\
   pools w5 = (pools w ++ [configured_Pool])%list /\
   ctxs w5 = (ctxs w ++ [false])%list /\
   (exists ev, trace w5 = (trace w ++ ev)%list /\
               pool_statements ev = New_pragmas (environ w)) /\
   New fault engine FS Quote dsn w
   = (match fst (migrate fault engine FS Quote w5) with
      | Some e => (None, Some (Errorf_w "migrate: " e))
      | None => (Some (mkSqlite (Some (List.length (pools w)))
                                (Some (List.length (ctxs w)))
                                (Some (List.length (ctxs w)))), None)
      end, snd (migrate fault engine FS Quote w5))).
Proof.
intros F0. unfold New.
destruct (sqlx_Connect_cases fault "sqlite3" dsn w) as [[e0 [F0' _]]|[_ E0]];
  [congruence|].
rewrite (bind_eq _ _ _ _ _ E0); norm_world. clear E0.
rewrite (bind_eq _ _ _ _ _ (context_WithCancel_run _)); norm_world.
rewrite (bind_eq _ _ _ _ _ (SetMaxOpenConns_run _ _ _)); norm_world.
rewrite (bind_eq _ _ _ _ _ (SetMaxIdleConns_run _ _ _)); norm_world.
rewrite (bind_eq _ _ _ _ _ (SetConnMaxIdleTime_run _ _ _)); norm_world.
rewrite (bind_eq _ _ _ _ _ (SetConnMaxLifetime_run _ _ _)); norm_world.
rewrite !update_nth_last. cbn [closed maxOpen maxIdle maxIdleTime maxLifetime default_Pool].
fold configured_Pool.
exec_or_fail "enable wal: ".
exec_or_fail "foreign keys pragma: ".
exec_or_fail "foreign keys pragma: ".
exec_or_fail "foreign keys pragma: ".
rewrite (bind_eq _ _ _ _ _ (os_Getenv_run _ _)); norm_world.
unfold New_pragmas.
destruct (String.eqb (getenv "LITESTREAM_ACCESS_KEY" (environ w)) ""); cbn [negb].
- rewrite bind_ret. right.
  match goal with
  | |- context [bind (migrate fault engine FS Quote) _ ?W] => exists W
  end.
  split; [|split; [|split; [|split]]].
  + cbn [disk]. unfold exec_autocommit. cbn. now rewrite <- !app_assoc.
  + reflexivity.
  + reflexivity.
  + eexists. split; [cbn [trace]; rewrite <- !app_assoc; reflexivity|].
    reflexivity.
  + rewrite bind_run. destruct (fst (migrate fault engine FS Quote _)); reflexivity.
- exec_or_fail "foreign keys pragma: ".
  right.
  match goal with
  | |- context [bind (migrate fault engine FS Quote) _ ?W] => exists W
  end.
  split; [|split; [|split; [|split]]].
  + cbn [disk]. unfold exec_autocommit. cbn. now rewrite <- !app_assoc.
  + reflexivity.
  + reflexivity.
  + eexists. split; [cbn [trace]; rewrite <- !app_assoc; reflexivity|].
    reflexivity.
  + rewrite bind_run. destruct (fst (migrate fault engine FS Quote _)); reflexivity.
Qed.

Lemma New_returns_ready dsn w h w' :
New fault engine FS Quote dsn w = (Some h, None, w') ->
ready (scripts_behave engine FS) FS w h w'.
Proof.
intros H.
assert (F0 : fault (List.length (trace w)) = None).
{ destruct (sqlx_Connect_cases fault "sqlite3" dsn w) as [[e0 [_ E0]]|[F0 _]];
    [|exact F0].
  unfold New in H. rewrite (bind_eq _ _ _ _ _ E0) in H. discriminate H. }
destruct (New_after_connect dsn w F0)
  as [[label [cause [E _]]]|[w5 [Hd [Hp [Hc [[ev5 [Ht5 Hs5]] E]]]]]].
{ rewrite H in E. discriminate E. }
rewrite H in E.
destruct (migrate fault engine FS Quote w5) as [[e|] w6] eqn:Em; cbn [fst snd] in E;
  [discriminate E|].
injection E as -> ->.
pose proof (migrate_shape engine FS Quote fault w5)
  as [_ [Hp6 [Hc6 [ev6 [Ht6 [Hs6 _]]]]]].
pose proof (migrate_keeps_pragmas fault engine FS Quote w5) as Hk.
rewrite Em in Hp6, Hc6, Ht6, Hk. cbn [snd] in Hp6, Hc6, Ht6, Hk.
unfold ready. rewrite Hp6, Hc6, Hp, Hc.
rewrite !nth_error_app2, !Nat.sub_diag by apply Nat.le_refl.
split; [reflexivity|]. split; [reflexivity|]. split; [reflexivity|].
split; [reflexivity|]. split; [reflexivity|]. split; [reflexivity|].
split; [reflexivity|].
split.
{ rewrite (events_app w w6 (ev5 ++ CExec create_migrations_sql :: ev6)%list)
    by (rewrite Ht6, Ht5, <- app_assoc; reflexivity).
  unfold pool_statements in *. rewrite filter_map_app, Hs5.
  cbn [filter_map pool_statement]. f_equal. f_equal.
  destruct Hs6 as [->|[ev' [-> Hev']]]; [reflexivity|].
  cbn [filter_map pool_statement].
  clear - Hev'. induction ev' as [|c ev' IH]; [reflexivity|].
  cbn [forallb] in Hev'. apply andb_true_iff in Hev'. destruct Hev' as [Hc Hev'].
  destruct c; try discriminate Hc; cbn [filter_map pool_statement]; auto. }
intros Hb. split.
- rewrite (Hk Hb), Hd. reflexivity.
- eapply migrate_success_recorded; eauto.
Qed.

Lemma New_returns_error dsn w h e w' :
New fault engine FS Quote dsn w = (h, Some e, w') ->
h = None /\ New_error fault FS Quote dsn w e w'.
Proof.
intros H. unfold New_error.
destruct (sqlx_Connect_cases fault "sqlite3" dsn w) as [[e0 [F0 E0]]|[F0 _]].
{ rewrite F0. unfold New in H. rewrite (bind_eq _ _ _ _ _ E0) in H.
  unfold ret in H. injection H as <- <- <-. auto. }
rewrite F0.
destruct (New_after_connect dsn w F0)
  as [[label [cause [E Hl]]]|[w5 [_ [_ [_ [_ E]]]]]].
- rewrite H in E. cbn [fst] in E. injection E as -> ->.
  split; [reflexivity|]. exists label, cause. repeat split. tauto.
- rewrite H in E.
  destruct (migrate fault engine FS Quote w5) as [[e6|] w6] eqn:Em; cbn [fst snd] in E;
    [|discriminate E].
  injection E as -> -> ->. split; [reflexivity|].
  exists "migrate: ", e6. repeat split.
  right. right. split; [reflexivity|].
  eapply migrate_error_shape. exact Em.
Qed.

End Outcome.

(** X6.  When [New] returns a handle, the handle refers to the pool and
    the context this call created; the pool is open with at most 25 open
    and 25 idle connections, five minutes of idle time and two hours of
    lifetime; the context is not cancelled; and, provided the scripts keep
    to the application schema, the settings are the ones [New] applied, in
    order (auto-checkpointing switched off last, when the replication
    variable is set), and every embedded script is recorded. *)
Theorem New_handle_is_ready fault engine FS Quote dsn w h w' :
  New fault engine FS Quote dsn w = (Some h, None, w') ->
  ready (scripts_behave engine FS) FS w h w'.
Proof. apply New_returns_ready. Qed.

Lemma New_handle_is_ready_witness :
  let w := initial_World replicated_env in
  let run := New no_fault example_engine example_FS quote_plain "data/example.db" w in
  exists h, fst run = (Some h, None) /\
    ready (scripts_behave example_engine example_FS) example_FS w h (snd run).
Proof.
  eexists. split.
  - vm_compute. reflexivity.
  - apply (New_handle_is_ready no_fault example_engine example_FS quote_plain "data/example.db").
    vm_compute. reflexivity.
Defined.

(** X7.  When [New] returns an error it returns no handle, and the error
    is either the error of the connection itself, unwrapped, with nothing
    done after the failed connection; or an error wrapped with [%w] under
    the label [enable wal: ], [foreign keys pragma: ] or [migrate: ], whose
    cause [Unwrap] gives back; under [migrate: ] the cause is the wrapped
    bootstrap error, the enumeration error, or the error of an embedded
    script wrapped with that script's name. *)
Theorem New_errors_are_wrapped fault engine FS Quote dsn w h e w' :
  New fault engine FS Quote dsn w = (h, Some e, w') ->
  h = None /\ New_error fault FS Quote dsn w e w'.
Proof. apply New_returns_error. Qed.

Lemma New_errors_are_wrapped_witness :
  let w := initial_World [] in
  let run := New (fail_at 22) example_engine example_FS quote_plain "data/example.db" w in
  exists e, fst run = (None, Some e) /\
    New_error (fail_at 22) example_FS quote_plain "data/example.db" w e (snd run).
Proof.
  eexists. split.
  - vm_compute. reflexivity.
  - apply (New_errors_are_wrapped (fail_at 22) example_engine example_FS quote_plain
             "data/example.db" (initial_World []) None).
    vm_compute. reflexivity.
Defined.

(** ** The leveled logger *)

Section LoggerFacts.
Variable Quote : string -> string.
Variable time_Now : World -> string.
Variable time_Now_UTC : World -> string.
Variable json_Marshal : string -> string -> string -> string -> result string.
Variable any : Type.
Variable fmt_Sprintf : string -> list any -> string.

(** X8.  The [colorize] setting of a logger has no effect: two loggers
  that differ in nothing else write the same with [Info], [Warning],
  [Error] and [Fatal]. *)
Theorem colorize_has_no_effect debug_Stack o m j c1 c2 format v err w :
let l1 := mkLogger o m j c1 in
let l2 := mkLogger o m j c2 in
let info := Logger_Info Quote time_Now time_Now_UTC debug_Stack json_Marshal any fmt_Sprintf in
let warning := Logger_Warning Quote time_Now time_Now_UTC debug_Stack json_Marshal any fmt_Sprintf in
let log_error := Logger_Error Quote time_Now time_Now_UTC debug_Stack json_Marshal in
let fatal := Logger_Fatal Quote time_Now time_Now_UTC debug_Stack json_Marshal in
info l1 format v w = info l2 format v w /\
warning l1 format v w = warning l2 format v w /\
log_error l1 err w = log_error l2 err w /\
fatal l1 err w = fatal l2 err w.
Proof. repeat split. Qed.

(** X9.  The threshold of a logger: with [minLevel] at most [LevelInfo]
  (as with [LevelAll]) each of [Info], [Warning], [Error] and [Fatal]
  makes exactly one [Write], of its line and a newline; with [minLevel]
  above [LevelFatal] (as with [LevelOff]) none of them writes anything,
  and [Fatal] still ends the process with status 1. *)
Theorem Logger_threshold debug_Stack l format v err w :
let print := Logger_print Quote time_Now time_Now_UTC debug_Stack json_Marshal in
let info := Logger_Info Quote time_Now time_Now_UTC debug_Stack json_Marshal any fmt_Sprintf in
let warning := Logger_Warning Quote time_Now time_Now_UTC debug_Stack json_Marshal any fmt_Sprintf in
let log_error := Logger_Error Quote time_Now time_Now_UTC debug_Stack json_Marshal in
let fatal := Logger_Fatal Quote time_Now time_Now_UTC debug_Stack json_Marshal in
let line := fun level message =>
  if useJSON l
  then jsonLine time_Now_UTC debug_Stack json_Marshal level message w
  else textLine Quote time_Now debug_Stack level message (colorize l) w in
((minLevel l <= LevelInfo)%Z ->
 info l format v w = out l (line LevelInfo (fmt_Sprintf format v) ++ LF) w /\
 warning l format v w = out l (line LevelWarning (fmt_Sprintf format v) ++ LF) w /\
 log_error l err w = out l (line LevelError (Error err) ++ LF) w /\
 fatal l err w = (1%Z, out l (line LevelFatal (Error err) ++ LF) w)) /\
((LevelFatal < minLevel l)%Z ->
 info l format v w = w /\ warning l format v w = w /\ log_error l err w = w /\
 fatal l err w = (1%Z, w)).
Proof.
unfold Logger_Info, Logger_Warning, Logger_Error, Logger_Fatal, Logger_print,
  LevelInfo, LevelWarning, LevelError, LevelFatal.
split; intros H.
- assert (H1 : (1 <? minLevel l)%Z = false) by (apply Z.ltb_ge; lia).
  assert (H2 : (2 <? minLevel l)%Z = false) by (apply Z.ltb_ge; lia).
  assert (H3 : (3 <? minLevel l)%Z = false) by (apply Z.ltb_ge; lia).
  assert (H4 : (4 <? minLevel l)%Z = false) by (apply Z.ltb_ge; lia).
  rewrite H1, H2, H3, H4. repeat split.
- assert (H1 : (1 <? minLevel l)%Z = true) by (apply Z.ltb_lt; lia).
  assert (H2 : (2 <? minLevel l)%Z = true) by (apply Z.ltb_lt; lia).
  assert (H3 : (3 <? minLevel l)%Z = true) by (apply Z.ltb_lt; lia).
  assert (H4 : (4 <? minLevel l)%Z = true) by (apply Z.ltb_lt; lia).
  rewrite H1, H2, H3, H4. repeat split.
Qed.

(** X10.  The stack trace: [Info] and [Warning] never use it, in either
  format; a text logger that passes [LevelError] appends a newline and
  the stack to the line of [Error] and of [Fatal]. *)
Theorem stack_only_for_errors stack1 stack2 l format v err w :
let info := fun s => Logger_Info Quote time_Now time_Now_UTC s json_Marshal any fmt_Sprintf in
let warning := fun s => Logger_Warning Quote time_Now time_Now_UTC s json_Marshal any fmt_Sprintf in
let log_error := Logger_Error Quote time_Now time_Now_UTC stack1 json_Marshal in
let fatal := Logger_Fatal Quote time_Now time_Now_UTC stack1 json_Marshal in
let base := fun name =>
  "level=" ++ Quote name ++ " time=" ++ Quote (time_Now w)
  ++ " message=" ++ Quote (Error err) in
info stack1 l format v w = info stack2 l format v w /\
warning stack1 l format v w = warning stack2 l format v w /\
(useJSON l = false -> (minLevel l <= LevelError)%Z ->
 log_error l err w = out l ((base "ERROR" ++ (LF ++ stack1 w)) ++ LF) w /\
 fatal l err w = (1%Z, out l ((base "FATAL" ++ (LF ++ stack1 w)) ++ LF) w)).
Proof.
unfold Logger_Info, Logger_Warning, Logger_Error, Logger_Fatal, Logger_print,
  textLine, jsonLine.
split; [reflexivity|]. split; [reflexivity|].
intros Hj Hm. rewrite Hj.
unfold LevelError, LevelFatal in *.
assert (H3 : (3 <? minLevel l)%Z = false) by (apply Z.ltb_ge; lia).
assert (H4 : (4 <? minLevel l)%Z = false) by (apply Z.ltb_ge; lia).
rewrite H3, H4. split; reflexivity.
Qed.

(** X11.  When [json.Marshal] fails, a JSON logger that passes the level
  writes, in place of the message, a line that names the marshalling
  error under the label ERROR, whatever the level and the message of the
  call. *)
Theorem marshal_failure_is_logged debug_Stack l level message err w :
useJSON l = true -> (minLevel l <= level)%Z ->
json_Marshal (Level_String level) (time_Now_UTC w) message
             (if (level >=? LevelError)%Z then debug_Stack w else "")
= Err err ->
Logger_print Quote time_Now time_Now_UTC debug_Stack json_Marshal l level message w
= out l (("ERROR: unable to marshal log message: " ++ Error err) ++ LF) w.
Proof.
intros Hj Hm He. unfold Logger_print, jsonLine.
assert (H : (level <? minLevel l)%Z = false) by (apply Z.ltb_ge; lia).
rewrite H, Hj, He. reflexivity.
Qed.

End LoggerFacts.

Lemma marshal_failure_is_logged_witness :
  let marshal := fun _ _ _ _ : string => @Err string (errors_New "unsupported value") in
  Logger_print quote_plain (fun _ => "2026-10-31T12:00:00Z")
               (fun _ => "2026-10-31T12:00:00Z") (fun _ => "goroutine 1")
               marshal (NewJSONLogger os_Stdout LevelAll) LevelInfo "starting"
               (initial_World [])
  = os_Stdout (("ERROR: unable to marshal log message: "
                ++ Error (errors_New "unsupported value")) ++ LF)
              (initial_World []).
Proof.
  apply (marshal_failure_is_logged quote_plain (fun _ => "2026-10-31T12:00:00Z")
           (fun _ => "2026-10-31T12:00:00Z")
           (fun _ _ _ _ => Err (errors_New "unsupported value"))
           (fun _ => "goroutine 1") (NewJSONLogger os_Stdout LevelAll) LevelInfo
           "starting" (errors_New "unsupported value") (initial_World [])).
  - reflexivity.
  - vm_compute. discriminate.
  - reflexivity.
Defined.

(** ** The command *)

Lemma Close_events fault s p c w :
  db s = Some p -> cancel s = Some c ->
  exists r w',
    Close fault (Some s) w = (Returned r, w') /\
    trace w' = (trace w ++ [CCancel c; CClose p])%list /\
    disk w' = disk w.
Proof.
  intros Hdb Hcancel. unfold Close. rewrite Hdb, Hcancel.
  unfold cancel_ctx, bind, emit, modify. step.
  unfold sql_Close. step.
  destruct (nth_error (pools w) p) as [q|].
  - destruct (closed q).
    + do 2 eexists. split; [reflexivity|]. cbn [trace disk].
      split; [now rewrite <- app_assoc | reflexivity].
    + unfold bind, call, update_pool, modify, ret. step.
      do 2 eexists. split; [reflexivity|]. cbn [trace disk].
      split; [now rewrite <- app_assoc | reflexivity].
  - unfold call. step. do 2 eexists. split; [reflexivity|]. cbn [trace disk].
    split; [now rewrite <- app_assoc | reflexivity].
Qed.

Lemma existsb_release_forallb ev :
  forallb (fun c => negb (is_release c)) ev = true ->
  existsb is_release ev = false.
Proof.
  induction ev as [|c ev IH]; simpl; [reflexivity|].
  intros H. apply andb_true_iff in H. destruct H as [H1 H2].
  rewrite (IH H2). destruct (is_release c); [discriminate H1 | reflexivity].
Qed.

Section CommandFacts.
Variable fault : nat -> option error.
Variable engine : Engine.
Variable FS : list (string * string).
Variable Quote : string -> string.
Variable time_Now : World -> string.
Variable time_Now_UTC : World -> string.
Variable debug_Stack : World -> string.
Variable json_Marshal : string -> string -> string -> string -> result string.
Variable fmt_Sprintf : string -> list string -> string.
Variable server_Run : string -> World -> option error * World.

(** The logger of [main] writes every line to the standard output and
  touches nothing else. *)
Lemma main_logger_print level message w :
(0 <= level)%Z ->
let w' := Logger_print Quote time_Now time_Now_UTC debug_Stack json_Marshal
                       (NewLogger os_Stdout LevelAll true) level message w in
w' = os_Stdout (textLine Quote time_Now debug_Stack level message true w ++ LF) w /\
trace w' = trace w /\ pools w' = pools w /\ ctxs w' = ctxs w /\ disk w' = disk w.
Proof.
intros H. unfold Logger_print, NewLogger, LevelAll. cbn [minLevel useJSON colorize out].
assert (Hl : (level <? 0)%Z = false) by (apply Z.ltb_ge; lia).
rewrite Hl. repeat split.
Qed.

Lemma main_ends cfg w :
server_keeps_out server_Run ->
main_discipline (scripts_behave engine FS) FS w
  (fst (main fault engine FS Quote time_Now time_Now_UTC debug_Stack json_Marshal
             fmt_Sprintf server_Run cfg w))
  (snd (main fault engine FS Quote time_Now time_Now_UTC debug_Stack json_Marshal
             fmt_Sprintf server_Run cfg w)).
Proof.
intros Hserver. unfold main.
pose proof (New_facts engine FS Quote (fun _ => True) (fun _ _ _ => I)
              (fun _ _ _ _ => I) fault (dbDSN cfg) w)
  as [_ [[ev [Ht Hev]] _]].
apply existsb_release_forallb in Hev.
destruct (New fault engine FS Quote (dbDSN cfg) w) as [[h [e|]] w1] eqn:EN;
  cbn [fst snd] in Ht.
- (* New failed *)
  unfold Logger_Fatal.
  destruct (main_logger_print LevelFatal (Error e) w1) as [_ [Htr _]];
    [unfold LevelFatal; lia|].
  cbn [fst snd main_discipline]. split; [reflexivity|].
  rewrite (events_app w _ ev); [exact Hev | now rewrite Htr].
- (* New returned a handle *)
  destruct h as [s|].
  2:{ pose proof (New_handle_valid fault engine FS Quote (dbDSN cfg) w) as Hv.
      destruct (New_after_connect fault engine FS Quote (dbDSN cfg) w)
        as [[label [cause [E _]]]|[w5 [_ [_ [_ [_ E]]]]]].
      - destruct (sqlx_Connect_cases fault "sqlite3" (dbDSN cfg) w)
          as [[e0 [_ E0]]|[F0 _]]; [|exact F0].
        unfold New in EN. rewrite (bind_eq _ _ _ _ _ E0) in EN. discriminate EN.
      - rewrite EN in E. discriminate E.
      - rewrite EN in E. destruct (fst (migrate fault engine FS Quote w5)); discriminate E. }
  pose proof (New_returns_ready fault engine FS Quote (dbDSN cfg) w s w1 EN)
    as (Hs & Hpool & _ & _ & _ & _ & Hctx & _ & Hrec).
  unfold Logger_Info.
  destruct (main_logger_print LevelInfo
              (fmt_Sprintf "starting server on %s" [addr cfg]) w1)
    as [_ [Htr2 [Hp2 [Hc2 Hd2]]]]; [unfold LevelInfo; lia|].
  set (w2 := Logger_print _ _ _ _ _ _ LevelInfo _ w1) in *.
  destruct (Hserver (addr cfg) w2) as [Htr3 [Hp3 [Hc3 Hd3]]].
  destruct (server_Run (addr cfg) w2) as [[e|] w3]; cbn [snd] in *.
  + (* the server failed: the deferred Close does not run *)
    unfold Logger_Fatal.
    destruct (main_logger_print LevelFatal (Error e) w3) as [_ [Htr4 _]];
      [unfold LevelFatal; lia|].
    cbn [fst snd main_discipline]. split; [reflexivity|].
    rewrite (events_app w _ ev); [exact Hev | congruence].
  + (* the server stopped *)
    destruct (main_logger_print LevelInfo (fmt_Sprintf "server stopped" []) w3)
      as [_ [Htr4 [Hp4 [Hc4 Hd4]]]]; [unfold LevelInfo; lia|].
    set (w4 := Logger_print _ _ _ _ _ _ LevelInfo _ w3) in *.
    assert (Hq : nth_error (pools w4) (List.length (pools w)) = Some configured_Pool)
      by congruence.
    assert (Hb : nth_error (ctxs w4) (List.length (ctxs w)) = Some false)
      by congruence.
    destruct (Close_run fault s (List.length (pools w)) (List.length (ctxs w))
                        configured_Pool false w4)
      as (r & w5 & E5 & Ht5 & _ & Hc5 & Hq5 & Hd5 & _);
      [subst s; reflexivity | subst s; reflexivity | exact Hq | exact Hb|].
    rewrite E5. cbn [fst snd main_discipline].
    split; [|split; [exact Hq5 | split; [exact Hc5|]]].
    * exists ev. split; [|exact Hev].
      apply events_app. rewrite Ht5, Htr4, Htr3, Htr2, Ht.
      now rewrite <- app_assoc.
    * intros Hbehave. destruct (Hrec Hbehave) as [_ [rows [Hm Hall]]]. exists rows.
      split; [|exact Hall]. congruence.
Qed.

Lemma main_exit_line cfg w code w' :
main fault engine FS Quote time_Now time_Now_UTC debug_Stack json_Marshal
     fmt_Sprintf server_Run cfg w = (Exits code, w') ->
exists e w0,
  w' = os_Stdout (fatal_line Quote time_Now debug_Stack e w0) w0 /\
  ((exists h, New fault engine FS Quote (dbDSN cfg) w = (h, Some e, w0)) \/
   (exists h w1,
      New fault engine FS Quote (dbDSN cfg) w = (h, None, w1) /\
      server_Run (addr cfg)
        (os_Stdout
           (textLine Quote time_Now debug_Stack LevelInfo
                     (fmt_Sprintf "starting server on %s" [addr cfg]) true w1
            ++ LF) w1)
      = (Some e, w0))).
Proof.
unfold main. intros H.
assert (Hfatal : forall e w0,
          snd (Logger_Fatal Quote time_Now time_Now_UTC debug_Stack json_Marshal
                            (NewLogger os_Stdout LevelAll true) e w0)
          = os_Stdout (fatal_line Quote time_Now debug_Stack e w0) w0).
{ intros e w0. unfold Logger_Fatal, Logger_print, textLine, fatal_line, NewLogger.
  cbn [snd minLevel useJSON colorize out].
  change (LevelFatal <? LevelAll)%Z with false.
  change (LevelFatal >=? LevelError)%Z with true.
  change (Level_String LevelFatal) with "FATAL". cbv iota.
  now rewrite !string_app_assoc. }
destruct (New fault engine FS Quote (dbDSN cfg) w) as [[h [e|]] w1].
- pose proof (Hfatal e w1) as Hf.
  destruct (Logger_Fatal _ _ _ _ _ _ e w1) as [c w2]. cbn [snd] in Hf.
  injection H as _ <-. exists e, w1. split; [exact Hf|]. left. eauto.
- unfold Logger_Info in H.
  destruct (main_logger_print LevelInfo
              (fmt_Sprintf "starting server on %s" [addr cfg]) w1)
    as [Hw2 _]; [unfold LevelInfo; lia|].
  rewrite Hw2 in H.
  destruct (server_Run (addr cfg) _) as [[e|] w3] eqn:Es.
  + pose proof (Hfatal e w3) as Hf.
    destruct (Logger_Fatal _ _ _ _ _ _ e w3) as [c w4]. cbn [snd] in Hf.
    injection H as _ <-. exists e, w3. split; [exact Hf|]. right. eauto.
  + destruct (Close fault h _) as [[r|] w5]; discriminate H.
Qed.

End CommandFacts.

(** X12.  [main], with a server that leaves the database layer alone,
    never panics; when it exits (because [New] or the server returned an
    error) the status is 1 and no context was cancelled and no pool closed,
    the deferred [Close] being skipped; when it returns, the last two
    calls cancel the context and close the pool that [New] created, once,
    and, provided the scripts keep to the application schema, every
    script is recorded. *)
Theorem main_releases_only_on_return fault engine FS Quote time_Now time_Now_UTC
  debug_Stack json_Marshal fmt_Sprintf server_Run cfg w :
  server_keeps_out server_Run ->
  main_discipline (scripts_behave engine FS) FS w
    (fst (main fault engine FS Quote time_Now time_Now_UTC debug_Stack json_Marshal
               fmt_Sprintf server_Run cfg w))
    (snd (main fault engine FS Quote time_Now time_Now_UTC debug_Stack json_Marshal
               fmt_Sprintf server_Run cfg w)).
Proof. apply main_ends. Qed.

Lemma main_releases_only_on_return_witness :
  let serve := fun (_ : string) (w : World) => (@None error, w) in
  let stamp := fun _ : World => "2026-10-31T12:00:00Z" in
  let run := main no_fault example_engine example_FS quote_plain stamp stamp
                  (fun _ => "goroutine 1")
                  (fun _ _ _ _ => Err (errors_New "unsupported value"))
                  (fun format _ => format) serve default_config (initial_World []) in
  main_discipline (scripts_behave example_engine example_FS) example_FS
                  (initial_World []) (fst run) (snd run).
Proof.
  apply main_releases_only_on_return.
  intros a w. repeat split.
Defined.

(** X13.  When [main] exits, the last thing it has done is one write to
    the standard output of a text line of level FATAL with the stack,
    whose message is the error text of the error that [New] returned or,
    when [New] succeeded, of the error that the server returned. *)
Theorem main_exit_reports_error fault engine FS Quote time_Now time_Now_UTC
  debug_Stack json_Marshal fmt_Sprintf server_Run cfg w code w' :
  main fault engine FS Quote time_Now time_Now_UTC debug_Stack json_Marshal
       fmt_Sprintf server_Run cfg w = (Exits code, w') ->
  exists e w0,
    w' = os_Stdout (fatal_line Quote time_Now debug_Stack e w0) w0 /\
    ((exists h, New fault engine FS Quote (dbDSN cfg) w = (h, Some e, w0)) \/
     (exists h w1,
        New fault engine FS Quote (dbDSN cfg) w = (h, None, w1) /\
        server_Run (addr cfg)
          (os_Stdout
             (textLine Quote time_Now debug_Stack LevelInfo
                       (fmt_Sprintf "starting server on %s" [addr cfg]) true w1
              ++ LF) w1)
        = (Some e, w0))).
Proof. apply main_exit_line. Qed.

Lemma main_exit_reports_error_witness :
  let serve := fun (_ : string) (w : World) =>
                 (Some (errors_New "listen tcp: address already in use"), w) in
  let stamp := fun _ : World => "2026-10-31T12:00:00Z" in
  let stack := fun _ : World => "goroutine 1" in
  let marshal := fun _ _ _ _ : string => @Err string (errors_New "unsupported value") in
  let sprintf := fun (format : string) (_ : list string) => format in
  let run := main no_fault example_engine example_FS quote_plain stamp stamp stack marshal sprintf
                  serve default_config (initial_World []) in
  exists e w0,
    snd run = os_Stdout (fatal_line quote_plain stamp stack e w0) w0 /\
    ((exists h, New no_fault example_engine example_FS quote_plain (dbDSN default_config)
                    (initial_World []) = (h, Some e, w0)) \/
     (exists h w1,
        New no_fault example_engine example_FS quote_plain (dbDSN default_config)
            (initial_World []) = (h, None, w1) /\
        serve (addr default_config)
          (os_Stdout
             (textLine quote_plain stamp stack LevelInfo
                       (sprintf "starting server on %s" [addr default_config]) true w1
              ++ LF) w1)
        = (Some e, w0))).
Proof.
  apply (main_exit_reports_error no_fault example_engine example_FS quote_plain
           (fun _ => "2026-10-31T12:00:00Z") (fun _ => "2026-10-31T12:00:00Z")
           (fun _ => "goroutine 1")
           (fun _ _ _ _ => Err (errors_New "unsupported value"))
           (fun format _ => format)
           (fun _ w => (Some (errors_New "listen tcp: address already in use"), w))
           default_config (initial_World []) 1%Z).
  vm_compute. reflexivity.
Defined.

(** ** What the engine and [Close] leave alone *)

(** X14.  [migrate] keeps to the migration engine: it neither reads nor
    changes the process environment, allocates or changes no pool and no
    context, and makes no call that closes a pool or cancels a context. *)
Theorem migrate_keeps_to_the_engine fault engine FS Quote w :
  engine_only w (snd (migrate fault engine FS Quote w)) /\
  env_blind (migrate fault engine FS Quote).
Proof.
  split; [|apply env_blind_migrate].
  destruct (migrate_frame engine FS Quote fault w) as [He [Hp [Hc [ev [Ht Hev]]]]].
  unfold engine_only. rewrite (events_app _ _ _ Ht).
  assert (Hall : forallb is_engine_call (CExec create_migrations_sql :: ev) = true)
    by (simpl; exact Hev).
  repeat split; auto.
  apply existsb_release_forallb. now apply engine_call_not_release.
Qed.

Lemma nth_error_update_nth_other {A : Type} (i j : nat) (f : A -> A) (l : list A) :
  j <> i -> nth_error (update_nth i f l) j = nth_error l j.
Proof.
  revert i j. induction l as [|x l IH]; intros [|i] [|j] H; simpl; auto;
    try (now elim H); try (apply IH; intros ->; now apply H).
Qed.

Lemma update_nth_keeps_length {A : Type} (i : nat) (f : A -> A) (l : list A) :
  List.length (update_nth i f l) = List.length l.
Proof. revert i. induction l as [|x l IH]; intros [|i]; simpl; auto. Qed.

Lemma Close_others fault s p c w :
  db s = Some p -> cancel s = Some c ->
  others_untouched p c w (snd (Close fault (Some s) w)).
Proof.
  intros Hdb Hcancel. unfold Close. rewrite Hdb, Hcancel.
  unfold cancel_ctx, bind, emit, modify. step.
  unfold sql_Close. step.
  assert (Hc : forall c', c' <> c ->
            nth_error (update_nth c (fun _ : bool => true) (ctxs w)) c'
            = nth_error (ctxs w) c')
    by (intros; now apply nth_error_update_nth_other).
  destruct (nth_error (pools w) p) as [q|].
  - destruct (closed q).
    + unfold others_untouched. cbn [snd pools ctxs disk stdout environ].
      rewrite update_nth_keeps_length. repeat split; auto.
    + unfold bind, call, update_pool, modify, ret. step.
      unfold others_untouched. cbn [snd pools ctxs disk stdout environ].
      rewrite !update_nth_keeps_length. repeat split; auto.
      intros; now apply nth_error_update_nth_other.
  - unfold call. step.
    unfold others_untouched. cbn [snd pools ctxs disk stdout environ].
    rewrite update_nth_keeps_length. repeat split; auto.
Qed.

(** X15.  [Close] of a handle touches only the pool and the context of
    that handle: every other pool and context (of another handle
    returned by [New]) stays as it is, and so do the database and the
    output. *)
Theorem Close_leaves_other_handles fault s p c w :
  db s = Some p -> cancel s = Some c ->
  others_untouched p c w (snd (Close fault (Some s) w)).
Proof. apply Close_others. Qed.

Lemma Close_leaves_other_handles_witness :
  let run1 := New no_fault example_engine example_FS quote_plain "data/example.db" (initial_World []) in
  let run2 := New no_fault example_engine example_FS quote_plain "data/example.db" (snd run1) in
  others_untouched 0 0 (snd run2)
    (snd (Close no_fault (Some (mkSqlite (Some 0) (Some 0) (Some 0))) (snd run2))).
Proof.
  apply Close_leaves_other_handles; reflexivity.
Defined.

(** ** Construction without failures *)

Lemma db_Exec_ok fault sql w :
  fault (List.length (trace w)) = None ->
  db_Exec fault sql w
  = (None, with_disk (exec_autocommit sql (disk w))
             (with_trace (trace w ++ [CExec sql])%list w)).
Proof.
  intros F. unfold db_Exec, bind, call, modify, ret. now rewrite F.
Qed.

Lemma New_without_failures fault engine FS Quote dsn w :
  (forall t, fault t = None) -> scripts_run engine FS -> NoDup (map fst FS) ->
  exists h, fst (New fault engine FS Quote dsn w) = (Some h, None).
Proof.
  intros Hf Hr0 Hnd. unfold New.
  destruct (sqlx_Connect_cases fault "sqlite3" dsn w) as [[e0 [F0 _]]|[_ E0]];
    [rewrite Hf in F0; discriminate F0|].
  rewrite (bind_eq _ _ _ _ _ E0); norm_world.
  rewrite (bind_eq _ _ _ _ _ (context_WithCancel_run _)); norm_world.
  rewrite (bind_eq _ _ _ _ _ (SetMaxOpenConns_run _ _ _)); norm_world.
  rewrite (bind_eq _ _ _ _ _ (SetMaxIdleConns_run _ _ _)); norm_world.
  rewrite (bind_eq _ _ _ _ _ (SetConnMaxIdleTime_run _ _ _)); norm_world.
  rewrite (bind_eq _ _ _ _ _ (SetConnMaxLifetime_run _ _ _)); norm_world.
  rewrite (bind_eq _ _ _ _ _ (db_Exec_ok _ _ _ (Hf _))); norm_world.
  rewrite (bind_eq _ _ _ _ _ (db_Exec_ok _ _ _ (Hf _))); norm_world.
  rewrite (bind_eq _ _ _ _ _ (db_Exec_ok _ _ _ (Hf _))); norm_world.
  rewrite (bind_eq _ _ _ _ _ (db_Exec_ok _ _ _ (Hf _))); norm_world.
  rewrite (bind_eq _ _ _ _ _ (os_Getenv_run _ _)); norm_world.
  destruct (negb _).
  - rewrite (bind_eq _ _ _ _ _ (db_Exec_ok _ _ _ (Hf _))); norm_world.
    rewrite bind_run.
    match goal with
    | |- context [migrate fault engine FS Quote ?W] =>
      destruct (migrate_no_fault fault engine FS Quote Hf Hr0 W Hnd) as [Hr _]
    end.
    rewrite Hr. eexists. reflexivity.
  - rewrite bind_ret, bind_run.
    match goal with
    | |- context [migrate fault engine FS Quote ?W] =>
      destruct (migrate_no_fault fault engine FS Quote Hf Hr0 W Hnd) as [Hr _]
    end.
    rewrite Hr. eexists. reflexivity.
Qed.

(** X16.  When no library call fails and the scripts run to their end
    within the application schema, [New] returns a handle: nothing in
    [New] or in the migration of the embedded scripts fails on its own,
    whatever the state of the database file. *)
Theorem New_succeeds_without_failures fault engine FS Quote dsn w :
  (forall t, fault t = None) -> scripts_run engine FS -> NoDup (map fst FS) ->
  exists h, fst (New fault engine FS Quote dsn w) = (Some h, None).
Proof. apply New_without_failures. Qed.

Lemma New_succeeds_without_failures_witness :
  exists h,
    fst (New no_fault example_engine example_FS quote_plain "data/example.db"
             (snd (New (fail_at 19) example_engine example_FS quote_plain "data/example.db"
                       (initial_World replicated_env))))
    = (Some h, None).
Proof.
  apply New_succeeds_without_failures.
  - reflexivity.
  - apply example_scripts_run.
  - repeat constructor; simpl; intuition discriminate.
Defined.

(** A script that writes its own record does not keep to the application
    schema: the bookkeeping insert of [migrateFile] then hits the primary
    key, and [New] fails although no library call does. *)
Example own_record_scenario :
  let FS := [("migration/0001_self.sql",
              "INSERT INTO migrations (name) VALUES ('migration/0001_self.sql')")] in
  let run := New no_fault example_engine FS quote_plain "data/example.db"
                 (initial_World []) in
  fst (fst run) = None /\
  option_map Error (snd (fst run))
  = Some ("migrate: migration error: name=" ++ quote_plain "migration/0001_self.sql"
          ++ " err=UNIQUE constraint failed: migrations.name").
Proof. vm_compute. split; reflexivity. Qed.

(** ** [migrateFile] on its own *)

Lemma migrateFile_on_its_own fault engine FS name w :
  (forall t, fault t = None) -> migrateFile_edges fault engine FS name w.
Proof.
  intros Hf. unfold migrateFile_edges.
  assert (Hcheck : migrations (disk w) = None ->
            migrateFile fault engine FS name w
            = (Some ErrNoTable, after w (ev_check name) (disk w) (stdout w))).
  { intros Hm.
    unfold migrateFile, defer, db_Begin, tx_QueryRow_Scan, bind, call, ret, modify.
    rewrite !Hf. step. cbn [seen fst snd]. rewrite Hm. step.
    rewrite tx_Rollback_run. unfold after, ev_check. norm_world.
    now rewrite <- !app_assoc. }
  assert (Hrec : recorded name (disk w) ->
            migrateFile fault engine FS name w
            = (None, after w (ev_check name) (disk w) (stdout w))).
  { intros [rows [Hm Hin]]. apply migrateFile_skips with rows; auto. }
  assert (Hread : has_table (disk w) -> ~ recorded name (disk w) ->
            lookup name FS = None ->
            migrateFile fault engine FS name w
            = (Some (if is_directory FS name then ErrIsDirectory name
                     else ErrNotExist name),
               after w (ev_read name) (disk w) (stdout w))).
  { intros Ht Hn Hl. unfold has_table in Ht.
    destruct (migrations (disk w)) as [rows|] eqn:Hm; [|now elim Ht].
    assert (Hc : (count_rows name rows =? 0)%Z = true).
    { apply count_rows_zero_iff. intros Hin. apply Hn. exists rows. auto. }
    unfold migrateFile, defer, db_Begin, tx_QueryRow_Scan, bind, call, ret, modify.
    rewrite !Hf. step. cbn [seen fst snd]. rewrite Hm, Hc. step.
    unfold fs_ReadFile, bind, call, ret. rewrite Hf, Hl. step.
    destruct (is_directory FS name); step;
      rewrite tx_Rollback_run; unfold after, ev_read; norm_world;
      now rewrite <- !app_assoc. }
  split; [|split; [|split]].
  - intros Hm. rewrite (Hcheck Hm). split; [reflexivity | now apply events_app].
  - intros Hr. rewrite (Hrec Hr). split; [reflexivity | now apply events_app].
  - intros Ht Hn Hl. rewrite (Hread Ht Hn Hl).
    split; [reflexivity|]. split; [reflexivity | now apply events_app].
  - intros [Hm|[Hr|Hl]].
    + rewrite (Hcheck Hm). split; reflexivity.
    + rewrite (Hrec Hr). split; reflexivity.
    + destruct (migrations (disk w)) as [rows|] eqn:Hm.
      * destruct (in_dec string_dec name rows) as [Hin|Hn].
        -- rewrite Hrec by (exists rows; auto). split; reflexivity.
        -- rewrite Hread; [split; reflexivity | unfold has_table; congruence | | exact Hl].
           intros [rows' [Hm' Hin']]. rewrite Hm in Hm'. congruence.
      * rewrite (Hcheck eq_refl). split; reflexivity.
Qed.

(** X17.  [migrateFile] called on its own, with no library failure:
    without the bookkeeping table it returns the error of the check; for
    a script that has a record it returns nil after the check and never
    reads the script, even one that is not embedded; for a name that is
    neither recorded nor that of an embedded file it returns the path
    error of the read: of a directory for a directory of the embedded
    files, otherwise one that wraps [fs.ErrNotExist].  In all three cases
    the transaction is rolled back and nothing is committed or
    printed. *)
Theorem migrateFile_edge_cases fault engine FS name w :
  (forall t, fault t = None) -> migrateFile_edges fault engine FS name w.
Proof. apply migrateFile_on_its_own. Qed.

Lemma migrateFile_edge_cases_witness :
  migrateFile_edges no_fault example_engine example_FS "migration/0003_gone.sql"
    (snd (migrate no_fault example_engine example_FS quote_plain (initial_World []))).
Proof.
  apply migrateFile_edge_cases. reflexivity.
Defined.

(** The read of a name that is not a file of the embedded files. *)
Example read_errors :
  let w := bootstrapped_World in
  option_map Error (fst (migrateFile no_fault example_engine example_FS
                                     "migration/0003_gone.sql" w))
  = Some "open migration/0003_gone.sql: file does not exist" /\
  option_map Error (fst (migrateFile no_fault example_engine example_FS "migration" w))
  = Some "read migration: is a directory".
Proof. vm_compute. split; reflexivity. Qed.
